(** * FordPixelWizard: the pixel-art pipeline of [src/PixelArtProcessor.cpp]

    A shallow embedding of [PixelArtProcessor::Process] and of the stages it
    calls, followed by the properties of the pipeline.  Of the control panel
    ([src/App.cpp]) the two places that meet the pipeline are embedded: the
    colour count it shows for a preset and [App::RandomizeParams].

    Conventions.
    - A C++ [int] is a [Z].  Image sizes are assumed small enough that no
      [int] expression of the source overflows ([valid_input] bounds the pixel
      count), so no wrap-around has to be written out.
    - An 8-bit channel ([uchar]) is a [Z] in [0, 255]; [Mat_ok] states the range.
    - A [cv::Mat] of type [CV_8UC3] is its type code and its rows of pixels.
    - [float] and [double] values are rationals.  Where the source computes on
      small integers and dyadic weights only (squared colour distances, the
      error-diffusion weights k/16, the brightness average) the floating-point
      result is exact and is written with integer arithmetic.  Where rounding
      of the floating-point unit matters (Gaussian smoothing, the mean of a
      block, Lab conversion, k-means, the unsharp mask, the luminance weights)
      the operation is a field of the [OpenCV] interface below.
    - OpenCV itself is not part of the repository: it is the record [OpenCV],
      and what is assumed of it is [OpenCV_spec].  Of [cv::mean] nothing is
      assumed there: it multiplies the sum by the rounded reciprocal of the
      count in [double], which need not be the quotient.
    - [Mat::at] checks its indices under [CV_DbgAssert] only.  The embedding
      is that of a release build, where the check is compiled out: an index
      outside the matrix raises nothing and reads whatever the memory holds,
      a value the interface supplies ([stray_float], [stray_int]) and of
      which nothing is assumed. *)

From Stdlib Require Import ZArith QArith Qround Qminmax Lia.
From stdpp Require Import base list numbers.

#[local] Open Scope Z_scope.

(** ** Pixels and matrices *)

(** [cv::Vec3b]: channels [0], [1], [2] (blue, green, red). *)
Record Vec3b := mkVec3b { ch0 : Z; ch1 : Z; ch2 : Z }.

#[global] Instance Vec3b_eq_dec : EqDecision Vec3b.
Proof. solve_decision. Defined.

#[global] Instance Vec3b_inhabited : Inhabited Vec3b := populate (mkVec3b 0 0 0).

(** [cv::Scalar] as returned by [cv::mean] (three of its four doubles). *)
Record Scalar := mkScalar { sc0 : Q; sc1 : Q; sc2 : Q }.

(** A row of the [total x 3] sample matrix handed to [cv::kmeans], also the
    three floats read from a row of the centre matrix. *)
Record Vec3f := mkVec3f { fl0 : Q; fl1 : Q; fl2 : Q }.

#[global] Instance Vec3f_inhabited : Inhabited Vec3f := populate (mkVec3f 0 0 0).

(** [CV_MAKETYPE(CV_8U, 3)]; the channel count of a type code is [CV_MAT_CN]. *)
Definition CV_8UC3 : Z := 16.

Definition CV_MAT_CN (type : Z) : Z := Z.land (Z.shiftr type 3) 511 + 1.

Record Mat := mkMat { mtype : Z; mdata : list (list Vec3b) }.

(** [cv::Mat()], what [return {}] builds. *)
Definition Mat_null : Mat := mkMat 0 [].

Definition rows (m : Mat) : Z := Z.of_nat (length (mdata m)).

Definition cols (m : Mat) : Z :=
  match mdata m with
  | [] => 0
  | r :: _ => Z.of_nat (length r)
  end.

(** [Mat::empty()]: no element. *)
Definition Mat_empty (m : Mat) : bool := rows m * cols m =? 0.

(** [m.at<cv::Vec3b>(y, x)], also [m.ptr<cv::Vec3b>(y)[x]]. *)
Definition Mat_at (m : Mat) (y x : Z) : Vec3b :=
  (mdata m !!! Z.to_nat y) !!! Z.to_nat x.

(** [m.at<cv::Vec3b>(y, x) = v]. *)
Definition Mat_set (m : Mat) (y x : Z) (v : Vec3b) : Mat :=
  mkMat (mtype m) (alter (fun row => <[Z.to_nat x := v]> row) (Z.to_nat y) (mdata m)).

(** [cv::Mat(h, w, type, cv::Scalar(c))]. *)
Definition Mat_create (h w type : Z) (c : Vec3b) : Mat :=
  mkMat type (replicate (Z.to_nat h) (replicate (Z.to_nat w) c)).

(** A freshly allocated [h] x [w] matrix whose loop nest
    [for y < h, for x < w: dst(y, x) = f y x] writes every cell once, with a
    value that does not read [dst]. *)
Definition Mat_tabulate (h w type : Z) (f : Z -> Z -> Vec3b) : Mat :=
  mkMat type (fmap (fun y => fmap (fun x => f y x) (seqZ 0 w)) (seqZ 0 h)).

Record Rect := mkRect { rx : Z; ry : Z; rwidth : Z; rheight : Z }.

(** [m(roi)]: the sub-matrix view. *)
Definition Mat_roi (m : Mat) (r : Rect) : Mat :=
  mkMat (mtype m)
    (fmap (fun row => take (Z.to_nat (rwidth r)) (drop (Z.to_nat (rx r)) row))
       (take (Z.to_nat (rheight r)) (drop (Z.to_nat (ry r)) (mdata m)))).

Definition in_rect (r : Rect) (y x : Z) : bool :=
  (ry r <=? y) && (y <? ry r + rheight r) && (rx r <=? x) && (x <? rx r + rwidth r).

(** [m(roi).setTo(c)]: every cell of the rectangle becomes [c]. *)
Definition Mat_setTo (m : Mat) (r : Rect) (c : Vec3b) : Mat :=
  mkMat (mtype m)
    (imap (fun y row =>
             imap (fun x v => if in_rect r (Z.of_nat y) (Z.of_nat x) then c else v) row)
       (mdata m)).

(** A [CV_8UC1] mask (the edge mask of the outline stage). *)
Definition Mask := list (list Z).

Definition Mask_at (e : Mask) (y x : Z) : Z := (e !!! Z.to_nat y) !!! Z.to_nat x.

Definition Mask_tabulate (h w : Z) (f : Z -> Z -> Z) : Mask :=
  fmap (fun y => fmap (fun x => f y x) (seqZ 0 w)) (seqZ 0 h).

(** ** Scalar conversions *)

(** Conversion of an [int] to [uchar]. *)
Definition uchar_of_int (v : Z) : Z := v mod 256.

(** Truncation toward zero: [static_cast<int>] of a floating-point value. *)
Definition Qtrunc (q : Q) : Z := if Qle_bool 0 q then Qfloor q else Qceiling q.

(** [static_cast<uchar>(double)]. *)
Definition uchar_of_double (q : Q) : Z := uchar_of_int (Qtrunc q).

(** [std::lround]: nearest integer, halves away from zero. *)
Definition lround (q : Q) : Z :=
  if Qle_bool 0 q then Qfloor (q + (1 # 2)) else Qceiling (q - (1 # 2)).

(** [std::numeric_limits<float>::max()], which is an integer. *)
Definition FLT_MAX : Z := (2 ^ 24 - 1) * 2 ^ 104.

(** ** Parameters *)

Inductive PalettePreset :=
  Custom | NES | GameBoy | GameBoyPocket | Pico8 | CGA | EGA | Commodore64.

#[global] Instance PalettePreset_eq_dec : EqDecision PalettePreset.
Proof. solve_decision. Defined.

Record Params := mkParams {
  blockSize : Z;
  paletteSize : Z;
  preBlur : bool;
  edgeEnhance : bool;
  dither : bool;
  outline : bool;
  outlineThickness : Z;
  palettePreset : PalettePreset
}.

(** The default member initialisers of [struct Params]. *)
Definition default_Params : Params := mkParams 8 16 true false false false 1 Custom.

(** ** The OpenCV interface *)

(** The state of [cv::theRNG()], which [cv::kmeans] reads and advances. *)
Definition RNG := Z.

Inductive ColorConversionCode := COLOR_BGR2Lab | COLOR_Lab2BGR.

(** [cv::TermCriteria(type, maxCount, epsilon)]. *)
Record TermCriteria := mkTermCriteria { tc_type : Z; tc_maxCount : Z; tc_epsilon : Q }.

Definition TermCriteria_EPS_MAX_ITER : Z := 3.
Definition KMEANS_PP_CENTERS : Z := 2.

(** A single-channel [CV_32F] matrix, by rows. *)
Definition Mat32F := list (list Q).

(** The element [(i, j)] of the matrix, if it has one. *)
Definition Mat32F_get (m : Mat32F) (i j : Z) : option Q :=
  if (0 <=? i) && (0 <=? j)
  then match m !! Z.to_nat i with
       | Some row => row !! Z.to_nat j
       | None => None
       end
  else None.

(** [(i, j)] is an element of the matrix. *)
Definition Mat32F_in (m : Mat32F) (i j : Z) : bool :=
  match Mat32F_get m i j with
  | Some _ => true
  | None => false
  end.

(** The points [cv::kmeans] clusters.  It takes a sample matrix of one row
    for a row of one-dimensional points ([isrow = data.rows == 1],
    [N = isrow ? data.cols : data.rows], [dims = isrow ? 1 : data.cols]):
    the [1 x 3] matrix of a single sample is three points of dimension 1. *)
Definition kmeans_data (samples : list Vec3f) : Mat32F :=
  match samples with
  | [s] => [[fl0 s]; [fl1 s]; [fl2 s]]
  | _ => fmap (fun s => [fl0 s; fl1 s; fl2 s]) samples
  end.

(** The dimension of those points. *)
Definition kmeans_dims (samples : list Vec3f) : nat :=
  match samples with
  | [_] => 1%nat
  | _ => 3%nat
  end.

(** What a call of [cv::kmeans] leaves in [labels] ([N x 1], [CV_32S]) and
    [centers] ([K x dims], [CV_32F]); [None] when it raises a
    [cv::Exception]. *)
Definition KMeansOutput : Type := option (list Z * Mat32F).

Record OpenCV := mkOpenCV {
  (** [cv::GaussianBlur(src, dst, Size(k, k), 0, 0, BORDER_DEFAULT)] *)
  GaussianBlur : Mat -> Z -> Mat;
  (** [cv::mean(block)] *)
  mean : Mat -> Scalar;
  (** [cv::cvtColor(src, dst, code)] *)
  cvtColor : Mat -> ColorConversionCode -> Mat;
  (** [cv::kmeans(samples, K, labels, criteria, attempts, flags, centers)] *)
  kmeans : RNG -> list Vec3f -> Z -> TermCriteria -> Z -> Z -> KMeansOutput * RNG;
  (** [cv::morphologyEx(e, e, MORPH_OPEN, getStructuringElement(MORPH_CROSS, Size(3, 3)))] *)
  morphologyEx_open_cross3 : Mask -> Mask;
  (** [cv::dilate(e, e, getStructuringElement(MORPH_RECT, Size(k, k)))] *)
  dilate_rect : Mask -> Z -> Mask;
  (** [static_cast<int>(0.299f * c[2] + 0.587f * c[1] + 0.114f * c[0])] *)
  luminance : Vec3b -> Z;
  (** one channel of the unsharp mask: [v + (v - blurred) * strength] in
      [float], clamped to [0, 255] and converted back by [convertTo] *)
  unsharp : Q -> Z -> Z -> Z;
  (** what [m.at<float>(i, j)] finds when [(i, j)] is no element of [m]:
      [Mat::at] checks its indices under [CV_DbgAssert] only, which a release
      build compiles out, and the read then yields whatever the memory holds.
      The value only reaches [std::lround] and [ClampInt]; bits that are no
      number are rounded to some [int] and clamped like any other. *)
  stray_float : Mat32F -> Z -> Z -> Q;
  (** the same for [labels.at<int>(i, 0)] *)
  stray_int : list Z -> Z -> Z
}.

(** ** Exceptions and the generator state *)

Inductive Outcome (A : Type) :=
  | Ok (a : A)
  | Throw.

Arguments Ok {A} a.
Arguments Throw {A}.

(** A computation that may raise a [cv::Exception] and threads the state of
    the random generator. *)
Definition CV (A : Type) : Type := RNG -> Outcome A * RNG.

Definition ret {A} (a : A) : CV A := fun g => (Ok a, g).

Definition throw {A} : CV A := fun g => (Throw, g).

Definition bind {A B} (c : CV A) (k : A -> CV B) : CV B :=
  fun g =>
    match c g with
    | (Ok a, g') => k a g'
    | (Throw, g') => (Throw, g')
    end.

Notation "'let*' x := c 'in' k" := (bind c (fun x => k))
  (at level 10, x name, c at level 100, k at level 200).

(** ** Helpers of the anonymous namespace *)

Definition ClampInt (v lo hi : Z) : Z := Z.max lo (Z.min v hi).

(** Squared Euclidean distance.  The source computes it in [float]; the
    channel differences are integers in [-255, 255] and the sum is below
    [2^24], so every intermediate value is exact. *)
Definition ColorDistanceSquared (a b : Vec3b) : Z :=
  let dr := ch2 a - ch2 b in
  let dg := ch1 a - ch1 b in
  let db := ch0 a - ch0 b in
  dr * dr + dg * dg + db * db.

(** ** Fixed palettes *)

Definition GetPaletteColors (preset : PalettePreset) : list Vec3b :=
  match preset with
  | NES =>
    [
      mkVec3b 124 124 124; mkVec3b 0 0 252; mkVec3b 0 0 188; mkVec3b 68 40 188;
      mkVec3b 148 0 132; mkVec3b 168 0 32; mkVec3b 168 16 0; mkVec3b 136 20 0;
      mkVec3b 80 48 0; mkVec3b 0 120 0; mkVec3b 0 104 0; mkVec3b 0 88 0;
      mkVec3b 0 64 88; mkVec3b 0 0 0; mkVec3b 0 0 0; mkVec3b 188 188 188;
      mkVec3b 0 120 248; mkVec3b 0 88 248; mkVec3b 104 68 252; mkVec3b 216 0 204;
      mkVec3b 228 0 88; mkVec3b 248 56 0; mkVec3b 228 92 16; mkVec3b 172 124 0;
      mkVec3b 0 184 0; mkVec3b 0 168 0; mkVec3b 0 168 68; mkVec3b 0 136 136;
      mkVec3b 248 248 248; mkVec3b 60 188 252; mkVec3b 104 136 252; mkVec3b 152 120 248;
      mkVec3b 248 120 248; mkVec3b 248 88 152; mkVec3b 248 120 88; mkVec3b 252 160 68;
      mkVec3b 248 184 0; mkVec3b 184 248 24; mkVec3b 88 216 84; mkVec3b 88 248 152;
      mkVec3b 0 232 216; mkVec3b 120 120 120; mkVec3b 252 252 252; mkVec3b 164 228 252;
      mkVec3b 184 184 248; mkVec3b 216 184 248; mkVec3b 248 184 248; mkVec3b 248 164 192;
      mkVec3b 240 208 176; mkVec3b 252 224 168; mkVec3b 248 216 120; mkVec3b 216 248 120;
      mkVec3b 184 248 184; mkVec3b 184 248 216; mkVec3b 0 252 252; mkVec3b 248 216 248
    ]
  | GameBoy =>
    [
      mkVec3b 15 56 15; mkVec3b 48 98 48; mkVec3b 139 172 15; mkVec3b 155 188 15
    ]
  | GameBoyPocket =>
    [
      mkVec3b 15 15 15; mkVec3b 79 79 79; mkVec3b 163 163 163; mkVec3b 255 255 255
    ]
  | Pico8 =>
    [
      mkVec3b 0 0 0; mkVec3b 29 43 83; mkVec3b 126 37 83; mkVec3b 0 135 81;
      mkVec3b 171 82 54; mkVec3b 95 87 79; mkVec3b 194 195 199; mkVec3b 255 241 232;
      mkVec3b 255 0 77; mkVec3b 255 163 0; mkVec3b 255 236 39; mkVec3b 0 228 54;
      mkVec3b 41 173 255; mkVec3b 131 118 156; mkVec3b 255 119 168; mkVec3b 255 204 170
    ]
  | CGA =>
    [
      mkVec3b 0 0 0; mkVec3b 85 255 255; mkVec3b 255 85 255; mkVec3b 255 255 255
    ]
  | EGA =>
    [
      mkVec3b 0 0 0; mkVec3b 0 0 170; mkVec3b 0 170 0; mkVec3b 0 170 170;
      mkVec3b 170 0 0; mkVec3b 170 0 170; mkVec3b 170 85 0; mkVec3b 170 170 170;
      mkVec3b 85 85 85; mkVec3b 85 85 255; mkVec3b 85 255 85; mkVec3b 85 255 255;
      mkVec3b 255 85 85; mkVec3b 255 85 255; mkVec3b 255 255 85; mkVec3b 255 255 255
    ]
  | Commodore64 =>
    [
      mkVec3b 0 0 0; mkVec3b 255 255 255; mkVec3b 136 0 0; mkVec3b 170 255 238;
      mkVec3b 204 68 204; mkVec3b 0 204 85; mkVec3b 0 0 170; mkVec3b 238 238 119;
      mkVec3b 221 136 85; mkVec3b 102 68 0; mkVec3b 255 119 119; mkVec3b 51 51 51;
      mkVec3b 119 119 119; mkVec3b 170 255 102; mkVec3b 0 136 255; mkVec3b 187 187 187
    ]
  | Custom => []
  end.

(** The linear scan shared by [QuantizeWithFixedPalette] (lines 381-390) and
    [FindNearestPaletteColor] (lines 402-411): the pair [(minDist, bestIdx)]
    after the loop over [i < palette.size()]. *)
Definition NearestScan (color : Vec3b) (palette : list Vec3b) : Z * nat :=
  fold_left
    (fun (st : Z * nat) (i : nat) =>
       let dist := ColorDistanceSquared color (palette !!! i) in
       if dist <? st.1 then (dist, i) else st)
    (seq 0 (length palette)) (FLT_MAX, 0%nat).

Definition FindNearestPaletteColor (color : Vec3b) (palette : list Vec3b) : Vec3b :=
  match palette with
  | [] => color
  | _ => palette !!! (NearestScan color palette).2
  end.

Definition QuantizeWithFixedPalette (smallBgr : Mat) (preset : PalettePreset) : Mat :=
  if Mat_empty smallBgr || negb (mtype smallBgr =? CV_8UC3) then Mat_null else
  let palette := GetPaletteColors preset in
  match palette with
  | [] => Mat_null
  | _ =>
      Mat_tabulate (rows smallBgr) (cols smallBgr) CV_8UC3
        (fun y x =>
           let pixel := Mat_at smallBgr y x in
           palette !!! (NearestScan pixel palette).2)
  end.

(** ** Floyd-Steinberg error diffusion *)

(** [static_cast<uchar>(ClampInt(static_cast<int>(v + e * (w / 16.0f)), 0, 255))]:
    [e * w / 16] is a dyadic rational, the sum is exact in [float], and the
    conversion to [int] truncates toward zero. *)
Definition diffuse (v e w : Z) : Z :=
  uchar_of_int (ClampInt ((16 * v + e * w) ÷ 16) 0 255).

Definition diffuse3 (p : Vec3b) (e0 e1 e2 w : Z) : Vec3b :=
  mkVec3b (diffuse (ch0 p) e0 w) (diffuse (ch1 p) e1 w) (diffuse (ch2 p) e2 w).

(** One iteration of the loop body at cell [(y, x)] (lines 438-490, again
    553-601). *)
Definition DitherCell (palette : list Vec3b) (work : Mat) (y x : Z) : Mat :=
  let oldPixel := Mat_at work y x in
  let oldPixel :=
    mkVec3b (uchar_of_int (ClampInt (ch0 oldPixel) 0 255))
            (uchar_of_int (ClampInt (ch1 oldPixel) 0 255))
            (uchar_of_int (ClampInt (ch2 oldPixel) 0 255)) in
  let newPixel := FindNearestPaletteColor oldPixel palette in
  let e0 := ch0 oldPixel - ch0 newPixel in
  let e1 := ch1 oldPixel - ch1 newPixel in
  let e2 := ch2 oldPixel - ch2 newPixel in
  let work := Mat_set work y x newPixel in
  let work :=
    if x + 1 <? cols work
    then Mat_set work y (x + 1) (diffuse3 (Mat_at work y (x + 1)) e0 e1 e2 7)
    else work in
  if y + 1 <? rows work then
    let work :=
      if 0 <=? x - 1
      then Mat_set work (y + 1) (x - 1) (diffuse3 (Mat_at work (y + 1) (x - 1)) e0 e1 e2 3)
      else work in
    let work := Mat_set work (y + 1) x (diffuse3 (Mat_at work (y + 1) x) e0 e1 e2 5) in
    if x + 1 <? cols work
    then Mat_set work (y + 1) (x + 1) (diffuse3 (Mat_at work (y + 1) (x + 1)) e0 e1 e2 1)
    else work
  else work.

(** The loop nest [for y < work.rows, for x < work.cols] of both dithering
    quantizers, which are the same text. *)
Definition FloydSteinberg (palette : list Vec3b) (work : Mat) : Mat :=
  fold_left
    (fun work y =>
       fold_left (fun work x => DitherCell palette work y x) (seqZ 0 (cols work)) work)
    (seqZ 0 (rows work)) work.

Definition QuantizeWithFixedPaletteDither (smallBgr : Mat) (preset : PalettePreset) : Mat :=
  if Mat_empty smallBgr || negb (mtype smallBgr =? CV_8UC3) then Mat_null else
  let palette := GetPaletteColors preset in
  match palette with
  | [] => Mat_null
  | _ => FloydSteinberg palette smallBgr
  end.

(** ** Block expansion *)

Record Size := mkSize { width : Z; height : Z }.

Definition Mat_size (m : Mat) : Size := mkSize (cols m) (rows m).

(** The body of the loop nest of [ExpandBlocksBGR] for tile [(by, bx)]. *)
Definition PaintTile (smallBgr : Mat) (blockSize : Z) (out : Mat) (by_ bx : Z) : Mat :=
  let c := Mat_at smallBgr by_ bx in
  let x0 := bx * blockSize in
  let y0 := by_ * blockSize in
  let x1 := Z.min (x0 + blockSize) (cols out) in
  let y1 := Z.min (y0 + blockSize) (rows out) in
  if (x1 <=? x0) || (y1 <=? y0) then out
  else Mat_setTo out (mkRect x0 y0 (x1 - x0) (y1 - y0)) c.

Definition ExpandBlocksBGR (smallBgr : Mat) (outSize : Size) (blockSize : Z) : Mat :=
  if Mat_empty smallBgr || negb (mtype smallBgr =? CV_8UC3) then Mat_null else
  let blockSize := Z.max 1 blockSize in
  let out := Mat_create (height outSize) (width outSize) CV_8UC3 (mkVec3b 0 0 0) in
  let bw := cols smallBgr in
  let bh := rows smallBgr in
  fold_left
    (fun out by_ =>
       fold_left (fun out bx => PaintTile smallBgr blockSize out by_ bx) (seqZ 0 bw) out)
    (seqZ 0 bh) out.

(** ** The stages that call OpenCV *)

Section Pipeline.

Context (cv : OpenCV).

Definition BuildBlockColorImageBGR (inputBgr : Mat) (blockSize : Z) : Mat :=
  let w := cols inputBgr in
  let h := rows inputBgr in
  if (w <=? 0) || (h <=? 0) then Mat_null else
  let blockSize := Z.max 1 blockSize in
  let bw := (w + blockSize - 1) ÷ blockSize in
  let bh := (h + blockSize - 1) ÷ blockSize in
  Mat_tabulate bh bw CV_8UC3
    (fun by_ bx =>
       let x0 := bx * blockSize in
       let y0 := by_ * blockSize in
       let x1 := Z.min (x0 + blockSize) w in
       let y1 := Z.min (y0 + blockSize) h in
       let roi := mkRect x0 y0 (x1 - x0) (y1 - y0) in
       let block := Mat_roi inputBgr roi in
       let m := mean cv block in
       mkVec3b (uchar_of_double (sc0 m)) (uchar_of_double (sc1 m)) (uchar_of_double (sc2 m))).

(** [paletteSize = std::max(2, std::min(paletteSize, total))] (lines 125 and 503). *)
Definition ClusterCount (paletteSize total : Z) : Z := Z.max 2 (Z.min paletteSize total).

(** The [total x 3] matrix [samples] filled from [smallLab] (lines 132-141,
    again 509-518): row [y * cols + x] holds the three channels as [float]. *)
Definition KMeansSamples (smallLab : Mat) : list Vec3f :=
  concat
    (fmap (fun y =>
            fmap (fun x =>
                   let c := Mat_at smallLab y x in
                   mkVec3f (inject_Z (ch0 c)) (inject_Z (ch1 c)) (inject_Z (ch2 c)))
              (seqZ 0 (cols smallLab)))
       (seqZ 0 (rows smallLab))).

(** The call of line 151 (again 524): criteria [(EPS + MAX_ITER, 30, 1.0)],
    three attempts, [KMEANS_PP_CENTERS]. *)
Definition run_kmeans (samples : list Vec3f) (K : Z) : CV (list Z * Mat32F) :=
  fun g =>
    match kmeans cv g samples K (mkTermCriteria TermCriteria_EPS_MAX_ITER 30 1) 3
            KMEANS_PP_CENTERS with
    | (Some lc, g') => (Ok lc, g')
    | (None, g') => (Throw, g')
    end.

(** [m.at<float>(i, j)], without a bounds check. *)
Definition Mat32F_at (m : Mat32F) (i j : Z) : Q :=
  match Mat32F_get m i j with
  | Some v => v
  | None => stray_float cv m i j
  end.

(** [labels.at<int>(i, 0)], without a bounds check. *)
Definition Labels_at (labels : list Z) (i : Z) : Z :=
  match (if 0 <=? i then labels !! Z.to_nat i else None) with
  | Some l => l
  | None => stray_int cv labels i
  end.

(** [centers.at<float>(label, 0)], [(label, 1)], [(label, 2)] (lines 160-163,
    again 532-534). *)
Definition CenterRow (centers : Mat32F) (label : Z) : Vec3f :=
  mkVec3f (Mat32F_at centers label 0) (Mat32F_at centers label 1)
          (Mat32F_at centers label 2).

(** A cluster centre rounded and clamped to an 8-bit Lab pixel. *)
Definition CenterToLab (c : Vec3f) : Vec3b :=
  mkVec3b (uchar_of_int (ClampInt (lround (fl0 c)) 0 255))
          (uchar_of_int (ClampInt (lround (fl1 c)) 0 255))
          (uchar_of_int (ClampInt (lround (fl2 c)) 0 255)).

Definition QuantizeWithKMeansLab (smallBgr : Mat) (paletteSize : Z) : CV Mat :=
  if Mat_empty smallBgr || negb (mtype smallBgr =? CV_8UC3) then ret Mat_null else
  let total := rows smallBgr * cols smallBgr in
  if total <=? 0 then ret Mat_null else
  let paletteSize := ClusterCount paletteSize total in
  let smallLab := cvtColor cv smallBgr COLOR_BGR2Lab in
  let samples := KMeansSamples smallLab in
  let* lc := run_kmeans samples paletteSize in
  let labels := lc.1 in
  let centers := lc.2 in
  let quantLab :=
    Mat_tabulate (rows smallLab) (cols smallLab) CV_8UC3
      (fun y x =>
         let i := y * cols smallLab + x in
         let label := Labels_at labels i in
         CenterToLab (CenterRow centers label)) in
  ret (cvtColor cv quantLab COLOR_Lab2BGR).

(** The palette built from the cluster centres (lines 527-539): centre [i]
    is rounded to a Lab pixel and converted to BGR as a [1 x 1] image. *)
Definition CentersPalette (centers : Mat32F) (paletteSize : Z) : list Vec3b :=
  fmap (fun i =>
         let labPixel := Mat_set (Mat_create 1 1 CV_8UC3 (mkVec3b 0 0 0)) 0 0
                           (CenterToLab (CenterRow centers i)) in
         let bgrPixel := cvtColor cv labPixel COLOR_Lab2BGR in
         Mat_at bgrPixel 0 0)
    (seqZ 0 paletteSize).

Definition QuantizeWithKMeansLabDither (smallBgr : Mat) (paletteSize : Z) : CV Mat :=
  if Mat_empty smallBgr || negb (mtype smallBgr =? CV_8UC3) then ret Mat_null else
  let total := rows smallBgr * cols smallBgr in
  if total <=? 0 then ret Mat_null else
  let paletteSize := ClusterCount paletteSize total in
  let smallLab := cvtColor cv smallBgr COLOR_BGR2Lab in
  let samples := KMeansSamples smallLab in
  let* lc := run_kmeans samples paletteSize in
  let centers := lc.2 in
  let palette := CentersPalette centers paletteSize in
  ret (FloydSteinberg palette smallBgr).

(** [bgrF - blurredF] raises when the two sizes differ. *)
Definition ApplyEdgeEnhancementInPlace (bgr : Mat) (strength : Q) : CV Mat :=
  if Mat_empty bgr || negb (mtype bgr =? CV_8UC3) then ret bgr else
  let strength := Qmax 0 (Qmin strength 2) in
  let blurred := GaussianBlur cv bgr 3 in
  if (rows blurred =? rows bgr) && (cols blurred =? cols bgr) then
    ret (Mat_tabulate (rows bgr) (cols bgr) CV_8UC3
           (fun y x =>
              let a := Mat_at bgr y x in
              let b := Mat_at blurred y x in
              mkVec3b (unsharp cv strength (ch0 a) (ch0 b))
                      (unsharp cv strength (ch1 a) (ch1 b))
                      (unsharp cv strength (ch2 a) (ch2 b))))
  else throw.

(** The test made for each of the four neighbours (lines 639-648 and its three
    repetitions).  [std::sqrt] of the squared distance is at least [40] exactly
    when the squared distance is at least [1600]. *)
Definition SignificantlyDifferent (current neighbor : Vec3b) : bool :=
  let lumCurrent := luminance cv current in
  let lumNeighbor := luminance cv neighbor in
  let lumDiff := Z.abs (lumCurrent - lumNeighbor) in
  (35 <=? lumDiff) || (1600 <=? ColorDistanceSquared current neighbor).

(** The edge mask before morphology (lines 621-697). *)
Definition EdgeMask (bgr : Mat) : Mask :=
  Mask_tabulate (rows bgr) (cols bgr)
    (fun y x =>
       let current := Mat_at bgr y x in
       let isEdge :=
         (x + 1 <? cols bgr) && SignificantlyDifferent current (Mat_at bgr y (x + 1)) in
       let isEdge :=
         isEdge || ((y + 1 <? rows bgr) && SignificantlyDifferent current (Mat_at bgr (y + 1) x)) in
       let isEdge :=
         isEdge || ((0 <? x) && SignificantlyDifferent current (Mat_at bgr y (x - 1))) in
       let isEdge :=
         isEdge || ((0 <? y) && SignificantlyDifferent current (Mat_at bgr (y - 1) x)) in
       if isEdge then 255 else 0).

(** Adaptive darkening of an edge pixel (lines 719-737). *)
Definition DarkenPixel (pixel : Vec3b) : Vec3b :=
  let brightness := (ch0 pixel + ch1 pixel + ch2 pixel) ÷ 3 in
  let darkenAmount := if brightness <? 64 then 40 else if 192 <? brightness then 90 else 70 in
  mkVec3b (uchar_of_int (Z.max 0 (ch0 pixel - darkenAmount)))
          (uchar_of_int (Z.max 0 (ch1 pixel - darkenAmount)))
          (uchar_of_int (Z.max 0 (ch2 pixel - darkenAmount))).

Definition ApplyPixelArtOutline (bgr : Mat) (thickness : Z) : Mat :=
  if Mat_empty bgr || negb (mtype bgr =? CV_8UC3) then bgr else
  let thickness := Z.max 1 (Z.min thickness 5) in
  let edges := EdgeMask bgr in
  let edges :=
    if thickness =? 1 then morphologyEx_open_cross3 cv edges
    else dilate_rect cv edges (2 * thickness + 1) in
  Mat_tabulate (rows bgr) (cols bgr) CV_8UC3
    (fun y x =>
       let pixel := Mat_at bgr y x in
       if 128 <? Mask_at edges y x then DarkenPixel pixel else pixel).

(** [Process] works on the copy [p] of [params]: [p_blockSize],
    [p_paletteSize] and [p_outlineThickness] are the clamped fields of the
    copy.  The strength [0.7f] of the unsharp mask is written [7 # 10]. *)
Definition Process (inputBgr : Mat) (params : Params) : CV Mat :=
  if Mat_empty inputBgr then ret Mat_null else
  if negb (mtype inputBgr =? CV_8UC3) then ret Mat_null else
  let p_blockSize := ClampInt (blockSize params) 1 256 in
  let p_paletteSize := ClampInt (paletteSize params) 2 256 in
  let work := inputBgr in
  let work :=
    if preBlur params then
      let k := Z.max 3 (Z.lor (p_blockSize ÷ 2) 1) in
      GaussianBlur cv work k
    else work in
  let smallBlocksBgr := BuildBlockColorImageBGR work p_blockSize in
  if Mat_empty smallBlocksBgr then ret Mat_null else
  let* quantizedSmallBgr :=
    (if dither params then
       if decide (palettePreset params = Custom)
       then QuantizeWithKMeansLabDither smallBlocksBgr p_paletteSize
       else ret (QuantizeWithFixedPaletteDither smallBlocksBgr (palettePreset params))
     else
       if decide (palettePreset params = Custom)
       then QuantizeWithKMeansLab smallBlocksBgr p_paletteSize
       else ret (QuantizeWithFixedPalette smallBlocksBgr (palettePreset params))) in
  if Mat_empty quantizedSmallBgr then ret Mat_null else
  let out := ExpandBlocksBGR quantizedSmallBgr (Mat_size inputBgr) p_blockSize in
  let* out :=
    (if edgeEnhance params && negb (Mat_empty out)
     then ApplyEdgeEnhancementInPlace out (7 # 10)
     else ret out) in
  let out :=
    if outline params && negb (Mat_empty out) then
      let p_outlineThickness := ClampInt (outlineThickness params) 1 5 in
      ApplyPixelArtOutline out p_outlineThickness
    else out in
  ret out.

End Pipeline.

(** ** Well-formed images *)

Definition Vec3b_ok (c : Vec3b) : bool :=
  (0 <=? ch0 c) && (ch0 c <=? 255) && (0 <=? ch1 c) && (ch1 c <=? 255)
  && (0 <=? ch2 c) && (ch2 c <=? 255).

(** A [CV_8UC3] matrix: every row has [cols] pixels and every channel is a byte. *)
Definition Mat_ok (m : Mat) : bool :=
  (mtype m =? CV_8UC3)
  && forallb (fun row => (Z.of_nat (length row) =? cols m) && forallb Vec3b_ok row) (mdata m).

Definition INT_MAX : Z := 2 ^ 31 - 1.

(** The inputs [Process] is specified for: a non-empty [CV_8UC3] image whose
    pixel count leaves room for the [int] arithmetic of the block loops. *)
Definition valid_input (m : Mat) : bool :=
  Mat_ok m && (0 <? rows m) && (0 <? cols m) && (rows m * cols m <=? INT_MAX - 256).

(** ** What OpenCV promises *)

(** Sum of one channel over all pixels of a matrix. *)
Definition SumChannel (f : Vec3b -> Z) (m : Mat) : Z :=
  foldr (fun c acc => f c + acc) 0 (concat (mdata m)).

Record OpenCV_spec (cv : OpenCV) : Prop := mkOpenCV_spec {
  (** smoothing with an odd positive kernel keeps size and type *)
  GaussianBlur_shape : forall m k,
    Mat_ok m = true -> 0 < k -> Z.odd k = true ->
    Mat_ok (GaussianBlur cv m k) = true
    /\ rows (GaussianBlur cv m k) = rows m /\ cols (GaussianBlur cv m k) = cols m;
  (** colour conversion keeps size and type *)
  cvtColor_shape : forall m code,
    Mat_ok m = true ->
    Mat_ok (cvtColor cv m code) = true
    /\ rows (cvtColor cv m code) = rows m /\ cols (cvtColor cv m code) = cols m;
  (** with at most as many clusters as points and no initial labels passed
      ([KMEANS_USE_INITIAL_LABELS = 1] not in [flags]), k-means labels every
      point with one of [K] centres, each of the dimension of the points *)
  kmeans_result : forall g samples K criteria attempts flags,
    1 <= K <= Z.of_nat (length (kmeans_data samples)) ->
    Z.land flags 1 = 0 ->
    exists labels centers g',
      kmeans cv g samples K criteria attempts flags = (Some (labels, centers), g')
      /\ length labels = length (kmeans_data samples)
      /\ Z.of_nat (length centers) = K
      /\ Forall (fun row => length row = kmeans_dims samples) centers
      /\ Forall (fun l => 0 <= l < K) labels
}.

(** [cv::mean] returns [sum * (1. / count)] in [double]; for a block of one
    pixel that is the pixel itself.  For larger blocks the product can fall
    short of the quotient ([49 * (1. / 49) < 1]), and nothing is assumed of
    it. *)
Definition mean_one_pixel (cv : OpenCV) : Prop :=
  forall m, Mat_ok m = true -> rows m = 1 -> cols m = 1 ->
    sc0 (mean cv m) == inject_Z (ch0 (Mat_at m 0 0))
    /\ sc1 (mean cv m) == inject_Z (ch1 (Mat_at m 0 0))
    /\ sc2 (mean cv m) == inject_Z (ch2 (Mat_at m 0 0)).

(** ** A reference instance of the interface

    Dilation and erosion follow OpenCV's definitions; the mean is the exact
    quotient (OpenCV's differs from it by the rounding of [double]);
    luminance and the unsharp mask are computed in exact rational arithmetic;
    elsewhere the instance has the simplest behaviour [OpenCV_spec] allows: no
    smoothing (which is what smoothing does to an image of one colour), the
    identity as colour conversion, and a k-means that takes the first [K]
    points of [kmeans_data] as centres and assigns every point to the nearest
    one.  Like OpenCV it rejects a call with more clusters than points (There
    can't be more clusters than elements).  A read outside a matrix finds 0. *)

Definition Mask_rows (e : Mask) : Z := Z.of_nat (length e).

Definition Mask_cols (e : Mask) : Z :=
  match e with
  | [] => 0
  | r :: _ => Z.of_nat (length r)
  end.

(** Erosion or dilation: [op] over the neighbours at the offsets of the
    structuring element that fall inside the mask. *)
Definition morph (op : Z -> Z -> Z) (offsets : list (Z * Z)) (e : Mask) : Mask :=
  Mask_tabulate (Mask_rows e) (Mask_cols e)
    (fun y x =>
       fold_left
         (fun acc d =>
            let y' := y + d.1 in
            let x' := x + d.2 in
            if (0 <=? y') && (y' <? Mask_rows e) && (0 <=? x') && (x' <? Mask_cols e)
            then op acc (Mask_at e y' x') else acc)
         offsets (Mask_at e y x)).

Definition cross3 : list (Z * Z) := [(-1, 0); (1, 0); (0, -1); (0, 1)].

Definition rect_offsets (k : Z) : list (Z * Z) :=
  let r := k ÷ 2 in
  concat (fmap (fun dy => fmap (fun dx => (dy, dx)) (seqZ (- r) k)) (seqZ (- r) k)).

Definition ref_mean (m : Mat) : Scalar :=
  let n := Z.to_pos (rows m * cols m) in
  mkScalar (SumChannel ch0 m # n) (SumChannel ch1 m # n) (SumChannel ch2 m # n).

(** Squared distance of two points. *)
Definition point_dist (a b : list Q) : Q :=
  foldr Qplus 0%Q (zip_with (fun u v => ((u - v) * (u - v))%Q) a b).

Definition ref_nearest_center (centers : Mat32F) (s : list Q) : nat :=
  (fold_left
     (fun (st : Q * nat) (i : nat) =>
        let d := point_dist s (centers !!! i) in
        if Qle_bool st.1 d then st else (d, i))
     (seq 0 (length centers)) (point_dist s (centers !!! 0%nat), 0%nat)).2.

(** [cv::RNG::next]: multiply-with-carry on the 64-bit state. *)
Definition RNG_next (g : RNG) : RNG :=
  ((g mod 2 ^ 32) * 4164903690 + (g mod 2 ^ 64) / 2 ^ 32) mod 2 ^ 64.

Definition ref_kmeans (g : RNG) (samples : list Vec3f) (K : Z)
    (criteria : TermCriteria) (attempts flags : Z) : KMeansOutput * RNG :=
  let data := kmeans_data samples in
  if (K <=? 0) || (Z.of_nat (length data) <? K) then (None, g) else
  let centers := take (Z.to_nat K) data in
  let labels := fmap (fun s => Z.of_nat (ref_nearest_center centers s)) data in
  (Some (labels, centers), RNG_next g).

Definition ref_luminance (c : Vec3b) : Z :=
  (299 * ch2 c + 587 * ch1 c + 114 * ch0 c) / 1000.

Definition ref_unsharp (strength : Q) (v blurred : Z) : Z :=
  ClampInt (lround (inject_Z v + inject_Z (v - blurred) * strength)%Q) 0 255.

Definition refCv : OpenCV := {|
  GaussianBlur := fun m _ => m;
  mean := ref_mean;
  cvtColor := fun m _ => m;
  kmeans := ref_kmeans;
  morphologyEx_open_cross3 := fun e => morph Z.max cross3 (morph Z.min cross3 e);
  dilate_rect := fun e k => morph Z.max (rect_offsets k) e;
  luminance := ref_luminance;
  unsharp := ref_unsharp;
  stray_float := fun _ _ _ => 0%Q;
  stray_int := fun _ _ => 0
|}.

(** ** The claims in the words of the specification *)

(** [blockSize] in [1, 256], [paletteSize] in [2, 256], [outlineThickness]
    in [1, 5]. *)
Definition clamp_Params (p : Params) : Params :=
  mkParams (ClampInt (blockSize p) 1 256) (ClampInt (paletteSize p) 2 256)
    (preBlur p) (edgeEnhance p) (dither p) (outline p)
    (ClampInt (outlineThickness p) 1 5) (palettePreset p).

(** [ceil(n / blockSize)]. *)
Definition ceil_div (n blockSize : Z) : Z := (n + blockSize - 1) / blockSize.

(** Sum of a list of integers. *)
Definition sumZ (l : list Z) : Z := foldr Z.add 0 l.

(** Pixel [(y, x)] lies in tile [(by, bx)] of the partition into
    [blockSize x blockSize] tiles. *)
Definition in_tile (blockSize by_ bx y x : Z) : bool :=
  (y / blockSize =? by_) && (x / blockSize =? bx).

(** Sum of [f] over the pixels of the image that lie in tile [(by, bx)]. *)
Definition TileSum (f : Vec3b -> Z) (img : Mat) (blockSize by_ bx : Z) : Z :=
  sumZ (fmap (fun y =>
               sumZ (fmap (fun x =>
                            if in_tile blockSize by_ bx y x then f (Mat_at img y x) else 0)
                       (seqZ 0 (cols img))))
          (seqZ 0 (rows img))).

(** Number of pixels of the image that lie in tile [(by, bx)]: a full tile
    has [blockSize * blockSize] of them, a tile cut by the right or bottom
    border has fewer. *)
Definition TileCount (img : Mat) (blockSize by_ bx : Z) : Z :=
  TileSum (fun _ => 1) img blockSize by_ bx.

(** The rectangle of tile [(by, bx)], cut at the right and bottom border
    (lines 99-104). *)
Definition TileRect (img : Mat) (blockSize by_ bx : Z) : Rect :=
  let x0 := bx * blockSize in
  let y0 := by_ * blockSize in
  let x1 := Z.min (x0 + blockSize) (cols img) in
  let y1 := Z.min (y0 + blockSize) (rows img) in
  mkRect x0 y0 (x1 - x0) (y1 - y0).

(** The mean rounded down, and the mean rounded to the nearest integer. *)
Definition floor_mean (s n : Z) : Z := s / n.

Definition nearest_mean (s n : Z) : Z := (2 * s + n) / (2 * n).

(** Row-major order: the [i]-th visited cell is [(i / w, i mod w)]. *)
Definition row_major (h w : Z) : list (Z * Z) :=
  fmap (fun i => (i / w, i mod w)) (seqZ 0 (h * w)).

(** ** Predicates of the statements *)

(** Every row has [cols] pixels. *)
Definition rectangular (m : Mat) : Prop :=
  forall row, row ∈ mdata m -> Z.of_nat (length row) = cols m.

(** A [CV_8UC3] matrix of [h] rows and [w] columns. *)
Definition shaped (h w : Z) (m : Mat) : Prop :=
  rectangular m /\ rows m = h /\ cols m = w /\ mtype m = CV_8UC3.

(** The state of [NearestScan] after the first [n] palette entries. *)
Definition scan_prefix (color : Vec3b) (palette : list Vec3b) (n : nat) : Z * nat :=
  fold_left
    (fun (st : Z * nat) (i : nat) =>
       let dist := ColorDistanceSquared color (palette !!! i) in
       if dist <? st.1 then (dist, i) else st)
    (seq 0 n) (FLT_MAX, 0%nat).

(** ** Error diffusion in the words of the specification *)

(** Step 1: the channels of the current cell clamped to [0, 255]. *)
Definition ClampPixel (p : Vec3b) : Vec3b :=
  mkVec3b (ClampInt (ch0 p) 0 255) (ClampInt (ch1 p) 0 255) (ClampInt (ch2 p) 0 255).

(** Step 2: [n] is a palette entry at the least squared distance from [c]. *)
Definition is_nearest (palette : list Vec3b) (c n : Vec3b) : Prop :=
  n ∈ palette
  /\ forall c', c' ∈ palette -> ColorDistanceSquared c n <= ColorDistanceSquared c c'.

(** Step 5: the sixteenths of the error that cell [(y', x')] receives from
    cell [(y, x)]: right 7, below-left 3, below 5, below-right 1. *)
Definition fs_weight (y x y' x' : Z) : option Z :=
  if (y' =? y) && (x' =? x + 1) then Some 7
  else if (y' =? y + 1) && (x' =? x - 1) then Some 3
  else if (y' =? y + 1) && (x' =? x) then Some 5
  else if (y' =? y + 1) && (x' =? x + 1) then Some 1
  else None.

(** A recipient channel [v] after it received [k] sixteenths of the error
    [e]: the sum, stored as an integer, clamped to [0, 255] at once. *)
Definition diffused (v e k : Z) : Z :=
  ClampInt (Qtrunc (inject_Z v + inject_Z e * (k # 16))) 0 255.

Definition diffused3 (p : Vec3b) (e0 e1 e2 k : Z) : Vec3b :=
  mkVec3b (diffused (ch0 p) e0 k) (diffused (ch1 p) e1 k) (diffused (ch2 p) e2 k).

(** Steps 1 to 5 at cell [(y, x)], relating the grid before and after: the
    cell becomes the palette colour nearest to its clamped value; the error
    is the clamped value minus that colour; each of the four neighbours that
    lies in the grid receives its share; no other cell changes. *)
Definition DitherStep_spec (palette : list Vec3b) (before after : Mat) (y x : Z) : Prop :=
  let old := ClampPixel (Mat_at before y x) in
  let new := Mat_at after y x in
  let e0 := ch0 old - ch0 new in
  let e1 := ch1 old - ch1 new in
  let e2 := ch2 old - ch2 new in
  is_nearest palette old new
  /\ rows after = rows before /\ cols after = cols before
  /\ forall y' x',
       0 <= y' < rows before -> 0 <= x' < cols before -> y' <> y \/ x' <> x ->
       Mat_at after y' x' =
       match fs_weight y x y' x' with
       | Some k => diffused3 (Mat_at before y' x') e0 e1 e2 k
       | None => Mat_at before y' x'
       end.

(** The loop body applied to the cell at position [p = (y, x)]. *)
Definition DitherVisit (palette : list Vec3b) (work : Mat) (p : Z * Z) : Mat :=
  DitherCell palette work p.1 p.2.

(** [out] is the grid [work] dithered with [palette]: every cell of [work]
    is visited once, in row-major order; each visit is steps 1 to 5; in the
    end the grid has the size it had and every cell is a palette entry. *)
Definition Dithered (palette : list Vec3b) (work out : Mat) : Prop :=
  let order := row_major (rows work) (cols work) in
  out = fold_left (DitherVisit palette) order work
  /\ NoDup order
  /\ (forall y x, (y, x) ∈ order <-> 0 <= y < rows work /\ 0 <= x < cols work)
  /\ (forall before y x,
        rectangular before -> 0 <= y < rows before -> 0 <= x < cols before ->
        DitherStep_spec palette before (DitherVisit palette before (y, x)) y x)
  /\ rows out = rows work /\ cols out = cols work
  /\ forall y x, 0 <= y < rows work -> 0 <= x < cols work -> Mat_at out y x ∈ palette.

(** ** Masks without an edge *)

(** A mask of [h] rows of [w] entries. *)
Definition Mask_shaped (h w : Z) (e : Mask) : Prop :=
  Z.of_nat (length e) = h /\ forall row, row ∈ e -> Z.of_nat (length row) = w.

(** No entry of the mask is set. *)
Definition Mask_clear (h w : Z) (e : Mask) : Prop :=
  forall y x, 0 <= y < h -> 0 <= x < w -> Mask_at e y x = 0.

(** Opening and dilation are a minimum and a maximum over neighbours inside
    the mask, so they set no entry of a mask that has none set. *)
Record Morphology_spec (cv : OpenCV) : Prop := mkMorphology_spec {
  open_clear : forall e h w,
    Mask_shaped h w e -> Mask_clear h w e -> Mask_clear h w (morphologyEx_open_cross3 cv e);
  dilate_clear : forall e k h w,
    Mask_shaped h w e -> Mask_clear h w e -> Mask_clear h w (dilate_rect cv e k)
}.

(** ** Computations that leave the generator alone *)

(** A computation that neither reads nor advances the generator. *)
Definition generator_free {A} (c : CV A) : Prop :=
  forall g, (c g).2 = g /\ forall g2, (c g2).1 = (c g).1.

(** ** The control panel ([src/App.cpp]) *)

(** The number of colours the panel announces for a fixed preset (lines
    239-251): the [switch] leaves [paletteColorCount] at 0 for a preset it
    does not list. *)
Definition paletteColorCount (preset : PalettePreset) : Z :=
  match preset with
  | NES => 54
  | GameBoy | GameBoyPocket | CGA => 4
  | Pico8 | EGA | Commodore64 => 16
  | Custom => 0
  end.

(** The standard random engine: [uniform_int_distribution a b gen] is
    [std::uniform_int_distribution<int>(a, b)(gen)], which returns the drawn
    value and advances the [std::mt19937] state [gen]. *)
Record StdRandom := mkStdRandom {
  Engine : Type;
  uniform_int_distribution : Z -> Z -> Engine -> Z * Engine
}.

(** What the C++ standard promises of the distribution: a value in [a, b]. *)
Record StdRandom_spec (R : StdRandom) : Prop := mkStdRandom_spec {
  uniform_int_range : forall a b gen,
    a <= b -> a <= (uniform_int_distribution R a b gen).1 <= b
}.

(** [static_cast<int>(preset)]: the enumerators count from 0 in the order of
    their declaration. *)
Definition int_of_PalettePreset (preset : PalettePreset) : Z :=
  match preset with
  | Custom => 0 | NES => 1 | GameBoy => 2 | GameBoyPocket => 3
  | Pico8 => 4 | CGA => 5 | EGA => 6 | Commodore64 => 7
  end.

(** [static_cast<PalettePreset>(n)]; [None] for a value that names no
    enumerator. *)
Definition PalettePreset_of_int (n : Z) : option PalettePreset :=
  if n =? 0 then Some Custom else if n =? 1 then Some NES
  else if n =? 2 then Some GameBoy else if n =? 3 then Some GameBoyPocket
  else if n =? 4 then Some Pico8 else if n =? 5 then Some CGA
  else if n =? 6 then Some EGA else if n =? 7 then Some Commodore64
  else None.

(** [App::RandomizeParams] (lines 325-358): every field of [params_] is
    overwritten, so the result depends on the engine only. *)
Definition RandomizeParams (R : StdRandom) (gen : Engine R) : option Params * Engine R :=
  let '(blockSize, gen) := uniform_int_distribution R 4 32 gen in
  let '(preset, gen) := uniform_int_distribution R 0 (int_of_PalettePreset Commodore64) gen in
  let '(paletteSize, gen) := uniform_int_distribution R 2 64 gen in
  let '(b, gen) := uniform_int_distribution R 0 1 gen in
  let preBlur := b =? 1 in
  let '(b, gen) := uniform_int_distribution R 0 1 gen in
  let edgeEnhance := b =? 1 in
  let '(b, gen) := uniform_int_distribution R 0 1 gen in
  let dither := b =? 1 in
  let '(b, gen) := uniform_int_distribution R 0 1 gen in
  let outline := b =? 1 in
  let '(outlineThickness, gen) :=
    if outline then uniform_int_distribution R 1 3 gen else (1, gen) in
  (match PalettePreset_of_int preset with
   | Some preset =>
       Some (mkParams blockSize paletteSize preBlur edgeEnhance dither outline
               outlineThickness preset)
   | None => None
   end, gen).

(** A sampler that meets the promise: the state reduced into the range. *)
Definition ref_random : StdRandom :=
  mkStdRandom Z (fun a b gen => (a + gen mod (b - a + 1), RNG_next gen)).

(** ** Example inputs *)

(** One white and one black pixel. *)
Definition white_black : Mat := mkMat CV_8UC3 [[mkVec3b 255 255 255; mkVec3b 0 0 0]].

(** Block size 1, CGA preset, outline of thickness 2, nothing else. *)
Definition CGA_outline : Params := mkParams 1 16 false false false true 2 CGA.

(** Block size 1, CGA preset, no option. *)
Definition CGA_direct : Params := mkParams 1 16 false false false false 1 CGA.

(** A 2 x 2 image whose channels sum to 3. *)
Definition three_of_four : Mat :=
  mkMat CV_8UC3 [[mkVec3b 0 0 0; mkVec3b 1 1 1]; [mkVec3b 1 1 1; mkVec3b 1 1 1]].

(** A flat grey 2 x 3 grid. *)
Definition grey_grid : Mat :=
  mkMat CV_8UC3 [[mkVec3b 100 100 100; mkVec3b 100 100 100; mkVec3b 100 100 100];
                 [mkVec3b 100 100 100; mkVec3b 100 100 100; mkVec3b 100 100 100]].

(** An 8 x 8 image of one colour: one block of the default size. *)
Definition small_image : Mat := Mat_create 8 8 CV_8UC3 (mkVec3b 10 20 30).

(** A 3 x 4 image of twelve colours. *)
Definition gradient_image : Mat :=
  Mat_tabulate 3 4 CV_8UC3 (fun y x => mkVec3b (10 * y) (10 * x) 7).


(** A 1 x 1 matrix of type [CV_8UC4]. *)
Definition four_channel_image : Mat := mkMat 24 [[mkVec3b 1 2 3]].

(** ** Matrices: size and access *)

Lemma tabulate_row_length {A} (f : Z -> A) (w : Z) :
  length (f <$> seqZ 0 w) = Z.to_nat w.
Proof. by rewrite length_fmap, length_seqZ. Qed.

Lemma lookup_total_fmap_seqZ {B} `{Inhabited B} (f : Z -> B) (m n : Z) (i : nat) :
  Z.of_nat i < n -> (f <$> seqZ m n) !!! i = f (m + Z.of_nat i).
Proof.
  intros Hi.
  rewrite (list_lookup_total_fmap f (Inhabited0 := Z.inhabited))
    by (rewrite length_seqZ; lia).
  by rewrite lookup_total_seqZ_lt.
Qed.

Lemma Mat_tabulate_rows h w t f : 0 <= h -> rows (Mat_tabulate h w t f) = h.
Proof. intros Hh. unfold rows, Mat_tabulate. simpl. rewrite tabulate_row_length. lia. Qed.

Lemma Mat_tabulate_cols h w t f : 0 < h -> 0 <= w -> cols (Mat_tabulate h w t f) = w.
Proof.
  intros Hh Hw. unfold cols, Mat_tabulate. simpl.
  rewrite (seqZ_cons 0 h) by lia. simpl. rewrite tabulate_row_length. lia.
Qed.

Lemma Mat_tabulate_at h w t f y x :
  0 <= y < h -> 0 <= x < w -> Mat_at (Mat_tabulate h w t f) y x = f y x.
Proof.
  intros Hy Hx. unfold Mat_at, Mat_tabulate. simpl.
  rewrite !lookup_total_fmap_seqZ by lia. f_equal; lia.
Qed.

Lemma Mat_tabulate_type h w t f : mtype (Mat_tabulate h w t f) = t.
Proof. reflexivity. Qed.

Lemma Mat_tabulate_ext h w t f g :
  (forall y x, 0 <= y < h -> 0 <= x < w -> f y x = g y x) ->
  Mat_tabulate h w t f = Mat_tabulate h w t g.
Proof.
  intros Hfg. unfold Mat_tabulate. f_equal.
  apply list_fmap_ext. intros i y Hy. apply lookup_seqZ in Hy as [-> Hi].
  apply list_fmap_ext. intros j x Hx. apply lookup_seqZ in Hx as [-> Hj].
  apply Hfg; lia.
Qed.

Lemma rectangular_row m y :
  rectangular m -> 0 <= y < rows m -> Z.of_nat (length (mdata m !!! Z.to_nat y)) = cols m.
Proof.
  intros Hr Hy. apply Hr. apply list_elem_of_lookup_total_2. unfold rows in Hy. lia.
Qed.

Lemma Mat_ok_spec m :
  Mat_ok m = true <->
  mtype m = CV_8UC3 /\ rectangular m
  /\ forall row c, row ∈ mdata m -> c ∈ row -> Vec3b_ok c = true.
Proof.
  unfold Mat_ok, rectangular. rewrite andb_true_iff, Z.eqb_eq, forallb_forall.
  split.
  - intros [Ht H]. split; [done|]. split.
    + intros row Hrow. apply list_elem_of_In, H in Hrow.
      apply andb_true_iff in Hrow as [Hl _]. by apply Z.eqb_eq in Hl.
    + intros row c Hrow Hc. apply list_elem_of_In, H in Hrow.
      apply andb_true_iff in Hrow as [_ Hc']. rewrite forallb_forall in Hc'.
      by apply Hc', list_elem_of_In.
  - intros (Ht & Hr & Hc). split; [done|]. intros row Hrow%list_elem_of_In.
    apply andb_true_iff. split; [by apply Z.eqb_eq, Hr|].
    apply forallb_forall. intros c Hc'%list_elem_of_In. by eapply Hc.
Qed.

Lemma Mat_ok_type m : Mat_ok m = true -> mtype m = CV_8UC3.
Proof. intros H. by apply Mat_ok_spec in H as [? _]. Qed.

Lemma Mat_ok_rectangular m : Mat_ok m = true -> rectangular m.
Proof. intros H. by apply Mat_ok_spec in H as (_ & ? & _). Qed.

Lemma Mat_ok_at m y x :
  Mat_ok m = true -> 0 <= y < rows m -> 0 <= x < cols m ->
  Vec3b_ok (Mat_at m y x) = true.
Proof.
  intros (_ & Hr & Hc)%Mat_ok_spec Hy Hx.
  pose proof (rectangular_row m y Hr Hy) as Hlen.
  unfold Mat_at. eapply Hc; apply list_elem_of_lookup_total_2.
  - unfold rows in Hy. lia.
  - lia.
Qed.

Lemma Mat_tabulate_rectangular h w t f : 0 <= w -> rectangular (Mat_tabulate h w t f).
Proof.
  intros Hw row Hrow. simpl in Hrow.
  destruct (decide (0 < h)) as [Hh|Hh].
  - rewrite (Mat_tabulate_cols h w t f) by lia.
    apply list_elem_of_fmap in Hrow as (y & -> & _). rewrite tabulate_row_length. lia.
  - rewrite (seqZ_nil 0 h) in Hrow by lia. by apply elem_of_nil in Hrow.
Qed.

Lemma Mat_tabulate_ok h w f :
  0 <= w ->
  (forall y x, 0 <= y < h -> 0 <= x < w -> Vec3b_ok (f y x) = true) ->
  Mat_ok (Mat_tabulate h w CV_8UC3 f) = true.
Proof.
  intros Hw Hf. apply Mat_ok_spec. split; [done|]. split.
  - by apply Mat_tabulate_rectangular.
  - intros row c Hrow Hc. simpl in Hrow.
    apply list_elem_of_fmap in Hrow as (y & -> & Hy%elem_of_seqZ).
    apply list_elem_of_fmap in Hc as (x & -> & Hx%elem_of_seqZ).
    apply Hf; lia.
Qed.

Lemma valid_input_spec img :
  valid_input img = true ->
  Mat_ok img = true /\ 0 < rows img /\ 0 < cols img /\ rows img * cols img <= INT_MAX - 256.
Proof.
  unfold valid_input. rewrite !andb_true_iff, !Z.ltb_lt, Z.leb_le. tauto.
Qed.

Lemma valid_input_nonempty img :
  valid_input img = true -> Mat_empty img = false /\ (mtype img =? CV_8UC3) = true.
Proof.
  intros (Hok & Hr & Hc & _)%valid_input_spec. split.
  - unfold Mat_empty. apply Z.eqb_neq. nia.
  - apply Z.eqb_eq. by apply Mat_ok_type.
Qed.

(** ** The reference instance meets the contract *)

Lemma ref_nearest_center_lt centers s :
  centers <> [] -> (ref_nearest_center centers s < length centers)%nat.
Proof.
  intros Hne. unfold ref_nearest_center.
  assert (Hgen : forall l (st : Q * nat),
             (st.2 < length centers)%nat ->
             Forall (fun i => (i < length centers)%nat) l ->
             ((fold_left
                 (fun (st : Q * nat) (i : nat) =>
                    let d := point_dist s (centers !!! i) in
                    if Qle_bool st.1 d then st else (d, i)) l st).2
              < length centers)%nat).
  { induction l as [|i l IH]; intros st Hst Hl; simpl; [done|].
    apply Forall_cons_1 in Hl as [Hi Hl]. apply IH; [|done].
    by destruct (Qle_bool _ _). }
  apply Hgen.
  - simpl. destruct centers; [done|simpl; lia].
  - apply Forall_forall. intros i Hi%list_elem_of_In%elem_of_seq. lia.
Qed.

Lemma kmeans_data_dims samples :
  Forall (fun row => length row = kmeans_dims samples) (kmeans_data samples).
Proof.
  destruct samples as [|s [|s' samples]]; simpl.
  - constructor.
  - repeat constructor.
  - repeat constructor. apply Forall_fmap, Forall_forall. by intros.
Qed.

Lemma kmeans_data_length samples :
  length (kmeans_data samples)
  = if decide (length samples = 1%nat) then 3%nat else length samples.
Proof.
  destruct samples as [|s [|s' samples]]; simpl; [done..|].
  by rewrite length_fmap.
Qed.

Lemma refCv_spec : OpenCV_spec refCv.
Proof.
  split; simpl.
  - done.
  - done.
  - intros g samples K criteria attempts flags HK _. unfold ref_kmeans.
    rewrite (proj2 (Z.leb_gt _ _)) by lia. rewrite (proj2 (Z.ltb_ge _ _)) by lia. simpl.
    eexists _, _, _. split; [reflexivity|].
    split; [by rewrite length_fmap|]. split; [rewrite length_take; lia|].
    split; [apply Forall_take, kmeans_data_dims|].
    apply Forall_fmap, Forall_forall. intros s _. simpl.
    assert (Hne : take (Z.to_nat K) (kmeans_data samples) <> []).
    { intros E. apply (f_equal length) in E. rewrite length_take in E. simpl in E. lia. }
    pose proof (ref_nearest_center_lt _ s Hne) as Hlt.
    rewrite length_take in Hlt. lia.
Qed.

Lemma refCv_mean_one_pixel : mean_one_pixel refCv.
Proof.
  intros m Hok Hr Hc. simpl. unfold ref_mean. rewrite Hr, Hc. simpl.
  destruct m as [t d]. unfold rows, cols in Hr, Hc. simpl in Hr, Hc.
  destruct d as [|row d]; [simpl in Hr; lia|].
  destruct d as [|row' d]; [|simpl in Hr; lia].
  destruct row as [|c row]; [simpl in Hc; lia|].
  destruct row as [|c' row]; [|simpl in Hc; lia].
  unfold SumChannel, Mat_at. simpl. rewrite !Z.add_0_r.
  repeat split; reflexivity.
Qed.

(** ** Nearest palette colour *)

Lemma ColorDistanceSquared_nonneg a b : 0 <= ColorDistanceSquared a b.
Proof.
  unfold ColorDistanceSquared. cbv zeta.
  pose proof (Z.square_nonneg (ch2 a - ch2 b)).
  pose proof (Z.square_nonneg (ch1 a - ch1 b)).
  pose proof (Z.square_nonneg (ch0 a - ch0 b)). lia.
Qed.

Lemma ColorDistanceSquared_zero a b : ColorDistanceSquared a b = 0 <-> a = b.
Proof.
  destruct a as [a0 a1 a2], b as [b0 b1 b2]. unfold ColorDistanceSquared. simpl. split.
  - intros H.
    pose proof (Z.square_nonneg (a2 - b2)) as H2.
    pose proof (Z.square_nonneg (a1 - b1)) as H1.
    pose proof (Z.square_nonneg (a0 - b0)) as H0.
    assert (E2 : (a2 - b2) * (a2 - b2) = 0) by lia.
    assert (E1 : (a1 - b1) * (a1 - b1) = 0) by lia.
    assert (E0 : (a0 - b0) * (a0 - b0) = 0) by lia.
    apply Z.mul_eq_0 in E2, E1, E0. f_equal; lia.
  - intros [= -> -> ->]. lia.
Qed.

Lemma scan_prefix_S color palette n :
  scan_prefix color palette (S n) =
  let st := scan_prefix color palette n in
  let dist := ColorDistanceSquared color (palette !!! n) in
  if dist <? st.1 then (dist, n) else st.
Proof. unfold scan_prefix. by rewrite seq_S, fold_left_app. Qed.

Lemma scan_prefix_inv color palette n :
  let st := scan_prefix color palette n in
  (st = (FLT_MAX, 0%nat)
   /\ forall j, (j < n)%nat -> FLT_MAX <= ColorDistanceSquared color (palette !!! j))
  \/ ((st.2 < n)%nat
      /\ st.1 = ColorDistanceSquared color (palette !!! st.2)
      /\ (forall j, (j < n)%nat -> st.1 <= ColorDistanceSquared color (palette !!! j))
      /\ (forall j, (j < st.2)%nat -> st.1 < ColorDistanceSquared color (palette !!! j))).
Proof.
  induction n as [|n IH].
  - left. split; [done|]. intros j Hj. lia.
  - rewrite scan_prefix_S. cbv zeta in *.
    set (st := scan_prefix color palette n) in *.
    set (d := ColorDistanceSquared color (palette !!! n)).
    destruct (Z.ltb_spec d st.1) as [Hlt|Hge].
    + right. simpl. split; [lia|]. split; [done|].
      destruct IH as [[Hst Hall]|(Hi & Hd & Hall & Hfirst)].
      * rewrite Hst in Hlt. simpl in Hlt. split.
        -- intros j Hj. destruct (decide (j = n)) as [->|]; [done|].
           specialize (Hall j ltac:(lia)). lia.
        -- intros j Hj. specialize (Hall j ltac:(lia)). lia.
      * split.
        -- intros j Hj. destruct (decide (j = n)) as [->|]; [done|].
           specialize (Hall j ltac:(lia)). lia.
        -- intros j Hj. specialize (Hall j ltac:(lia)). lia.
    + destruct IH as [[Hst Hall]|(Hi & Hd & Hall & Hfirst)].
      * left. split; [done|]. intros j Hj. rewrite Hst in Hge. simpl in Hge.
        destruct (decide (j = n)) as [->|]; [done|]. apply Hall. lia.
      * right. split; [lia|]. split; [done|]. split; [|done].
        intros j Hj. destruct (decide (j = n)) as [->|]; [done|]. apply Hall. lia.
Qed.

Lemma NearestScan_prefix color palette :
  NearestScan color palette = scan_prefix color palette (length palette).
Proof. reflexivity. Qed.

Lemma NearestScan_lt color palette :
  palette <> [] -> ((NearestScan color palette).2 < length palette)%nat.
Proof.
  intros Hne. rewrite NearestScan_prefix.
  destruct (scan_prefix_inv color palette (length palette)) as [[-> _]|(H & _)]; [|done].
  simpl. destruct palette; [done|simpl; lia].
Qed.

Lemma NearestScan_elem color palette :
  palette <> [] -> palette !!! (NearestScan color palette).2 ∈ palette.
Proof. intros Hne. by apply list_elem_of_lookup_total_2, NearestScan_lt. Qed.

(** A colour of the palette is its own nearest colour. *)
Lemma NearestScan_fixed color palette :
  color ∈ palette -> palette !!! (NearestScan color palette).2 = color.
Proof.
  intros Hin. apply list_elem_of_lookup_total_1 in Hin as (k & Hk & Hc).
  assert (H0 : ColorDistanceSquared color (palette !!! k) = 0)
    by by apply ColorDistanceSquared_zero.
  rewrite NearestScan_prefix.
  destruct (scan_prefix_inv color palette (length palette))
    as [[_ Hall]|(_ & Hd & Hall & _)].
  - specialize (Hall k Hk). rewrite H0 in Hall. by vm_compute in Hall.
  - specialize (Hall k Hk). symmetry. apply ColorDistanceSquared_zero.
    pose proof (ColorDistanceSquared_nonneg color
                  (palette !!! (scan_prefix color palette (length palette)).2)).
    lia.
Qed.

Lemma FindNearestPaletteColor_elem color palette :
  palette <> [] -> FindNearestPaletteColor color palette ∈ palette.
Proof.
  intros Hne. unfold FindNearestPaletteColor.
  destruct palette as [|c palette]; [done|]. by apply NearestScan_elem.
Qed.

Lemma Mat_nonempty_dims m : Mat_empty m = false -> 0 < rows m /\ 0 < cols m.
Proof.
  unfold Mat_empty. intros H%Z.eqb_neq.
  assert (0 <= rows m) by (unfold rows; lia).
  assert (0 <= cols m) by (unfold cols; destruct (mdata m); lia).
  nia.
Qed.

Lemma Mat_empty_null : Mat_empty Mat_null = true.
Proof. reflexivity. Qed.

Lemma QuantizeWithFixedPalette_unfold smallBgr preset :
  Mat_empty smallBgr = false -> mtype smallBgr = CV_8UC3 -> preset <> Custom ->
  QuantizeWithFixedPalette smallBgr preset =
  Mat_tabulate (rows smallBgr) (cols smallBgr) CV_8UC3
    (fun y x => let palette := GetPaletteColors preset in
                palette !!! (NearestScan (Mat_at smallBgr y x) palette).2).
Proof.
  intros He Ht Hp. unfold QuantizeWithFixedPalette. rewrite He, Ht. simpl.
  by destruct preset.
Qed.

Lemma QuantizeWithFixedPalette_null smallBgr preset :
  Mat_empty smallBgr = true \/ mtype smallBgr <> CV_8UC3 \/ preset = Custom ->
  QuantizeWithFixedPalette smallBgr preset = Mat_null.
Proof.
  unfold QuantizeWithFixedPalette. intros [->|[Ht| ->]].
  - reflexivity.
  - apply Z.eqb_neq in Ht. rewrite Ht, orb_true_r. reflexivity.
  - simpl. by destruct (_ || _).
Qed.

(** C10.  Quantizing to a fixed palette twice is quantizing once: a colour of
    the palette is at distance zero from itself, and the scan keeps the first
    entry at the least distance. *)
Theorem C10_QuantizeWithFixedPalette_idempotent smallBgr preset :
  QuantizeWithFixedPalette (QuantizeWithFixedPalette smallBgr preset) preset
  = QuantizeWithFixedPalette smallBgr preset.
Proof.
  destruct (Mat_empty smallBgr) eqn:He.
  { rewrite (QuantizeWithFixedPalette_null smallBgr) by auto.
    apply QuantizeWithFixedPalette_null. by left. }
  destruct (decide (mtype smallBgr = CV_8UC3)) as [Ht|Ht].
  2:{ rewrite (QuantizeWithFixedPalette_null smallBgr) by auto.
      apply QuantizeWithFixedPalette_null. by left. }
  destruct (decide (preset = Custom)) as [->|Hp].
  { rewrite (QuantizeWithFixedPalette_null smallBgr) by auto.
    apply QuantizeWithFixedPalette_null. by left. }
  pose proof (Mat_nonempty_dims _ He) as [Hr Hc].
  rewrite (QuantizeWithFixedPalette_unfold smallBgr) by done.
  set (q := Mat_tabulate _ _ _ _).
  assert (Hqr : rows q = rows smallBgr) by (apply Mat_tabulate_rows; lia).
  assert (Hqc : cols q = cols smallBgr) by (apply Mat_tabulate_cols; lia).
  rewrite QuantizeWithFixedPalette_unfold;
    [|unfold Mat_empty; rewrite Hqr, Hqc; apply Z.eqb_neq; nia|done|done].
  rewrite Hqr, Hqc. apply Mat_tabulate_ext. intros y x Hy Hx. cbv zeta.
  unfold q. rewrite Mat_tabulate_at by done.
  apply NearestScan_fixed, NearestScan_elem. by destruct preset.
Qed.

(** ** Fixed palettes *)

Lemma palette_ok preset c : c ∈ GetPaletteColors preset -> Vec3b_ok c = true.
Proof.
  intros Hc. apply list_elem_of_In in Hc. revert c Hc. apply forallb_forall.
  by destruct preset; vm_compute.
Qed.

(** C6, at the preset where it fails.  The claim is that every fixed preset
    has pairwise-distinct colours, 54 of them for NES.  The NES table has 56
    entries, (0, 0, 0) is both entry 13 and entry 14, and 55 entries are
    distinct.  [other_palettes_distinct] proves the claim for the six other
    presets. *)
Theorem C6_NES_table_has_56_entries :
  length (GetPaletteColors NES) = 56%nat
  /\ GetPaletteColors NES !! 13%nat = Some (mkVec3b 0 0 0)
  /\ GetPaletteColors NES !! 14%nat = Some (mkVec3b 0 0 0)
  /\ ~ NoDup (GetPaletteColors NES)
  /\ length (remove_dups (GetPaletteColors NES)) = 55%nat.
Proof.
  split; [reflexivity|]. split; [reflexivity|]. split; [reflexivity|].
  split; [|by vm_compute].
  intros Hnd. pose proof (proj1 (NoDup_alt _) Hnd) as Halt.
  by specialize (Halt 13%nat 14%nat (mkVec3b 0 0 0) eq_refl eq_refl).
Qed.

Lemma other_palettes_distinct preset :
  preset <> Custom -> preset <> NES ->
  NoDup (GetPaletteColors preset)
  /\ length (GetPaletteColors preset)
     = match preset with
       | Pico8 | EGA | Commodore64 => 16%nat
       | _ => 4%nat
       end.
Proof.
  intros H1 H2. destruct preset; try done; (split; [compute_done|reflexivity]).
Qed.

(** ** Cell updates *)

Lemma Mat_set_rows m y x v : rows (Mat_set m y x v) = rows m.
Proof. unfold rows, Mat_set. simpl. by rewrite length_alter. Qed.

Lemma Mat_set_cols m y x v : cols (Mat_set m y x v) = cols m.
Proof.
  unfold cols, Mat_set. simpl. destruct (mdata m) as [|r l]; [done|].
  destruct (Z.to_nat y); simpl; [|done]. by rewrite length_insert.
Qed.

Lemma Mat_set_type m y x v : mtype (Mat_set m y x v) = mtype m.
Proof. reflexivity. Qed.

Lemma Mat_set_rectangular m y x v : rectangular m -> rectangular (Mat_set m y x v).
Proof.
  intros Hr row Hrow. rewrite Mat_set_cols. simpl in Hrow.
  apply list_elem_of_lookup in Hrow as [j Hj].
  rewrite list_lookup_alter in Hj. destruct (decide (Z.to_nat y = j)) as [<-|Hne].
  - destruct (mdata m !! Z.to_nat y) as [r|] eqn:E; [|done].
    simpl in Hj. injection Hj as <-. rewrite length_insert.
    apply Hr. by eapply list_elem_of_lookup_2.
  - apply Hr. by eapply list_elem_of_lookup_2.
Qed.

Lemma Mat_at_set_same m y x v :
  rectangular m -> 0 <= y < rows m -> 0 <= x < cols m ->
  Mat_at (Mat_set m y x v) y x = v.
Proof.
  intros Hr Hy Hx. pose proof (rectangular_row m y Hr Hy) as Hlen.
  unfold Mat_at, Mat_set. simpl. unfold rows in Hy.
  rewrite list_lookup_total_alter. rewrite decide_True by lia.
  rewrite list_lookup_total_insert. by rewrite decide_True by lia.
Qed.

Lemma Mat_at_set_other m y x v y' x' :
  0 <= y -> 0 <= x -> 0 <= y' -> 0 <= x' -> y' <> y \/ x' <> x ->
  Mat_at (Mat_set m y x v) y' x' = Mat_at m y' x'.
Proof.
  intros Hy Hx Hy' Hx' Hne. unfold Mat_at, Mat_set. simpl.
  rewrite list_lookup_total_alter.
  destruct (decide (Z.to_nat y = Z.to_nat y' ∧ (Z.to_nat y < length (mdata m))%nat))
    as [[E _]|_]; [|done].
  rewrite E. rewrite list_lookup_total_insert.
  rewrite decide_False by lia. done.
Qed.

(** ** Truncation *)

Lemma Qtrunc_Qmake n d : Qtrunc (n # d) = n ÷ Z.pos d.
Proof.
  unfold Qtrunc, Qle_bool, Qceiling, Qfloor, Qopp. simpl.
  rewrite ?Z.mul_1_r. change (0 * Z.pos d) with 0.
  destruct (Z.leb_spec 0 n) as [Hn|Hn].
  - symmetry. apply Z.quot_div_nonneg; lia.
  - rewrite <- (Z.quot_div_nonneg (- n)) by lia.
    rewrite Z.quot_opp_l by lia. lia.
Qed.

Lemma Qtrunc_comp x y : x == y -> Qtrunc x = Qtrunc y.
Proof.
  intros E. unfold Qtrunc. rewrite (Qleb_comp 0%Q 0%Q (Qeq_refl 0%Q) x y E).
  by rewrite (Qfloor_comp x y E), (Qceiling_comp x y E).
Qed.

Lemma ClampInt_range v lo hi : lo <= hi -> lo <= ClampInt v lo hi <= hi.
Proof. unfold ClampInt. lia. Qed.

Lemma ClampInt_id v lo hi : lo <= v <= hi -> ClampInt v lo hi = v.
Proof. unfold ClampInt. lia. Qed.

Lemma uchar_of_int_id v : 0 <= v <= 255 -> uchar_of_int v = v.
Proof. intros H. unfold uchar_of_int. apply Z.mod_small. lia. Qed.

Lemma uchar_of_int_range v : 0 <= uchar_of_int v <= 255.
Proof. unfold uchar_of_int. pose proof (Z.mod_pos_bound v 256). lia. Qed.

Lemma uchar_ClampInt v : uchar_of_int (ClampInt v 0 255) = ClampInt v 0 255.
Proof. apply uchar_of_int_id, ClampInt_range. lia. Qed.

(** The integer formula of the source is the rational one of the
    specification: [v + e * k / 16], truncated, clamped. *)
Lemma diffuse_diffused v e k : diffuse v e k = diffused v e k.
Proof.
  unfold diffuse, diffused. rewrite uchar_ClampInt. f_equal.
  rewrite (Qtrunc_comp _ ((16 * v + e * k) # 16)).
  - by rewrite Qtrunc_Qmake.
  - unfold Qeq, Qplus, Qmult, inject_Z. simpl. lia.
Qed.

Lemma diffuse3_diffused3 p e0 e1 e2 k : diffuse3 p e0 e1 e2 k = diffused3 p e0 e1 e2 k.
Proof. unfold diffuse3, diffused3. by rewrite !diffuse_diffused. Qed.

Lemma Vec3b_ok_spec c :
  Vec3b_ok c = true <-> 0 <= ch0 c <= 255 /\ 0 <= ch1 c <= 255 /\ 0 <= ch2 c <= 255.
Proof. unfold Vec3b_ok. rewrite !andb_true_iff, !Z.leb_le. lia. Qed.

Lemma ColorDistanceSquared_bound a b :
  Vec3b_ok a = true -> Vec3b_ok b = true -> ColorDistanceSquared a b < FLT_MAX.
Proof.
  intros Ha%Vec3b_ok_spec Hb%Vec3b_ok_spec. unfold ColorDistanceSquared. cbv zeta.
  set (d2 := ch2 a - ch2 b). set (d1 := ch1 a - ch1 b). set (d0 := ch0 a - ch0 b).
  assert (d2 * d2 <= 65025) by (assert (-255 <= d2 <= 255) by lia; nia).
  assert (d1 * d1 <= 65025) by (assert (-255 <= d1 <= 255) by lia; nia).
  assert (d0 * d0 <= 65025) by (assert (-255 <= d0 <= 255) by lia; nia).
  assert (1000000 < FLT_MAX) by (by vm_compute). lia.
Qed.

Lemma NearestScan_nearest color palette :
  palette <> [] -> Vec3b_ok color = true ->
  (forall c, c ∈ palette -> Vec3b_ok c = true) ->
  is_nearest palette color (palette !!! (NearestScan color palette).2).
Proof.
  intros Hne Hc Hp. split; [by apply NearestScan_elem|].
  intros c' Hc'. apply list_elem_of_lookup_total_1 in Hc' as (k & Hk & <-).
  rewrite NearestScan_prefix.
  destruct (scan_prefix_inv color palette (length palette))
    as [[_ Hall]|(_ & Hd & Hall & _)].
  - specialize (Hall k Hk).
    pose proof (ColorDistanceSquared_bound color (palette !!! k) Hc
                  (Hp _ (list_elem_of_lookup_total_2 _ _ Hk))). lia.
  - rewrite <- Hd. by apply Hall.
Qed.

Lemma ClampPixel_ok p : Vec3b_ok (ClampPixel p) = true.
Proof.
  apply Vec3b_ok_spec. unfold ClampPixel. simpl.
  pose proof (ClampInt_range (ch0 p) 0 255). pose proof (ClampInt_range (ch1 p) 0 255).
  pose proof (ClampInt_range (ch2 p) 0 255). lia.
Qed.

(** ** One step of the error diffusion *)

Lemma DitherCell_rows palette work y x : rows (DitherCell palette work y x) = rows work.
Proof.
  unfold DitherCell. cbv zeta. repeat case_match; by rewrite ?Mat_set_rows.
Qed.

Lemma DitherCell_cols palette work y x : cols (DitherCell palette work y x) = cols work.
Proof.
  unfold DitherCell. cbv zeta. repeat case_match; by rewrite ?Mat_set_cols.
Qed.

Lemma DitherCell_type palette work y x : mtype (DitherCell palette work y x) = mtype work.
Proof.
  unfold DitherCell. cbv zeta. repeat case_match; by rewrite ?Mat_set_type.
Qed.

Lemma DitherCell_rectangular palette work y x :
  rectangular work -> rectangular (DitherCell palette work y x).
Proof.
  intros Hr. unfold DitherCell. cbv zeta.
  repeat case_match; by repeat apply Mat_set_rectangular.
Qed.

Ltac mat_at_set :=
  repeat match goal with
    | |- context [Mat_at (Mat_set ?M ?a ?b ?v) ?y' ?x'] =>
        first
          [ rewrite (Mat_at_set_other M a b v y' x') by lia
          | rewrite (Mat_at_set_same M a b v)
              by (try (repeat apply Mat_set_rectangular; assumption);
                  rewrite ?Mat_set_rows, ?Mat_set_cols; lia) ]
    end.

Lemma DitherCell_at_self palette work y x :
  rectangular work -> 0 <= y < rows work -> 0 <= x < cols work ->
  Mat_at (DitherCell palette work y x) y x
  = FindNearestPaletteColor (ClampPixel (Mat_at work y x)) palette.
Proof.
  intros Hr Hy Hx. unfold DitherCell. cbv zeta. rewrite !uchar_ClampInt.
  fold (ClampPixel (Mat_at work y x)).
  repeat case_match; mat_at_set; reflexivity.
Qed.

(** Cells before [(y, x)] in row-major order are not written. *)
Lemma DitherCell_at_earlier palette work y x y' x' :
  0 <= y -> 0 <= x -> 0 <= y' -> 0 <= x' ->
  y' < y \/ (y' = y /\ x' < x) ->
  Mat_at (DitherCell palette work y x) y' x' = Mat_at work y' x'.
Proof.
  intros Hy Hx Hy' Hx' Hlt. unfold DitherCell. cbv zeta.
  repeat case_match; mat_at_set; reflexivity.
Qed.

Lemma DitherCell_spec palette work y x :
  palette <> [] -> (forall c, c ∈ palette -> Vec3b_ok c = true) ->
  rectangular work -> 0 <= y < rows work -> 0 <= x < cols work ->
  DitherStep_spec palette work (DitherCell palette work y x) y x.
Proof.
  intros Hne Hpal Hr Hy Hx. unfold DitherStep_spec. cbv zeta.
  rewrite DitherCell_at_self by done.
  split; [|split; [apply DitherCell_rows|split; [apply DitherCell_cols|]]].
  - unfold FindNearestPaletteColor. destruct palette as [|c0 pal] eqn:E; [done|].
    rewrite <- E in *. apply NearestScan_nearest; [done|apply ClampPixel_ok|done].
  - intros y' x' Hy' Hx' Hneq.
    unfold DitherCell. cbv zeta. rewrite !uchar_ClampInt.
    fold (ClampPixel (Mat_at work y x)).
    unfold fs_weight. rewrite ?Mat_set_rows, ?Mat_set_cols.
    repeat match goal with
      | |- context [?a =? ?b] => destruct (Z.eqb_spec a b); simpl
      end;
    rewrite <- ?diffuse3_diffused3;
    repeat match goal with
      | |- context [?a <? ?b] => destruct (Z.ltb_spec a b); simpl
      | |- context [?a <=? ?b] => destruct (Z.leb_spec a b); simpl
      end;
    rewrite ?Mat_set_rows, ?Mat_set_cols in *; try lia; subst; mat_at_set; reflexivity.
Qed.

(** ** The visiting order *)

Lemma fold_left_fmap {A B C} (f : A -> C -> A) (g : B -> C) (l : list B) (a : A) :
  fold_left f (g <$> l) a = fold_left (fun a b => f a (g b)) l a.
Proof. revert a. induction l as [|b l IH]; intros a; simpl; [done|apply IH]. Qed.

Lemma row_major_elem h w y x :
  0 <= h -> 0 <= w -> (y, x) ∈ row_major h w <-> 0 <= y < h /\ 0 <= x < w.
Proof.
  intros Hh Hw. unfold row_major. rewrite list_elem_of_fmap. split.
  - intros (i & [= -> ->] & Hi%elem_of_seqZ).
    assert (0 < w) by nia.
    pose proof (Z.mod_pos_bound i w ltac:(lia)).
    pose proof (Z.div_pos i w ltac:(lia) ltac:(lia)).
    assert (i / w < h) by (apply Z.div_lt_upper_bound; nia). lia.
  - intros [Hy Hx]. exists (y * w + x). split.
    + f_equal.
      * rewrite Z.div_add_l by lia. rewrite Z.div_small by lia. lia.
      * rewrite Z.add_comm, Z.mod_add by lia. by rewrite Z.mod_small by lia.
    + apply elem_of_seqZ. nia.
Qed.

Lemma row_major_NoDup h w : NoDup (row_major h w).
Proof.
  unfold row_major. apply NoDup_fmap_2_strong; [|apply NoDup_seqZ].
  intros i j Hi%elem_of_seqZ Hj%elem_of_seqZ [= Hd Hm].
  destruct (decide (w = 0)) as [->|Hw]; [lia|].
  rewrite (Z.div_mod i w), (Z.div_mod j w) by done. congruence.
Qed.

Lemma row_major_S (h : nat) w :
  0 <= w ->
  row_major (Z.of_nat (S h)) w
  = row_major (Z.of_nat h) w ++ ((fun x => (Z.of_nat h, x)) <$> seqZ 0 w).
Proof.
  intros Hw. unfold row_major.
  replace (Z.of_nat (S h) * w) with (Z.of_nat h * w + w) by lia.
  rewrite seqZ_app by nia. rewrite fmap_app. f_equal.
  rewrite Z.add_0_l.
  replace (Z.of_nat h * w) with (Z.of_nat h * w + 0) at 1 by lia.
  rewrite <- (fmap_add_seqZ (Z.of_nat h * w) 0 w), <- list_fmap_compose.
  apply list_fmap_ext. intros k x Hx. apply lookup_seqZ in Hx as [-> Hk]. simpl.
  f_equal.
  - rewrite Z.div_add_l by lia. rewrite Z.div_small by lia. lia.
  - rewrite Z.add_comm, Z.mod_add by lia. by rewrite Z.mod_small by lia.
Qed.

Lemma DitherRow_cols palette y xs work :
  cols (fold_left (fun work x => DitherCell palette work y x) xs work) = cols work.
Proof.
  revert work. induction xs as [|x xs IH]; intros work; simpl; [done|].
  by rewrite IH, DitherCell_cols.
Qed.

(** The loop nest visits the cells in row-major order. *)
Lemma FloydSteinberg_row_major palette work :
  FloydSteinberg palette work
  = fold_left (DitherVisit palette) (row_major (rows work) (cols work)) work.
Proof.
  unfold FloydSteinberg, rows.
  assert (Hw : 0 <= cols work) by (unfold cols; destruct (mdata work); lia).
  generalize (length (mdata work)) as h. intros h.
  assert (E : forall n, seqZ 0 (Z.of_nat n) = Z.of_nat <$> seq 0 n).
  { intros n. unfold seqZ. rewrite Nat2Z.id. apply list_fmap_ext. intros; simpl; lia. }
  rewrite E. induction h as [|h IH].
  - reflexivity.
  - rewrite seq_S, fmap_app, fold_left_app, IH. simpl.
    rewrite row_major_S by done. rewrite fold_left_app. simpl.
    set (w0 := fold_left _ (row_major _ _) work).
    assert (cols w0 = cols work) as ->.
    { unfold w0. generalize (row_major (Z.of_nat h) (cols work)). clear.
      intros l. revert work. induction l as [|p l IHl]; intros work; simpl; [done|].
      rewrite IHl. apply DitherCell_cols. }
    by rewrite fold_left_fmap.
Qed.

Lemma rows_nonneg m : 0 <= rows m.
Proof. unfold rows. lia. Qed.

Lemma cols_nonneg m : 0 <= cols m.
Proof. unfold cols. destruct (mdata m); lia. Qed.

Lemma seqZ_snoc (n : nat) : seqZ 0 (Z.of_nat (S n)) = seqZ 0 (Z.of_nat n) ++ [Z.of_nat n].
Proof.
  replace (Z.of_nat (S n)) with (Z.of_nat n + 1) by lia.
  rewrite seqZ_app by lia. f_equal.
Qed.

(** After the first [n] visits the first [n] cells hold palette colours. *)
Lemma dither_prefix_inv palette work (n : nat) :
  palette <> [] -> rectangular work ->
  Z.of_nat n <= rows work * cols work ->
  let W := cols work in
  let st := fold_left (DitherVisit palette)
              ((fun i => (i / W, i mod W)) <$> seqZ 0 (Z.of_nat n)) work in
  rows st = rows work /\ cols st = cols work /\ rectangular st
  /\ forall j, 0 <= j < Z.of_nat n -> Mat_at st (j / W) (j mod W) ∈ palette.
Proof.
  intros Hne Hr. cbv zeta. induction n as [|n IH]; intros Hn.
  - simpl. repeat split; [done|]. intros j Hj. lia.
  - rewrite seqZ_snoc, fmap_app, fold_left_app. simpl.
    destruct IH as (IHr & IHc & IHrect & IHpal); [lia|].
    set (st := fold_left _ _ work) in *.
    pose proof (rows_nonneg work). pose proof (cols_nonneg work).
    assert (HW : 0 < cols work) by nia.
    set (W := cols work) in *. set (i := Z.of_nat n).
    assert (Hi : 0 <= i < rows work * W) by lia.
    pose proof (Z.mod_pos_bound i W HW) as Hmod.
    pose proof (Z.div_pos i W ltac:(lia) HW) as Hdiv.
    assert (Hdiv' : i / W < rows work) by (apply Z.div_lt_upper_bound; nia).
    unfold DitherVisit at 1 2 3 4. simpl.
    rewrite DitherCell_rows, DitherCell_cols.
    split; [done|]. split; [done|]. split; [by apply DitherCell_rectangular|].
    intros j Hj. destruct (decide (j = i)) as [->|Hji].
    + rewrite DitherCell_at_self by (rewrite ?IHr, ?IHc; done).
      by apply FindNearestPaletteColor_elem.
    + assert (Hj' : 0 <= j < i) by lia.
      pose proof (Z.mod_pos_bound j W HW) as Hjmod.
      pose proof (Z.div_pos j W ltac:(lia) HW) as Hjdiv.
      rewrite DitherCell_at_earlier; [apply IHpal; lia|lia..|].
      pose proof (Z.div_le_mono j i W HW ltac:(lia)) as Hle.
      destruct (decide (j / W = i / W)) as [E|E]; [right|left; lia].
      split; [done|].
      pose proof (Z.div_mod j W ltac:(lia)). pose proof (Z.div_mod i W ltac:(lia)).
      rewrite E in *. lia.
Qed.

Lemma FloydSteinberg_shape palette work :
  rows (FloydSteinberg palette work) = rows work
  /\ cols (FloydSteinberg palette work) = cols work
  /\ mtype (FloydSteinberg palette work) = mtype work.
Proof.
  rewrite FloydSteinberg_row_major.
  generalize (row_major (rows work) (cols work)). intros l.
  revert work. induction l as [|p l IH]; intros work; simpl; [done|].
  destruct (IH (DitherVisit palette work p)) as (-> & -> & ->).
  unfold DitherVisit. by rewrite DitherCell_rows, DitherCell_cols, DitherCell_type.
Qed.

Lemma FloydSteinberg_palette palette work y x :
  palette <> [] -> rectangular work ->
  0 <= y < rows work -> 0 <= x < cols work ->
  Mat_at (FloydSteinberg palette work) y x ∈ palette.
Proof.
  intros Hne Hr Hy Hx. rewrite FloydSteinberg_row_major. unfold row_major.
  pose proof (rows_nonneg work). pose proof (cols_nonneg work).
  assert (Hn : 0 <= rows work * cols work) by nia.
  destruct (dither_prefix_inv palette work (Z.to_nat (rows work * cols work)) Hne Hr)
    as (_ & _ & _ & Hpal); [lia|].
  rewrite Z2Nat.id in Hpal by done.
  specialize (Hpal (y * cols work + x) ltac:(nia)).
  rewrite Z.div_add_l, Z.div_small, Z.add_0_r in Hpal by lia.
  rewrite Z.add_comm, Z.mod_add, Z.mod_small in Hpal by lia. done.
Qed.

(** ** Dithered colour mapping *)

(** The loop nest dithers the grid: [Dithered] holds of its result. *)
Lemma FloydSteinberg_Dithered (palette : list Vec3b) (work : Mat) :
  palette <> [] -> (forall c, c ∈ palette -> Vec3b_ok c = true) -> rectangular work ->
  Dithered palette work (FloydSteinberg palette work).
Proof.
  intros Hne Hpal Hr. unfold Dithered. cbv zeta.
  destruct (FloydSteinberg_shape palette work) as (Hrows & Hcols & _).
  split; [apply FloydSteinberg_row_major|]. split; [apply row_major_NoDup|].
  split; [intros y x; apply row_major_elem; [apply rows_nonneg|apply cols_nonneg]|].
  split; [intros before y x Hb Hy Hx; by apply DitherCell_spec|].
  split; [done|]. split; [done|].
  intros y x Hy Hx. by apply FloydSteinberg_palette.
Qed.

Lemma QuantizeWithFixedPaletteDither_palette smallBgr preset y x :
  Mat_empty smallBgr = false -> Mat_ok smallBgr = true -> preset <> Custom ->
  0 <= y < rows smallBgr -> 0 <= x < cols smallBgr ->
  QuantizeWithFixedPaletteDither smallBgr preset
  = FloydSteinberg (GetPaletteColors preset) smallBgr
  /\ Mat_at (QuantizeWithFixedPaletteDither smallBgr preset) y x ∈ GetPaletteColors preset.
Proof.
  intros He Hok Hp Hy Hx.
  assert (E : QuantizeWithFixedPaletteDither smallBgr preset
              = FloydSteinberg (GetPaletteColors preset) smallBgr).
  { unfold QuantizeWithFixedPaletteDither.
    rewrite He, (Mat_ok_type _ Hok). simpl. by destruct preset. }
  split; [done|]. rewrite E.
  apply FloydSteinberg_palette; [by destruct preset|by apply Mat_ok_rectangular|done..].
Qed.

(** The clustering quantizer runs the same loop, on the palette of the
    cluster centres. *)
Lemma QuantizeWithKMeansLabDither_loop cv smallBgr paletteSize g q g' :
  Mat_empty smallBgr = false -> mtype smallBgr = CV_8UC3 ->
  QuantizeWithKMeansLabDither cv smallBgr paletteSize g = (Ok q, g') ->
  exists palette,
    Z.of_nat (length palette) = ClusterCount paletteSize (rows smallBgr * cols smallBgr)
    /\ q = FloydSteinberg palette smallBgr.
Proof.
  intros He Ht. unfold QuantizeWithKMeansLabDither. rewrite He, Ht. simpl.
  destruct (Mat_nonempty_dims _ He) as [Hr Hc].
  rewrite (proj2 (Z.leb_gt _ _)) by nia.
  unfold bind, ret. destruct (run_kmeans _ _ _ _) as [[[labels centers]|] g1]; [|done].
  intros [= <- <-]. eexists. split; [|reflexivity].
  unfold CentersPalette. rewrite length_fmap, length_seqZ. unfold ClusterCount. lia.
Qed.

(** ** Painting tiles *)

Lemma lookup_total_imap {A B} `{Inhabited B} (f : nat -> A -> B) (l : list A) (i : nat) (a : A) :
  l !! i = Some a -> imap f l !!! i = f i a.
Proof.
  intros Hi. apply list_lookup_total_correct. by rewrite list_lookup_imap, Hi.
Qed.

Lemma Mat_setTo_rows m r c : rows (Mat_setTo m r c) = rows m.
Proof. unfold rows, Mat_setTo. simpl. by rewrite length_imap. Qed.

Lemma Mat_setTo_cols m r c : cols (Mat_setTo m r c) = cols m.
Proof.
  unfold cols, Mat_setTo. simpl. destruct (mdata m) as [|row l]; [done|].
  simpl. by rewrite length_imap.
Qed.

Lemma Mat_setTo_type m r c : mtype (Mat_setTo m r c) = mtype m.
Proof. reflexivity. Qed.

Lemma Mat_setTo_rectangular m r c : rectangular m -> rectangular (Mat_setTo m r c).
Proof.
  intros Hr row Hrow. rewrite Mat_setTo_cols. simpl in Hrow.
  apply list_elem_of_lookup in Hrow as [j Hj]. rewrite list_lookup_imap in Hj.
  destruct (mdata m !! j) as [row0|] eqn:E; [|done]. simpl in Hj. injection Hj as <-.
  rewrite length_imap. apply Hr. by eapply list_elem_of_lookup_2.
Qed.

Lemma Mat_at_setTo m r c y x :
  rectangular m -> 0 <= y < rows m -> 0 <= x < cols m ->
  Mat_at (Mat_setTo m r c) y x = if in_rect r y x then c else Mat_at m y x.
Proof.
  intros Hr Hy Hx. pose proof (rectangular_row m y Hr Hy) as Hlen.
  unfold Mat_at, Mat_setTo. simpl. unfold rows in Hy.
  destruct (lookup_lt_is_Some_2 (mdata m) (Z.to_nat y) ltac:(lia)) as [row Hrow].
  rewrite (list_lookup_total_correct _ _ _ Hrow) in *.
  rewrite (lookup_total_imap _ _ _ _ Hrow).
  destruct (lookup_lt_is_Some_2 row (Z.to_nat x) ltac:(lia)) as [v Hv].
  rewrite (lookup_total_imap _ _ _ _ Hv), (list_lookup_total_correct _ _ _ Hv).
  by rewrite !Z2Nat.id by lia.
Qed.

Lemma div_eq_iff x b q : 0 < b -> x / b = q <-> q * b <= x < q * b + b.
Proof.
  intros Hb. split.
  - intros <-. pose proof (Z.mul_div_le x b Hb). pose proof (Z.mod_pos_bound x b Hb).
    pose proof (Z.div_mod x b ltac:(lia)). lia.
  - intros Hx. symmetry. apply (Z.div_unique x b q (x - q * b)); lia.
Qed.

Lemma Mat_create_rows h w t c : 0 <= h -> rows (Mat_create h w t c) = h.
Proof. intros Hh. unfold rows, Mat_create. simpl. rewrite length_replicate. lia. Qed.

Lemma Mat_create_cols h w t c : 0 < h -> 0 <= w -> cols (Mat_create h w t c) = w.
Proof.
  intros Hh Hw. unfold cols, Mat_create. simpl.
  destruct (Z.to_nat h) eqn:E; [lia|]. simpl. rewrite length_replicate. lia.
Qed.

Lemma Mat_create_rectangular h w t c : 0 <= w -> rectangular (Mat_create h w t c).
Proof.
  intros Hw row Hrow. simpl in Hrow. apply elem_of_replicate in Hrow as [-> Hn].
  unfold cols, Mat_create. simpl. destruct (Z.to_nat h); [done|]. simpl. done.
Qed.

(** What painting tile [(by, bx)] does to pixel [(y, x)]. *)
Lemma PaintTile_at smallBgr blockSize out by_ bx y x :
  0 < blockSize -> 0 <= by_ -> 0 <= bx ->
  rectangular out -> 0 <= y < rows out -> 0 <= x < cols out ->
  Mat_at (PaintTile smallBgr blockSize out by_ bx) y x
  = if (y / blockSize =? by_) && (x / blockSize =? bx)
    then Mat_at smallBgr by_ bx else Mat_at out y x.
Proof.
  intros Hb Hby Hbx Hr Hy Hx. unfold PaintTile. cbv zeta.
  assert (Ey : y / blockSize = by_ <-> by_ * blockSize <= y < by_ * blockSize + blockSize)
    by by apply div_eq_iff.
  assert (Ex : x / blockSize = bx <-> bx * blockSize <= x < bx * blockSize + blockSize)
    by by apply div_eq_iff.
  destruct (Z.eqb_spec (y / blockSize) by_) as [Hy1|Hy1];
    destruct (Z.eqb_spec (x / blockSize) bx) as [Hx1|Hx1]; simpl;
    (destruct (_ || _) eqn:E;
     [apply orb_true_iff in E; rewrite !Z.leb_le in E; try done; lia
     |apply orb_false_iff in E; rewrite !Z.leb_gt in E;
      rewrite Mat_at_setTo by done; unfold in_rect; simpl;
      repeat match goal with
        | |- context [?a <=? ?b] => destruct (Z.leb_spec a b); simpl
        | |- context [?a <? ?b] => destruct (Z.ltb_spec a b); simpl
        end; try done; lia]).
Qed.

Lemma PaintTile_shape smallBgr blockSize out by_ bx :
  rows (PaintTile smallBgr blockSize out by_ bx) = rows out
  /\ cols (PaintTile smallBgr blockSize out by_ bx) = cols out
  /\ mtype (PaintTile smallBgr blockSize out by_ bx) = mtype out
  /\ (rectangular out -> rectangular (PaintTile smallBgr blockSize out by_ bx)).
Proof.
  unfold PaintTile. cbv zeta. destruct (_ || _); [done|].
  rewrite Mat_setTo_rows, Mat_setTo_cols, Mat_setTo_type.
  repeat split. apply Mat_setTo_rectangular.
Qed.

(** A loop whose every step either writes [v] to a given pixel or leaves it. *)
Lemma fold_left_paint {T} (step : Mat -> T -> Mat) (Inv : Mat -> Prop) (P : T -> Prop)
    (hit : T -> bool) (v : Vec3b) (y x : Z) :
  (forall out t, P t -> Inv out -> Inv (step out t)) ->
  (forall out t, P t -> Inv out ->
     Mat_at (step out t) y x = if hit t then v else Mat_at out y x) ->
  forall l out, Forall P l -> Inv out ->
    Inv (fold_left step l out)
    /\ Mat_at (fold_left step l out) y x = if existsb hit l then v else Mat_at out y x.
Proof.
  intros Hinv Hstep l. induction l as [|t l IH]; intros out Hl Hout; simpl; [done|].
  apply Forall_cons_1 in Hl as [Ht Hl].
  destruct (IH (step out t) Hl (Hinv _ _ Ht Hout)) as [HI ->]. split; [done|].
  rewrite Hstep by done. by destruct (hit t), (existsb hit l).
Qed.

Lemma existsb_andb_l {A} (c : bool) (f : A -> bool) (l : list A) :
  existsb (fun a => c && f a) l = c && existsb f l.
Proof.
  induction l as [|a l IH]; simpl; [by rewrite andb_false_r|].
  rewrite IH. by destruct c.
Qed.

Lemma existsb_andb_r {A} (c : bool) (f : A -> bool) (l : list A) :
  existsb (fun a => f a && c) l = existsb f l && c.
Proof.
  induction l as [|a l IH]; simpl; [done|].
  rewrite IH. by destruct (f a), c, (existsb f l).
Qed.

Lemma existsb_eqb_seqZ q n :
  existsb (fun b => q =? b) (seqZ 0 n) = bool_decide (0 <= q < n).
Proof.
  destruct (existsb _ _) eqn:E.
  - apply existsb_exists in E as (b & Hb%list_elem_of_In%elem_of_seqZ & ->%Z.eqb_eq).
    by rewrite bool_decide_eq_true_2 by lia.
  - destruct (decide (0 <= q < n)) as [Hq|Hq]; [|by rewrite bool_decide_eq_false_2].
    assert (existsb (fun b : Z => q =? b) (seqZ 0 n) = true); [|congruence].
    apply existsb_exists. exists q. split; [|by apply Z.eqb_eq].
    apply list_elem_of_In, elem_of_seqZ. lia.
Qed.

Lemma seqZ_nonneg n : Forall (fun t => 0 <= t) (seqZ 0 n).
Proof. apply Forall_forall. intros t Ht%list_elem_of_In%elem_of_seqZ. lia. Qed.

Lemma PaintTile_shaped smallBgr blockSize h w out by_ bx :
  shaped h w out -> shaped h w (PaintTile smallBgr blockSize out by_ bx).
Proof.
  intros (Hr & Hh & Hw & Ht).
  destruct (PaintTile_shape smallBgr blockSize out by_ bx) as (E1 & E2 & E3 & E4).
  split; [auto|]. by rewrite E1, E2, E3.
Qed.

Lemma Mat_create_at h w t c y x :
  0 <= y < h -> 0 <= x < w -> Mat_at (Mat_create h w t c) y x = c.
Proof.
  intros Hy Hx. unfold Mat_at, Mat_create. simpl.
  rewrite !lookup_total_replicate_2 by lia. done.
Qed.

(** One row of tiles. *)
Lemma PaintRow_at smallBgr blockSize h w out by_ y x :
  0 < blockSize -> 0 <= by_ -> shaped h w out -> 0 <= y < h -> 0 <= x < w ->
  let out' := fold_left (fun out bx => PaintTile smallBgr blockSize out by_ bx)
                (seqZ 0 (cols smallBgr)) out in
  shaped h w out'
  /\ Mat_at out' y x
     = if (y / blockSize =? by_) && bool_decide (0 <= x / blockSize < cols smallBgr)
       then Mat_at smallBgr (y / blockSize) (x / blockSize) else Mat_at out y x.
Proof.
  intros Hb Hby Hout Hy Hx. cbv zeta.
  destruct (fold_left_paint
              (fun out bx => PaintTile smallBgr blockSize out by_ bx)
              (shaped h w) (fun t => 0 <= t)
              (fun bx => (y / blockSize =? by_) && (x / blockSize =? bx))
              (Mat_at smallBgr (y / blockSize) (x / blockSize)) y x)
    with (l := seqZ 0 (cols smallBgr)) (out := out) as [HI Hat].
  - intros o t _ Ho. by apply PaintTile_shaped.
  - intros o t Ht (Hr & Hh & Hw & _).
    rewrite PaintTile_at by (try done; lia).
    destruct (Z.eqb_spec (y / blockSize) by_) as [->|]; [|done].
    by destruct (Z.eqb_spec (x / blockSize) t) as [->|].
  - apply seqZ_nonneg.
  - done.
  - split; [done|]. by rewrite Hat, existsb_andb_l, existsb_eqb_seqZ.
Qed.

Lemma ExpandBlocksBGR_at smallBgr outSize blockSize y x :
  Mat_empty smallBgr = false -> mtype smallBgr = CV_8UC3 -> 0 < blockSize ->
  0 <= y < height outSize -> 0 <= x < width outSize ->
  shaped (height outSize) (width outSize) (ExpandBlocksBGR smallBgr outSize blockSize)
  /\ Mat_at (ExpandBlocksBGR smallBgr outSize blockSize) y x
     = if bool_decide (y / blockSize < rows smallBgr /\ x / blockSize < cols smallBgr)
       then Mat_at smallBgr (y / blockSize) (x / blockSize)
       else mkVec3b 0 0 0.
Proof.
  intros He Ht Hb Hy Hx. unfold ExpandBlocksBGR. rewrite He, Ht. simpl.
  rewrite Z.max_r by lia.
  set (H := height outSize) in *. set (W := width outSize) in *.
  set (v := Mat_at smallBgr (y / blockSize) (x / blockSize)).
  set (out0 := Mat_create H W CV_8UC3 (mkVec3b 0 0 0)).
  assert (Hout0 : shaped H W out0).
  { split; [apply Mat_create_rectangular; lia|].
    split; [apply Mat_create_rows; lia|]. split; [apply Mat_create_cols; lia|done]. }
  assert (Hy0 : 0 <= y / blockSize) by (apply Z.div_pos; lia).
  assert (Hx0 : 0 <= x / blockSize) by (apply Z.div_pos; lia).
  destruct (fold_left_paint
              (fun out by_ =>
                 fold_left (fun out bx => PaintTile smallBgr blockSize out by_ bx)
                   (seqZ 0 (cols smallBgr)) out)
              (shaped H W) (fun t => 0 <= t)
              (fun by_ => (y / blockSize =? by_)
                          && bool_decide (0 <= x / blockSize < cols smallBgr))
              v y x) with (l := seqZ 0 (rows smallBgr)) (out := out0) as [HI Hat].
  - intros out by_ Hby Hout.
    by destruct (PaintRow_at smallBgr blockSize H W out by_ y x) as [? _].
  - intros out by_ Hby Hout.
    by destruct (PaintRow_at smallBgr blockSize H W out by_ y x) as [_ ?].
  - apply seqZ_nonneg.
  - done.
  - split; [done|]. rewrite Hat.
    rewrite existsb_andb_r, existsb_eqb_seqZ.
    unfold out0. rewrite Mat_create_at by done.
    repeat case_bool_decide; simpl; try done; lia.
Qed.

(** ** Sub-matrices and sums *)

Lemma take_drop_tabulate {A} `{Inhabited A} (l : list A) (k n : Z) :
  0 <= k -> 0 <= n -> k + n <= Z.of_nat (length l) ->
  take (Z.to_nat n) (drop (Z.to_nat k) l)
  = (fun i => l !!! Z.to_nat (k + i)) <$> seqZ 0 n.
Proof.
  intros Hk Hn Hlen. apply list_eq. intros i.
  rewrite lookup_take, lookup_drop, list_lookup_fmap.
  destruct (decide (i < Z.to_nat n)%nat) as [Hi|Hi].
  - rewrite lookup_seqZ_lt by lia. simpl.
    rewrite list_lookup_lookup_total_lt by lia. do 2 f_equal. lia.
  - by rewrite lookup_seqZ_ge by lia.
Qed.

Lemma Mat_roi_tabulate m x0 y0 w h :
  rectangular m -> 0 <= x0 -> 0 <= y0 -> 0 <= w -> 0 <= h ->
  x0 + w <= cols m -> y0 + h <= rows m ->
  Mat_roi m (mkRect x0 y0 w h)
  = Mat_tabulate h w (mtype m) (fun y x => Mat_at m (y0 + y) (x0 + x)).
Proof.
  intros Hr Hx0 Hy0 Hw Hh Hx Hy. unfold Mat_roi, Mat_tabulate. simpl. f_equal.
  unfold rows in Hy. rewrite take_drop_tabulate by lia.
  rewrite <- list_fmap_compose. apply list_fmap_ext.
  intros i y Hi%lookup_seqZ. destruct Hi as [-> Hi]. simpl.
  assert (Hrow : Z.of_nat (length (mdata m !!! Z.to_nat (y0 + (0 + Z.of_nat i)))) = cols m).
  { apply rectangular_row; [done|]. unfold rows. lia. }
  rewrite take_drop_tabulate by lia. apply list_fmap_ext.
  intros j x Hj%lookup_seqZ. destruct Hj as [-> Hj]. reflexivity.
Qed.

Lemma sumZ_app l1 l2 : sumZ (l1 ++ l2) = sumZ l1 + sumZ l2.
Proof. unfold sumZ. induction l1 as [|a l1 IH]; simpl; lia. Qed.

Lemma sumZ_cons a l : sumZ (a :: l) = a + sumZ l.
Proof. reflexivity. Qed.

Lemma sumZ_zero {A} (g : A -> Z) (l : list A) :
  (forall a, a ∈ l -> g a = 0) -> sumZ (g <$> l) = 0.
Proof.
  induction l as [|a l IH]; intros Hg; [done|].
  rewrite fmap_cons, sumZ_cons.
  rewrite (Hg a) by left. rewrite IH; [done|]. intros b Hb. apply Hg. by right.
Qed.

Lemma sumZ_ext {A} (g1 g2 : A -> Z) (l : list A) :
  (forall a, a ∈ l -> g1 a = g2 a) -> sumZ (g1 <$> l) = sumZ (g2 <$> l).
Proof.
  induction l as [|a l IH]; intros Hg; [done|].
  rewrite !fmap_cons, !sumZ_cons.
  rewrite (Hg a) by left. rewrite IH; [done|]. intros b Hb. apply Hg. by right.
Qed.

Lemma sumZ_bounds {A} (g : A -> Z) (l : list A) (lo hi : Z) :
  (forall a, a ∈ l -> lo <= g a <= hi) ->
  lo * Z.of_nat (length l) <= sumZ (g <$> l) <= hi * Z.of_nat (length l).
Proof.
  induction l as [|a l IH]; intros Hg; [simpl; lia|].
  rewrite fmap_cons, sumZ_cons.
  pose proof (Hg a ltac:(left)).
  assert (lo * Z.of_nat (length l) <= sumZ (g <$> l) <= hi * Z.of_nat (length l))
    by (apply IH; intros b Hb; apply Hg; by right).
  rewrite length_cons. lia.
Qed.

(** The pixels with [y / blockSize = q] are those of one band of rows. *)
Lemma sumZ_band (g : Z -> Z) (blockSize q n : Z) :
  0 < blockSize -> 0 <= q -> q * blockSize < n ->
  sumZ ((fun y => if y / blockSize =? q then g y else 0) <$> seqZ 0 n)
  = sumZ ((fun y => g (q * blockSize + y))
            <$> seqZ 0 (Z.min (q * blockSize + blockSize) n - q * blockSize)).
Proof.
  intros Hb Hq Hn.
  set (y0 := q * blockSize). set (m := Z.min (y0 + blockSize) n - y0).
  assert (Hy0 : 0 <= y0) by (unfold y0; nia).
  replace n with (y0 + (m + (n - y0 - m))) at 1 by lia.
  rewrite !seqZ_app by lia. rewrite !fmap_app, !sumZ_app. rewrite !Z.add_0_l.
  rewrite (sumZ_zero _ (seqZ 0 y0)), (sumZ_zero _ (seqZ (y0 + m) _)).
  - rewrite Z.add_0_l, Z.add_0_r.
    replace y0 with (y0 + 0) at 1 by lia.
    rewrite <- (fmap_add_seqZ y0 0 m), <- list_fmap_compose.
    apply sumZ_ext. intros y Hy%elem_of_seqZ. simpl.
    rewrite (proj2 (Z.eqb_eq _ _)); [done|]. apply div_eq_iff; [done|]. fold y0. lia.
  - intros y Hy%elem_of_seqZ.
    rewrite (proj2 (Z.eqb_neq _ _)); [done|]. rewrite div_eq_iff by done. fold y0. lia.
  - intros y Hy%elem_of_seqZ.
    rewrite (proj2 (Z.eqb_neq _ _)); [done|]. rewrite div_eq_iff by done. fold y0. lia.
Qed.

Lemma SumChannel_sumZ f m : SumChannel f m = sumZ (f <$> concat (mdata m)).
Proof.
  unfold SumChannel. generalize (concat (mdata m)). intros l.
  induction l as [|c l IH]; [done|]. rewrite fmap_cons, sumZ_cons, <- IH. reflexivity.
Qed.

Lemma sumZ_concat {A} (g : A -> Z) (ls : list (list A)) :
  sumZ (g <$> concat ls) = sumZ ((fun l => sumZ (g <$> l)) <$> ls).
Proof.
  induction ls as [|l ls IH]; [done|].
  rewrite fmap_cons, sumZ_cons, <- IH. simpl concat. by rewrite fmap_app, sumZ_app.
Qed.

Lemma SumChannel_tabulate f h w t F :
  SumChannel f (Mat_tabulate h w t F)
  = sumZ ((fun y => sumZ ((fun x => f (F y x)) <$> seqZ 0 w)) <$> seqZ 0 h).
Proof.
  rewrite SumChannel_sumZ, sumZ_concat. unfold Mat_tabulate. simpl.
  rewrite <- list_fmap_compose. apply sumZ_ext. intros y _. simpl.
  by rewrite <- list_fmap_compose.
Qed.

Lemma sumZ_const {A} (c : Z) (l : list A) :
  sumZ ((fun _ => c) <$> l) = c * Z.of_nat (length l).
Proof.
  induction l as [|a l IH]; [simpl; lia|].
  rewrite fmap_cons, sumZ_cons, IH, length_cons. lia.
Qed.

(** The pixels of tile [(by, bx)] are those of the rectangle the source
    cuts out of the image. *)
Lemma TileSum_roi f img blockSize by_ bx :
  0 < blockSize -> 0 <= by_ -> 0 <= bx ->
  by_ * blockSize < rows img -> bx * blockSize < cols img ->
  let x0 := bx * blockSize in
  let y0 := by_ * blockSize in
  let x1 := Z.min (x0 + blockSize) (cols img) in
  let y1 := Z.min (y0 + blockSize) (rows img) in
  TileSum f img blockSize by_ bx
  = sumZ ((fun y => sumZ ((fun x => f (Mat_at img (y0 + y) (x0 + x))) <$> seqZ 0 (x1 - x0)))
            <$> seqZ 0 (y1 - y0)).
Proof.
  intros Hb Hby Hbx Hy Hx. cbv zeta. unfold TileSum.
  rewrite (sumZ_ext _
             (fun y => if y / blockSize =? by_
                       then sumZ ((fun x => if x / blockSize =? bx
                                            then f (Mat_at img y x) else 0)
                                    <$> seqZ 0 (cols img))
                       else 0)).
  - rewrite sumZ_band by done. apply sumZ_ext. intros y _.
    by rewrite (sumZ_band (fun x => f (Mat_at img (by_ * blockSize + y) x))) by done.
  - intros y _. unfold in_tile. destruct (y / blockSize =? by_); simpl; [done|].
    by apply sumZ_zero.
Qed.

Lemma TileCount_eq img blockSize by_ bx :
  0 < blockSize -> 0 <= by_ -> 0 <= bx ->
  by_ * blockSize < rows img -> bx * blockSize < cols img ->
  TileCount img blockSize by_ bx
  = (Z.min (by_ * blockSize + blockSize) (rows img) - by_ * blockSize)
    * (Z.min (bx * blockSize + blockSize) (cols img) - bx * blockSize).
Proof.
  intros Hb Hby Hbx Hy Hx. unfold TileCount. rewrite TileSum_roi by done. cbv zeta.
  rewrite (sumZ_ext _ (fun _ => Z.min (bx * blockSize + blockSize) (cols img) - bx * blockSize)).
  - rewrite sumZ_const, length_seqZ. lia.
  - intros y _. rewrite sumZ_const, length_seqZ. lia.
Qed.

Lemma ceil_div_pos n b : 0 < n -> 0 < b -> 0 < ceil_div n b.
Proof. intros Hn Hb. unfold ceil_div. apply Z.div_str_pos. lia. Qed.

(** [q < ceil(n / b)] exactly when tile [q] starts inside [0, n). *)
Lemma ceil_div_lt n b q : 0 < b -> 0 <= q -> q < ceil_div n b <-> q * b < n.
Proof.
  intros Hb Hq. unfold ceil_div. split.
  - intros H. apply Z.nle_gt. intros Hle.
    assert ((n + b - 1) / b <= q); [|lia].
    apply Z.lt_succ_r, Z.div_lt_upper_bound; lia.
  - intros H. assert (q + 1 <= (n + b - 1) / b); [|lia].
    apply Z.div_le_lower_bound; lia.
Qed.

Lemma uchar_of_double_mean s n :
  0 < n -> 0 <= s <= 255 * n -> forall q, q == s # Z.to_pos n -> uchar_of_double q = s / n.
Proof.
  intros Hn Hs q Hq. unfold uchar_of_double.
  rewrite (Qtrunc_comp _ _ Hq), Qtrunc_Qmake, Z2Pos.id by done.
  rewrite Z.quot_div_nonneg by lia. apply uchar_of_int_id.
  split; [apply Z.div_pos; lia|]. apply Z.div_le_upper_bound; lia.
Qed.

(** ** The block reducer *)

Section BlockReducer.

Context (cv : OpenCV).

Lemma BuildBlockColorImageBGR_unfold img blockSize :
  0 < rows img -> 0 < cols img -> 0 < blockSize ->
  BuildBlockColorImageBGR cv img blockSize
  = Mat_tabulate (ceil_div (rows img) blockSize) (ceil_div (cols img) blockSize) CV_8UC3
      (fun by_ bx =>
         let x0 := bx * blockSize in
         let y0 := by_ * blockSize in
         let x1 := Z.min (x0 + blockSize) (cols img) in
         let y1 := Z.min (y0 + blockSize) (rows img) in
         let m := mean cv (Mat_roi img (mkRect x0 y0 (x1 - x0) (y1 - y0))) in
         mkVec3b (uchar_of_double (sc0 m)) (uchar_of_double (sc1 m))
                 (uchar_of_double (sc2 m))).
Proof.
  intros Hr Hc Hb. unfold BuildBlockColorImageBGR, ceil_div.
  rewrite (proj2 (Z.leb_gt _ _) Hr), (proj2 (Z.leb_gt _ _) Hc). simpl.
  rewrite Z.max_r by lia. by rewrite !Z.quot_div_nonneg by lia.
Qed.

Lemma BuildBlockColorImageBGR_shape img blockSize :
  0 < rows img -> 0 < cols img -> 0 < blockSize ->
  let small := BuildBlockColorImageBGR cv img blockSize in
  Mat_ok small = true
  /\ rows small = ceil_div (rows img) blockSize
  /\ cols small = ceil_div (cols img) blockSize
  /\ Mat_empty small = false.
Proof.
  intros Hr Hc Hb. cbv zeta. rewrite BuildBlockColorImageBGR_unfold by done.
  pose proof (ceil_div_pos (rows img) blockSize Hr Hb).
  pose proof (ceil_div_pos (cols img) blockSize Hc Hb).
  set (small := Mat_tabulate _ _ _ _).
  assert (Hrows : rows small = ceil_div (rows img) blockSize)
    by (apply Mat_tabulate_rows; lia).
  assert (Hcols : cols small = ceil_div (cols img) blockSize)
    by (apply Mat_tabulate_cols; lia).
  split; [|split; [done|split; [done|]]].
  - apply Mat_tabulate_ok; [lia|]. intros y x _ _. apply Vec3b_ok_spec. simpl.
    unfold uchar_of_double. split; [|split]; apply uchar_of_int_range.
  - unfold Mat_empty. rewrite Hrows, Hcols. apply Z.eqb_neq. nia.
Qed.

(** The block handed to [cv::mean] for a cell is the tile of that cell, and
    the cell holds what [cv::mean] returns, converted to [uchar]. *)
Lemma BuildBlockColorImageBGR_cell img blockSize by_ bx :
  Mat_ok img = true -> 0 < blockSize ->
  0 <= by_ < ceil_div (rows img) blockSize -> 0 <= bx < ceil_div (cols img) blockSize ->
  let block := Mat_roi img (TileRect img blockSize by_ bx) in
  let n := TileCount img blockSize by_ bx in
  let m := mean cv block in
  0 < n /\ Mat_ok block = true
  /\ rows block = rheight (TileRect img blockSize by_ bx)
  /\ cols block = rwidth (TileRect img blockSize by_ bx)
  /\ rows block * cols block = n
  /\ (forall f, SumChannel f block = TileSum f img blockSize by_ bx)
  /\ (forall f, (forall c, Vec3b_ok c = true -> 0 <= f c <= 255) ->
        0 <= TileSum f img blockSize by_ bx <= 255 * n)
  /\ (0 <= by_ * blockSize < rows img /\ 0 <= bx * blockSize < cols img
      /\ Mat_at block 0 0 = Mat_at img (by_ * blockSize) (bx * blockSize))
  /\ Mat_at (BuildBlockColorImageBGR cv img blockSize) by_ bx
     = mkVec3b (uchar_of_double (sc0 m)) (uchar_of_double (sc1 m)) (uchar_of_double (sc2 m)).
Proof.
  intros Hok Hb Hby Hbx. cbv zeta.
  assert (Hy : by_ * blockSize < rows img) by (apply ceil_div_lt; lia).
  assert (Hx : bx * blockSize < cols img) by (apply ceil_div_lt; lia).
  assert (Hr : 0 < rows img) by nia. assert (Hc : 0 < cols img) by nia.
  rewrite BuildBlockColorImageBGR_unfold by done.
  rewrite Mat_tabulate_at by done. cbv zeta. unfold TileRect.
  set (x0 := bx * blockSize). set (y0 := by_ * blockSize).
  set (x1 := Z.min (x0 + blockSize) (cols img)).
  set (y1 := Z.min (y0 + blockSize) (rows img)).
  assert (Hx0 : 0 <= x0) by (unfold x0; nia). assert (Hy0 : 0 <= y0) by (unfold y0; nia).
  pose proof (Mat_ok_rectangular _ Hok) as Hrect.
  rewrite Mat_roi_tabulate by (try done; lia).
  set (F := fun y x => Mat_at img (y0 + y) (x0 + x)).
  set (block := Mat_tabulate (y1 - y0) (x1 - x0) (mtype img) F).
  assert (HF : forall y x, 0 <= y < y1 - y0 -> 0 <= x < x1 - x0 -> Vec3b_ok (F y x) = true).
  { intros y x ? ?. unfold F. apply Mat_ok_at; [done|lia..]. }
  assert (Hbr : rows block = y1 - y0) by (apply Mat_tabulate_rows; lia).
  assert (Hbc : cols block = x1 - x0) by (apply Mat_tabulate_cols; lia).
  assert (Hbok : Mat_ok block = true).
  { unfold block. rewrite (Mat_ok_type _ Hok). apply Mat_tabulate_ok; [lia|done]. }
  assert (Hcount : TileCount img blockSize by_ bx = (y1 - y0) * (x1 - x0))
    by (apply TileCount_eq; lia).
  assert (Hsum : forall f, SumChannel f block = TileSum f img blockSize by_ bx).
  { intros f. unfold block. rewrite SumChannel_tabulate. symmetry.
    apply TileSum_roi; lia. }
  assert (Hbound : forall f, (forall c, Vec3b_ok c = true -> 0 <= f c <= 255) ->
                   0 <= SumChannel f block <= 255 * ((y1 - y0) * (x1 - x0))).
  { intros f Hf. unfold block. rewrite SumChannel_tabulate.
    pose proof (sumZ_bounds
                  (fun y => sumZ ((fun x => f (F y x)) <$> seqZ 0 (x1 - x0)))
                  (seqZ 0 (y1 - y0)) 0 (255 * (x1 - x0))) as Hs.
    rewrite length_seqZ in Hs. rewrite Z2Nat.id in Hs by lia.
    assert (forall y, y ∈ seqZ 0 (y1 - y0) ->
              0 <= sumZ ((fun x => f (F y x)) <$> seqZ 0 (x1 - x0)) <= 255 * (x1 - x0)).
    { intros y Hyin%elem_of_seqZ.
      pose proof (sumZ_bounds (fun x => f (F y x)) (seqZ 0 (x1 - x0)) 0 255) as Hi.
      rewrite length_seqZ in Hi. rewrite Z2Nat.id in Hi by lia.
      assert (forall x, x ∈ seqZ 0 (x1 - x0) -> 0 <= f (F y x) <= 255).
      { intros x Hxin%elem_of_seqZ. apply Hf, HF; lia. }
      specialize (Hi H). lia. }
    specialize (Hs H). lia. }
  rewrite Hcount, Hbr, Hbc.
  split; [nia|]. split; [done|]. split; [done|]. split; [done|]. split; [done|].
  split; [done|].
  split; [intros f Hf; rewrite <- Hsum; by apply Hbound|].
  split; [|done].
  split; [lia|]. split; [lia|].
  unfold block. rewrite Mat_tabulate_at by lia. unfold F. f_equal; lia.
Qed.

End BlockReducer.

(** ** The block reducer stores the mean truncated *)

(** [static_cast<uchar>] of a [double] in [0, 256) rounds it down. *)
Lemma uchar_of_double_floor q : (0 <= q)%Q -> (q < 256)%Q -> uchar_of_double q = Qfloor q.
Proof.
  intros H0 H256. unfold uchar_of_double, Qtrunc.
  rewrite (proj2 (Qle_bool_iff 0 q) H0).
  apply uchar_of_int_id.
  pose proof (Qfloor_resp_le _ _ H0) as Hlo. change (Qfloor 0) with 0 in Hlo.
  pose proof (Qfloor_le q) as Hfl.
  assert (Hlt : (inject_Z (Qfloor q) < inject_Z 256)%Q).
  { eapply Qle_lt_trans; [exact Hfl|exact H256]. }
  rewrite <- Zlt_Qlt in Hlt. lia.
Qed.

(** C5, amended.  For every valid image and positive block size the tile
    grid has [ceil(rows / blockSize)] rows and [ceil(cols / blockSize)]
    columns.  The block handed to [cv::mean] for a cell is the (possibly cut)
    tile of the cell: it has the pixels of the tile, and the sum of each
    channel over it is the sum over the tile.  The cell holds, per channel,
    what [cv::mean] returns for that block converted by [static_cast<uchar>]:
    a value in [0, 256) is rounded down, never to the nearest integer.  Where
    [cv::mean] returns the exact quotient of sum and count, the cell is that
    quotient rounded down.  Nothing is assumed of [cv::mean]. *)
Theorem C5_BuildBlock_truncated_mean (cv : OpenCV) (img : Mat) (blockSize : Z) :
  valid_input img = true -> 0 < blockSize ->
  let small := BuildBlockColorImageBGR cv img blockSize in
  rows small = ceil_div (rows img) blockSize
  /\ cols small = ceil_div (cols img) blockSize
  /\ forall by_ bx, 0 <= by_ < rows small -> 0 <= bx < cols small ->
       let block := Mat_roi img (TileRect img blockSize by_ bx) in
       let n := TileCount img blockSize by_ bx in
       let m := mean cv block in
       let cell := Mat_at small by_ bx in
       0 < n /\ rows block * cols block = n
       /\ (forall f, SumChannel f block = TileSum f img blockSize by_ bx)
       /\ cell = mkVec3b (uchar_of_double (sc0 m)) (uchar_of_double (sc1 m))
                         (uchar_of_double (sc2 m))
       /\ ((0 <= sc0 m)%Q -> (sc0 m < 256)%Q -> ch0 cell = Qfloor (sc0 m))
       /\ ((0 <= sc1 m)%Q -> (sc1 m < 256)%Q -> ch1 cell = Qfloor (sc1 m))
       /\ ((0 <= sc2 m)%Q -> (sc2 m < 256)%Q -> ch2 cell = Qfloor (sc2 m))
       /\ (sc0 m == TileSum ch0 img blockSize by_ bx # Z.to_pos n ->
           ch0 cell = floor_mean (TileSum ch0 img blockSize by_ bx) n)
       /\ (sc1 m == TileSum ch1 img blockSize by_ bx # Z.to_pos n ->
           ch1 cell = floor_mean (TileSum ch1 img blockSize by_ bx) n)
       /\ (sc2 m == TileSum ch2 img blockSize by_ bx # Z.to_pos n ->
           ch2 cell = floor_mean (TileSum ch2 img blockSize by_ bx) n).
Proof.
  intros Hvalid Hb. cbv zeta.
  destruct (valid_input_spec _ Hvalid) as (Hok & Hr & Hc & _).
  destruct (BuildBlockColorImageBGR_shape cv img blockSize Hr Hc Hb) as (_ & Hsr & Hsc & _).
  cbv zeta in Hsr, Hsc. rewrite Hsr, Hsc. split; [done|]. split; [done|].
  intros by_ bx Hby Hbx.
  destruct (BuildBlockColorImageBGR_cell cv img blockSize by_ bx Hok Hb Hby Hbx)
    as (Hn & _ & _ & _ & Hcount & Hsum & Hbound & _ & Hcell).
  cbv zeta in Hn, Hcount, Hsum, Hbound, Hcell.
  split; [done|]. split; [done|]. split; [done|]. split; [done|].
  rewrite Hcell. simpl.
  split; [apply uchar_of_double_floor|]. split; [apply uchar_of_double_floor|].
  split; [apply uchar_of_double_floor|].
  unfold floor_mean.
  split; [|split]; intros E; (apply uchar_of_double_mean; [done| |done]); apply Hbound;
    intros c Hc'%Vec3b_ok_spec; lia.
Qed.

(** The theorem at the reference instance and a 2 x 2 image in one tile. *)
Lemma C5_BuildBlock_truncated_mean_witness :
  valid_input three_of_four = true /\ 0 < 2
  /\ Mat_at (BuildBlockColorImageBGR refCv three_of_four 2) 0 0
     = mkVec3b
         (uchar_of_double (sc0 (mean refCv (Mat_roi three_of_four (TileRect three_of_four 2 0 0)))))
         (uchar_of_double (sc1 (mean refCv (Mat_roi three_of_four (TileRect three_of_four 2 0 0)))))
         (uchar_of_double (sc2 (mean refCv (Mat_roi three_of_four (TileRect three_of_four 2 0 0))))).
Proof.
  split; [reflexivity|]. split; [lia|].
  destruct (C5_BuildBlock_truncated_mean refCv three_of_four 2 eq_refl ltac:(lia))
    as (_ & _ & Hcell).
  destruct (Hcell 0 0) as (_ & _ & _ & H & _); [by vm_compute|by vm_compute|exact H].
Defined.

(** C5 as stated (rounded to the nearest integer) fails: a tile whose four
    pixels sum to 3 has mean 3/4, nearest integer 1, and the cell holds 0.
    This is so for every [cv::mean] that returns 3/4 for this tile, which
    [3 * (1. / 4)] is in [double] without rounding. *)
Lemma C5_BuildBlock_rounds_down :
  valid_input three_of_four = true
  /\ TileSum ch0 three_of_four 2 0 0 = 3 /\ TileCount three_of_four 2 0 0 = 4
  /\ nearest_mean 3 4 = 1
  /\ Mat_at (BuildBlockColorImageBGR refCv three_of_four 2) 0 0 = mkVec3b 0 0 0
  /\ forall cv : OpenCV,
       let m := mean cv (Mat_roi three_of_four (TileRect three_of_four 2 0 0)) in
       sc0 m == 3 # 4 -> sc1 m == 3 # 4 -> sc2 m == 3 # 4 ->
       Mat_at (BuildBlockColorImageBGR cv three_of_four 2) 0 0 = mkVec3b 0 0 0.
Proof.
  split; [by vm_compute|]. split; [by vm_compute|]. split; [by vm_compute|].
  split; [by vm_compute|]. split; [by vm_compute|].
  intros cv m E0 E1 E2.
  destruct (BuildBlockColorImageBGR_cell cv three_of_four 2 0 0)
    as (_ & _ & _ & _ & _ & _ & _ & _ & ->); [reflexivity|lia|by vm_compute|by vm_compute|].
  fold m. unfold uchar_of_double.
  by rewrite (Qtrunc_comp _ _ E0), (Qtrunc_comp _ _ E1), (Qtrunc_comp _ _ E2).
Qed.

(** ** The pipeline *)

Lemma ClampInt_idem v lo hi : lo <= hi -> ClampInt (ClampInt v lo hi) lo hi = ClampInt v lo hi.
Proof. unfold ClampInt. lia. Qed.

Lemma blur_kernel_odd b : 0 < Z.max 3 (Z.lor (b ÷ 2) 1) /\ Z.odd (Z.max 3 (Z.lor (b ÷ 2) 1)) = true.
Proof.
  split; [lia|].
  assert (Z.odd (Z.lor (b ÷ 2) 1) = true).
  { rewrite <- Z.bit0_odd, Z.lor_spec. by rewrite orb_true_r. }
  destruct (Z.max_spec 3 (Z.lor (b ÷ 2) 1)) as [[_ ->]|[_ ->]]; done.
Qed.

Section PipelineFacts.

Context (cv : OpenCV) (Hcv : OpenCV_spec cv).

(** The image handed to the block reducer. *)
Lemma work_shape img (p : Params) :
  Mat_ok img = true ->
  let work :=
    if preBlur p
    then GaussianBlur cv img (Z.max 3 (Z.lor (ClampInt (blockSize p) 1 256 ÷ 2) 1))
    else img in
  Mat_ok work = true /\ rows work = rows img /\ cols work = cols img.
Proof.
  intros Hok. cbv zeta. destruct (preBlur p); [|done].
  destruct (blur_kernel_odd (ClampInt (blockSize p) 1 256)) as [Hk Hodd].
  by apply (GaussianBlur_shape cv Hcv).
Qed.

End PipelineFacts.

Lemma QuantizeWithFixedPalette_shape smallBgr preset :
  Mat_empty smallBgr = false -> mtype smallBgr = CV_8UC3 -> preset <> Custom ->
  let q := QuantizeWithFixedPalette smallBgr preset in
  rows q = rows smallBgr /\ cols q = cols smallBgr /\ mtype q = CV_8UC3
  /\ Mat_empty q = false
  /\ forall y x, 0 <= y < rows smallBgr -> 0 <= x < cols smallBgr ->
       Mat_at q y x ∈ GetPaletteColors preset.
Proof.
  intros He Ht Hp. cbv zeta. rewrite QuantizeWithFixedPalette_unfold by done.
  destruct (Mat_nonempty_dims _ He) as [Hr Hc].
  set (q := Mat_tabulate _ _ _ _).
  assert (Hqr : rows q = rows smallBgr) by (apply Mat_tabulate_rows; lia).
  assert (Hqc : cols q = cols smallBgr) by (apply Mat_tabulate_cols; lia).
  split; [done|]. split; [done|]. split; [done|]. split.
  - unfold Mat_empty. rewrite Hqr, Hqc. apply Z.eqb_neq. nia.
  - intros y x Hy Hx. unfold q. rewrite Mat_tabulate_at by done. cbv zeta.
    apply NearestScan_elem. by destruct preset.
Qed.

Lemma tile_index_lt v n b : 0 < b -> 0 <= v < n -> 0 <= v / b < ceil_div n b.
Proof.
  intros Hb Hv. assert (0 <= v / b) by (apply Z.div_pos; lia). split; [done|].
  apply ceil_div_lt; [done..|]. pose proof (Z.mul_div_le v b Hb). lia.
Qed.

(** Without dithering and post-processing, and with a fixed preset, every
    pixel is the quantized colour of its tile. *)
Lemma Process_fixed_direct (cv : OpenCV) (img : Mat) (p : Params) (g : RNG) :
  OpenCV_spec cv -> valid_input img = true ->
  dither p = false -> palettePreset p <> Custom ->
  edgeEnhance p = false -> outline p = false ->
  let bs := ClampInt (blockSize p) 1 256 in
  exists out q,
    Process cv img p g = (Ok out, g)
    /\ rows out = rows img /\ cols out = cols img
    /\ rows q = ceil_div (rows img) bs /\ cols q = ceil_div (cols img) bs
    /\ forall y x, 0 <= y < rows img -> 0 <= x < cols img ->
         Mat_at out y x = Mat_at q (y / bs) (x / bs)
         /\ Mat_at out y x ∈ GetPaletteColors (palettePreset p).
Proof.
  intros Hcv Hvalid Hd Hp He Ho.
  destruct (valid_input_nonempty _ Hvalid) as [Hne Hty].
  destruct (valid_input_spec _ Hvalid) as (Hok & Hr & Hc & _).
  unfold Process. rewrite Hne, Hty, Hd, He, Ho. simpl.
  destruct (work_shape cv Hcv img p Hok) as (Hwok & Hwr & Hwc). cbv zeta in Hwok, Hwr, Hwc.
  set (bs := ClampInt (blockSize p) 1 256) in *.
  assert (Hbs : 0 < bs) by (unfold bs, ClampInt; lia).
  set (work := if preBlur p then _ else img) in *.
  destruct (BuildBlockColorImageBGR_shape cv work bs) as (Hsok & Hsr & Hsc & Hse); [lia..|].
  cbv zeta in Hsok, Hsr, Hsc, Hse. rewrite Hwr in Hsr. rewrite Hwc in Hsc.
  set (small := BuildBlockColorImageBGR cv work bs) in *.
  rewrite Hse. rewrite decide_False by done.
  destruct (QuantizeWithFixedPalette_shape small (palettePreset p) Hse (Mat_ok_type _ Hsok) Hp)
    as (Hqr & Hqc & Hqt & Hqe & Hqp).
  cbv zeta in Hqr, Hqc, Hqt, Hqe, Hqp.
  set (q := QuantizeWithFixedPalette small (palettePreset p)) in *.
  unfold bind, ret. rewrite Hqe.
  eexists _, q. split; [reflexivity|].
  destruct (ExpandBlocksBGR_at q (Mat_size img) bs 0 0 Hqe Hqt Hbs)
    as [(_ & Hor & Hoc & _) _]; [simpl; lia..|].
  split; [done|]. split; [done|]. split; [lia|]. split; [lia|].
  intros y x Hy Hx.
  destruct (ExpandBlocksBGR_at q (Mat_size img) bs y x Hqe Hqt Hbs) as [_ ->]; [done..|].
  pose proof (tile_index_lt y (rows img) bs Hbs Hy).
  pose proof (tile_index_lt x (cols img) bs Hbs Hx).
  rewrite bool_decide_eq_true_2 by lia.
  split; [done|]. apply Hqp; lia.
Qed.

(** C3, amended.  For every valid input and every parameter record with
    [dither], [edgeEnhance] and [outline] off and a fixed preset, [Process]
    returns an image of the size of the input whose every pixel is an entry
    of the preset's palette table. *)
Theorem C3_Process_fixed_palette_direct (cv : OpenCV) (img : Mat) (p : Params) (g : RNG) :
  OpenCV_spec cv -> valid_input img = true ->
  dither p = false -> palettePreset p <> Custom ->
  edgeEnhance p = false -> outline p = false ->
  exists out,
    Process cv img p g = (Ok out, g)
    /\ rows out = rows img /\ cols out = cols img
    /\ forall y x, 0 <= y < rows img -> 0 <= x < cols img ->
         Mat_at out y x ∈ GetPaletteColors (palettePreset p).
Proof.
  intros Hcv Hvalid Hd Hp He Ho.
  destruct (Process_fixed_direct cv img p g Hcv Hvalid Hd Hp He Ho)
    as (out & q & HP & Hr & Hc & _ & _ & Hat).
  exists out. split; [done|]. split; [done|]. split; [done|].
  intros y x Hy Hx. by apply Hat.
Qed.



(** C2.  For an input that is empty, has no row or no column, or whose type
    has a channel count other than 3, [Process] returns the null matrix for
    every parameter record: no exception is raised, nothing partial is
    produced, and the random generator is left as it was. *)
Theorem C2_Process_rejects_invalid_input (cv : OpenCV) (img : Mat) (p : Params) (g : RNG) :
  Mat_empty img = true \/ rows img = 0 \/ cols img = 0 \/ CV_MAT_CN (mtype img) <> 3 ->
  Process cv img p g = (Ok Mat_null, g).
Proof.
  intros H. unfold Process.
  destruct (Mat_empty img) eqn:He; [reflexivity|].
  destruct H as [H|[H|[H|H]]].
  - done.
  - unfold Mat_empty in He. rewrite H in He. done.
  - unfold Mat_empty in He. rewrite H, Z.mul_0_r in He. done.
  - destruct (Z.eqb_spec (mtype img) CV_8UC3) as [E|E]; [|reflexivity].
    rewrite E in H. by vm_compute in H.
Qed.

(** C9.  [Process] gives the same outcome, from the same generator state, on
    a parameter record and on the record with [blockSize] clamped to
    [1, 256], [paletteSize] to [2, 256] and [outlineThickness] to [1, 5]; so
    it fails on no record unless it fails on an in-range one.  The record is
    an argument passed by value: [Process] returns no record. *)
Theorem C9_Process_clamps_parameters (cv : OpenCV) (img : Mat) (p : Params) (g : RNG) :
  Process cv img p g = Process cv img (clamp_Params p) g
  /\ 1 <= blockSize (clamp_Params p) <= 256
  /\ 2 <= paletteSize (clamp_Params p) <= 256
  /\ 1 <= outlineThickness (clamp_Params p) <= 5.
Proof.
  split.
  - unfold Process, clamp_Params. simpl. by rewrite !ClampInt_idem by lia.
  - unfold clamp_Params, ClampInt. simpl. lia.
Qed.

(** The theorem at the reference instance, a white and a black pixel, the CGA
    preset. *)
Lemma C3_Process_fixed_palette_direct_witness :
  OpenCV_spec refCv /\ valid_input white_black = true
  /\ dither CGA_direct = false /\ palettePreset CGA_direct <> Custom
  /\ edgeEnhance CGA_direct = false /\ outline CGA_direct = false
  /\ exists out,
       Process refCv white_black CGA_direct 0 = (Ok out, 0)
       /\ rows out = rows white_black /\ cols out = cols white_black
       /\ forall y x, 0 <= y < rows white_black -> 0 <= x < cols white_black ->
            Mat_at out y x ∈ GetPaletteColors (palettePreset CGA_direct).
Proof.
  split; [exact refCv_spec|]. split; [reflexivity|]. split; [reflexivity|].
  split; [discriminate|]. split; [reflexivity|]. split; [reflexivity|].
  apply (C3_Process_fixed_palette_direct refCv white_black CGA_direct 0 refCv_spec);
    [reflexivity|reflexivity|discriminate|reflexivity|reflexivity].
Defined.

(** C3 as stated (only [dither] off and a fixed preset) fails: with the
    outline stage on, the white pixel next to a black one is darkened by 90 to
    (165, 165, 165), which is no CGA entry. *)
Lemma C3_outline_leaves_palette :
  valid_input white_black = true
  /\ dither CGA_outline = false /\ palettePreset CGA_outline <> Custom
  /\ Process refCv white_black CGA_outline 0
     = (Ok (mkMat CV_8UC3 [[mkVec3b 165 165 165; mkVec3b 0 0 0]]), 0)
  /\ mkVec3b 165 165 165 ∉ GetPaletteColors (palettePreset CGA_outline).
Proof.
  split; [reflexivity|]. split; [reflexivity|]. split; [done|].
  split; [by vm_compute|]. compute_done.
Qed.

(** The theorem at a four-channel 1 x 1 matrix. *)
Lemma C2_Process_rejects_invalid_input_witness :
  (Mat_empty four_channel_image = true \/ rows four_channel_image = 0
   \/ cols four_channel_image = 0 \/ CV_MAT_CN (mtype four_channel_image) <> 3)
  /\ Process refCv four_channel_image default_Params 0 = (Ok Mat_null, 0).
Proof.
  split; [right; right; right; discriminate|].
  apply C2_Process_rejects_invalid_input. right. right. right. discriminate.
Defined.

(** ** Size of the result *)

Lemma Mat_ok_intro m :
  mtype m = CV_8UC3 -> rectangular m ->
  (forall y x, 0 <= y < rows m -> 0 <= x < cols m -> Vec3b_ok (Mat_at m y x) = true) ->
  Mat_ok m = true.
Proof.
  intros Ht Hr Hat. apply Mat_ok_spec. split; [done|]. split; [done|].
  intros row c Hrow Hc.
  pose proof (Hr row Hrow) as Hlen.
  apply list_elem_of_lookup in Hrow as [i Hi]. apply list_elem_of_lookup in Hc as [j Hj].
  pose proof (lookup_lt_Some _ _ _ Hi). pose proof (lookup_lt_Some _ _ _ Hj).
  specialize (Hat (Z.of_nat i) (Z.of_nat j)). unfold Mat_at, rows in Hat.
  rewrite !Nat2Z.id in Hat.
  rewrite (list_lookup_total_correct _ _ _ Hi), (list_lookup_total_correct _ _ _ Hj) in Hat.
  apply Hat; lia.
Qed.

Lemma shaped_dims h w m : shaped h w m -> rows m = h /\ cols m = w.
Proof. by intros (_ & ? & ? & _). Qed.

Lemma ExpandBlocksBGR_ok q outSize blockSize :
  Mat_empty q = false -> Mat_ok q = true -> 0 < blockSize ->
  0 < height outSize -> 0 < width outSize ->
  let out := ExpandBlocksBGR q outSize blockSize in
  shaped (height outSize) (width outSize) out /\ Mat_ok out = true /\ Mat_empty out = false.
Proof.
  intros He Hok Hb Hh Hw. cbv zeta.
  pose proof (Mat_ok_type _ Hok) as Ht.
  destruct (ExpandBlocksBGR_at q outSize blockSize 0 0 He Ht Hb) as [Hs _]; [lia..|].
  destruct Hs as (Hrect & Hr & Hc & Hty).
  split; [done|]. split.
  - apply Mat_ok_intro; [done..|]. intros y x Hy Hx. rewrite Hr in Hy. rewrite Hc in Hx.
    destruct (ExpandBlocksBGR_at q outSize blockSize y x He Ht Hb) as [_ ->]; [done..|].
    case_bool_decide as Hin; [|done].
    apply Mat_ok_at; [done|split; [apply Z.div_pos|]; lia..].
  - unfold Mat_empty. rewrite Hr, Hc. apply Z.eqb_neq. nia.
Qed.

Lemma FloydSteinberg_ok palette work :
  palette <> [] -> (forall c, c ∈ palette -> Vec3b_ok c = true) -> Mat_ok work = true ->
  Mat_ok (FloydSteinberg palette work) = true.
Proof.
  intros Hne Hpal Hok. destruct (FloydSteinberg_shape palette work) as (Hr & Hc & Ht).
  pose proof (Mat_ok_rectangular _ Hok) as Hrect.
  apply Mat_ok_intro.
  - by rewrite Ht, (Mat_ok_type _ Hok).
  - rewrite FloydSteinberg_row_major.
    generalize (row_major (rows work) (cols work)). intros l. clear Hok Hr Hc Ht.
    revert work Hrect.
    induction l as [|c l IH]; intros work Hrect; simpl; [done|].
    apply IH. by apply DitherCell_rectangular.
  - intros y x Hy Hx. rewrite Hr in Hy. rewrite Hc in Hx.
    by apply Hpal, FloydSteinberg_palette.
Qed.

Lemma length_concat_fmap {A B} (f : A -> list B) (n : nat) (ys : list A) :
  (forall y, length (f y) = n) -> length (concat (f <$> ys)) = (length ys * n)%nat.
Proof.
  intros Hf. induction ys as [|y ys IH]; [done|].
  rewrite fmap_cons. change (concat (f y :: (f <$> ys))) with (f y ++ concat (f <$> ys)).
  rewrite length_app, IH, Hf. simpl. lia.
Qed.

Lemma KMeansSamples_length m :
  length (KMeansSamples m) = Z.to_nat (rows m * cols m).
Proof.
  unfold KMeansSamples.
  rewrite (length_concat_fmap _ (Z.to_nat (cols m)))
    by (intros y; by rewrite length_fmap, length_seqZ).
  rewrite length_seqZ. pose proof (rows_nonneg m). pose proof (cols_nonneg m).
  rewrite Z2Nat.inj_mul by lia. done.
Qed.

Lemma ClusterCount_range paletteSize total :
  2 <= total -> 2 <= ClusterCount paletteSize total <= total.
Proof. unfold ClusterCount. lia. Qed.

Section ResultSize.

Context (cv : OpenCV) (Hcv : OpenCV_spec cv).

(** The count asked of [cv::kmeans] is at most the number of points it
    finds in the sample matrix: for a grid of one cell it asks for 2 and the
    one row of three floats is read as 3 points. *)
Lemma ClusterCount_points paletteSize smallLab :
  1 <= rows smallLab * cols smallLab ->
  2 <= ClusterCount paletteSize (rows smallLab * cols smallLab)
    <= Z.of_nat (length (kmeans_data (KMeansSamples smallLab))).
Proof.
  intros Ht. rewrite kmeans_data_length, KMeansSamples_length.
  unfold ClusterCount. destruct (decide _) as [E|E]; lia.
Qed.

Lemma run_kmeans_ok smallLab K g :
  1 <= K <= Z.of_nat (length (kmeans_data (KMeansSamples smallLab))) ->
  exists labels centers g',
    run_kmeans cv (KMeansSamples smallLab) K g = (Ok (labels, centers), g')
    /\ length labels = length (kmeans_data (KMeansSamples smallLab))
    /\ Z.of_nat (length centers) = K
    /\ Forall (fun row => length row = kmeans_dims (KMeansSamples smallLab)) centers
    /\ Forall (fun l => 0 <= l < K) labels.
Proof.
  intros HK. unfold run_kmeans.
  destruct (kmeans_result cv Hcv g (KMeansSamples smallLab) K
              (mkTermCriteria TermCriteria_EPS_MAX_ITER 30 1) 3 KMEANS_PP_CENTERS HK eq_refl)
    as (labels & centers & g' & -> & Hl & Hc & Hd & Hr).
  by eexists _, _, _.
Qed.

Lemma CenterToLab_ok c : Vec3b_ok (CenterToLab c) = true.
Proof.
  apply Vec3b_ok_spec. unfold CenterToLab. simpl.
  split; [|split]; apply uchar_of_int_range.
Qed.

Lemma QuantizeWithKMeansLab_ok smallBgr paletteSize g :
  Mat_ok smallBgr = true -> Mat_empty smallBgr = false ->
  exists q g',
    QuantizeWithKMeansLab cv smallBgr paletteSize g = (Ok q, g')
    /\ Mat_ok q = true /\ rows q = rows smallBgr /\ cols q = cols smallBgr.
Proof.
  intros Hok He. unfold QuantizeWithKMeansLab.
  destruct (Mat_nonempty_dims _ He) as [Hr0 Hc0].
  assert (Htotal : 1 <= rows smallBgr * cols smallBgr) by nia.
  rewrite He, (Mat_ok_type _ Hok). simpl.
  rewrite (proj2 (Z.leb_gt _ _)) by lia.
  destruct (cvtColor_shape cv Hcv smallBgr COLOR_BGR2Lab Hok) as (Hlok & Hlr & Hlc).
  set (smallLab := cvtColor cv smallBgr COLOR_BGR2Lab) in *.
  pose proof (ClusterCount_points paletteSize smallLab) as HK.
  rewrite Hlr, Hlc in HK. specialize (HK Htotal).
  destruct (run_kmeans_ok smallLab (ClusterCount paletteSize (rows smallBgr * cols smallBgr)) g)
    as (labels & centers & g' & Hrun & _); [lia|].
  unfold bind. rewrite Hrun. simpl. unfold ret.
  set (quantLab := Mat_tabulate _ _ _ _).
  assert (Hqok : Mat_ok quantLab = true).
  { apply Mat_tabulate_ok; [lia|]. intros. apply CenterToLab_ok. }
  destruct (cvtColor_shape cv Hcv quantLab COLOR_Lab2BGR Hqok) as (Hrok & Hrr & Hrc).
  eexists _, _. split; [reflexivity|]. split; [done|].
  rewrite Hrr, Hrc. unfold quantLab.
  rewrite Mat_tabulate_rows, Mat_tabulate_cols by nia. by rewrite Hlr, Hlc.
Qed.

Lemma QuantizeWithKMeansLabDither_ok smallBgr paletteSize g :
  Mat_ok smallBgr = true -> Mat_empty smallBgr = false ->
  let K := ClusterCount paletteSize (rows smallBgr * cols smallBgr) in
  exists q g' labels centers,
    run_kmeans cv (KMeansSamples (cvtColor cv smallBgr COLOR_BGR2Lab)) K g
    = (Ok (labels, centers), g')
    /\ QuantizeWithKMeansLabDither cv smallBgr paletteSize g = (Ok q, g')
    /\ q = FloydSteinberg (CentersPalette cv centers K) smallBgr
    /\ Z.of_nat (length (CentersPalette cv centers K)) = K
    /\ (forall c, c ∈ CentersPalette cv centers K -> Vec3b_ok c = true)
    /\ Mat_ok q = true /\ rows q = rows smallBgr /\ cols q = cols smallBgr.
Proof.
  intros Hok He. cbv zeta. unfold QuantizeWithKMeansLabDither.
  destruct (Mat_nonempty_dims _ He) as [Hr0 Hc0].
  assert (Htotal : 1 <= rows smallBgr * cols smallBgr) by nia.
  rewrite He, (Mat_ok_type _ Hok). simpl.
  rewrite (proj2 (Z.leb_gt _ _)) by lia.
  destruct (cvtColor_shape cv Hcv smallBgr COLOR_BGR2Lab Hok) as (Hlok & Hlr & Hlc).
  set (smallLab := cvtColor cv smallBgr COLOR_BGR2Lab) in *.
  pose proof (ClusterCount_points paletteSize smallLab) as HK.
  rewrite Hlr, Hlc in HK. specialize (HK Htotal).
  set (K := ClusterCount paletteSize (rows smallBgr * cols smallBgr)) in *.
  destruct (run_kmeans_ok smallLab K g) as (labels & centers & g' & Hrun & _); [lia|].
  unfold bind. rewrite Hrun. simpl. unfold ret.
  set (palette := CentersPalette cv centers K).
  assert (Hlen : Z.of_nat (length palette) = K).
  { unfold palette, CentersPalette. rewrite length_fmap, length_seqZ. lia. }
  assert (Hne : palette <> []).
  { intros E. rewrite E in Hlen. simpl in Hlen. lia. }
  assert (Hpal : forall c, c ∈ palette -> Vec3b_ok c = true).
  { intros c (i & -> & _)%list_elem_of_fmap.
    set (labPixel := Mat_set _ 0 0 _).
    assert (Hlab : Mat_ok labPixel = true).
    { apply Mat_ok_intro; [done| |].
      - apply Mat_set_rectangular, Mat_create_rectangular. lia.
      - unfold labPixel. rewrite Mat_set_rows, Mat_set_cols. intros y x Hy Hx.
        assert (y = 0 /\ x = 0) as [-> ->]
          by (unfold rows, cols in Hy, Hx; simpl in Hy, Hx; lia).
        rewrite Mat_at_set_same; [apply CenterToLab_ok| |done..].
        apply Mat_create_rectangular. lia. }
    destruct (cvtColor_shape cv Hcv labPixel COLOR_Lab2BGR Hlab) as (Hbok & Hbr & Hbc).
    apply Mat_ok_at; [done|rewrite ?Hbr, ?Hbc; unfold labPixel;
                             rewrite ?Mat_set_rows, ?Mat_set_cols;
                             unfold rows, cols; simpl; lia..]. }
  destruct (FloydSteinberg_shape palette smallBgr) as (Hr & Hc & _).
  eexists _, _, labels, centers. split; [done|]. split; [reflexivity|]. split; [done|].
  split; [done|]. split; [done|].
  split; [by apply FloydSteinberg_ok|done].
Qed.

Lemma ApplyEdgeEnhancementInPlace_shape h w out strength g :
  Mat_ok out = true -> shaped h w out ->
  exists out', ApplyEdgeEnhancementInPlace cv out strength g = (Ok out', g)
               /\ (0 < h -> 0 < w -> shaped h w out').
Proof.
  intros Hok (Hrect & Hr & Hc & Ht). unfold ApplyEdgeEnhancementInPlace.
  destruct (_ || _); [by eexists|].
  destruct (GaussianBlur_shape cv Hcv out 3 Hok) as (_ & -> & ->); [done..|].
  rewrite !Z.eqb_refl. simpl. eexists. split; [reflexivity|]. intros Hh Hw.
  rewrite Hr, Hc. split; [apply Mat_tabulate_rectangular; lia|].
  split; [apply Mat_tabulate_rows; lia|]. split; [apply Mat_tabulate_cols; lia|done].
Qed.

Lemma ApplyPixelArtOutline_shape h w out thickness :
  0 < h -> 0 < w -> shaped h w out -> shaped h w (ApplyPixelArtOutline cv out thickness).
Proof.
  intros Hh Hw Hs. unfold ApplyPixelArtOutline. destruct (_ || _); [done|].
  destruct Hs as (Hrect & Hr & Hc & Ht). rewrite Hr, Hc.
  split; [apply Mat_tabulate_rectangular; lia|].
  split; [apply Mat_tabulate_rows; lia|]. split; [apply Mat_tabulate_cols; lia|done].
Qed.

(** The result has the size of the input. *)
Lemma Process_preserves_size img p g :
  valid_input img = true ->
  exists out g',
    Process cv img p g = (Ok out, g') /\ shaped (rows img) (cols img) out.
Proof.
  intros Hvalid.
  destruct (valid_input_nonempty _ Hvalid) as [Hne Hty].
  destruct (valid_input_spec _ Hvalid) as (Hok & Hr & Hc & _).
  unfold Process. rewrite Hne, Hty. simpl.
  destruct (work_shape cv Hcv img p Hok) as (Hwok & Hwr & Hwc). cbv zeta in Hwok, Hwr, Hwc.
  set (bs := ClampInt (blockSize p) 1 256) in *.
  assert (Hbs : 0 < bs) by (unfold bs, ClampInt; lia).
  set (work := if preBlur p then _ else img) in *.
  destruct (BuildBlockColorImageBGR_shape cv work bs) as (Hsok & Hsr & Hsc & Hse); [lia..|].
  cbv zeta in Hsok, Hsr, Hsc, Hse. rewrite Hwr in Hsr. rewrite Hwc in Hsc.
  set (small := BuildBlockColorImageBGR cv work bs) in *.
  rewrite Hse.
  assert (Hq : exists q g',
             (if dither p
              then if decide (palettePreset p = Custom)
                   then QuantizeWithKMeansLabDither cv small (ClampInt (paletteSize p) 2 256)
                   else ret (QuantizeWithFixedPaletteDither small (palettePreset p))
              else if decide (palettePreset p = Custom)
                   then QuantizeWithKMeansLab cv small (ClampInt (paletteSize p) 2 256)
                   else ret (QuantizeWithFixedPalette small (palettePreset p))) g
             = (Ok q, g')
             /\ Mat_ok q = true /\ Mat_empty q = false).
  { assert (Hnonempty : forall q, rows q = rows small -> cols q = cols small ->
                                  Mat_empty q = false).
    { intros q Hqr Hqc. unfold Mat_empty. rewrite Hqr, Hqc. exact Hse. }
    destruct (dither p); destruct (decide (palettePreset p = Custom)) as [Hp|Hp].
    - destruct (QuantizeWithKMeansLabDither_ok small (ClampInt (paletteSize p) 2 256) g)
        as (q & g' & _ & _ & _ & -> & _ & _ & _ & Hqok & Hqr & Hqc); [done|done|].
      exists q, g'. auto.
    - eexists _, g. split; [reflexivity|].
      destruct (Mat_nonempty_dims _ Hse) as [Hsr' Hsc'].
      destruct (QuantizeWithFixedPaletteDither_palette small (palettePreset p) 0 0
                  Hse Hsok Hp) as [-> _]; [lia..|].
      destruct (FloydSteinberg_shape (GetPaletteColors (palettePreset p)) small)
        as (Hfr & Hfc & _).
      split; [|by apply Hnonempty].
      apply FloydSteinberg_ok; [by destruct (palettePreset p)|apply palette_ok|done].
    - destruct (QuantizeWithKMeansLab_ok small (ClampInt (paletteSize p) 2 256) g)
        as (q & g' & -> & Hqok & Hqr & Hqc); [done|done|].
      exists q, g'. auto.
    - eexists _, g. split; [reflexivity|].
      destruct (QuantizeWithFixedPalette_shape small (palettePreset p) Hse
                  (Mat_ok_type _ Hsok) Hp) as (Hqr & Hqc & Hqt & Hqe & Hqp).
      split; [|done].
      destruct (Mat_nonempty_dims _ Hse) as [Hsr' Hsc'].
      apply Mat_ok_intro; [done| |].
      + rewrite QuantizeWithFixedPalette_unfold by (try done; by apply Mat_ok_type).
        apply Mat_tabulate_rectangular. lia.
      + intros y x Hy Hx. rewrite Hqr in Hy. rewrite Hqc in Hx.
        by eapply palette_ok, Hqp. }
  destruct Hq as (q & g' & Hq & Hqok & Hqe).
  unfold bind at 1. rewrite Hq, Hqe.
  destruct (ExpandBlocksBGR_ok q (Mat_size img) bs Hqe Hqok Hbs) as (Hos & Hook & Hoe);
    [simpl; lia..|].
  cbv zeta in Hos, Hook, Hoe. simpl in Hos.
  set (out := ExpandBlocksBGR q (Mat_size img) bs) in *.
  rewrite Hoe. simpl. rewrite !andb_true_r.
  assert (Hpost : forall o, shaped (rows img) (cols img) o ->
            exists o', (if outline p && negb (Mat_empty o)
                        then ApplyPixelArtOutline cv o (ClampInt (outlineThickness p) 1 5)
                        else o) = o' /\ shaped (rows img) (cols img) o').
  { intros o Ho. eexists. split; [reflexivity|].
    destruct (_ && _); [by apply ApplyPixelArtOutline_shape|done]. }
  destruct (edgeEnhance p).
  - destruct (ApplyEdgeEnhancementInPlace_shape (rows img) (cols img) out (7 # 10) g' Hook Hos)
      as (out' & Hee & Hs').
    unfold bind. rewrite Hee. unfold ret.
    destruct (Hpost out' (Hs' Hr Hc)) as (o' & <- & Ho'). by eexists _, _.
  - unfold bind, ret.
    destruct (Hpost out Hos) as (o' & <- & Ho'). by eexists _, _.
Qed.

End ResultSize.

(** ** Dithering in the two quantizers *)

(** C4.  In dithered mode both colour mappers return the tile grid dithered
    with their palette, the table of the preset for
    [QuantizeWithFixedPaletteDither] and, for [QuantizeWithKMeansLabDither],
    the [max(2, min(paletteSize, cells))] colours it builds from the centres
    [cv::kmeans] returned: every cell of the grid is visited exactly
    once, in row-major order.  A visit clamps the cell, replaces it by the
    nearest palette colour, and gives 7/16, 3/16, 5/16 and 1/16 of the error
    to the right, below-left, below and below-right neighbours that lie in
    the grid, each clamped to [0, 255] at once; nothing else changes.  In the
    end every cell of the grid is a palette entry. *)
Theorem C4_Dither_quantizers (cv : OpenCV) (smallBgr : Mat) (preset : PalettePreset)
    (paletteSize : Z) (g : RNG) :
  OpenCV_spec cv -> Mat_ok smallBgr = true -> Mat_empty smallBgr = false ->
  preset <> Custom ->
  let K := ClusterCount paletteSize (rows smallBgr * cols smallBgr) in
  Dithered (GetPaletteColors preset) smallBgr (QuantizeWithFixedPaletteDither smallBgr preset)
  /\ exists q g' labels centers,
       run_kmeans cv (KMeansSamples (cvtColor cv smallBgr COLOR_BGR2Lab)) K g
       = (Ok (labels, centers), g')
       /\ QuantizeWithKMeansLabDither cv smallBgr paletteSize g = (Ok q, g')
       /\ Z.of_nat (length (CentersPalette cv centers K)) = K
       /\ Dithered (CentersPalette cv centers K) smallBgr q.
Proof.
  intros Hcv Hok He Hp. cbv zeta.
  pose proof (Mat_ok_rectangular _ Hok) as Hrect.
  destruct (Mat_nonempty_dims _ He) as [Hr Hc].
  split.
  - destruct (QuantizeWithFixedPaletteDither_palette smallBgr preset 0 0 He Hok Hp)
      as [-> _]; [lia..|].
    apply FloydSteinberg_Dithered; [by destruct preset|apply palette_ok|done].
  - destruct (QuantizeWithKMeansLabDither_ok cv Hcv smallBgr paletteSize g Hok He)
      as (q & g' & labels & centers & Hrun & HQ & -> & Hlen & Hpal & _).
    cbv zeta in Hrun, HQ, Hlen, Hpal.
    eexists _, g', labels, centers.
    split; [done|]. split; [done|]. split; [done|].
    apply FloydSteinberg_Dithered; [|done..].
    intros E. rewrite E in Hlen. simpl in Hlen. unfold ClusterCount in Hlen. lia.
Qed.

(** The theorem at the reference instance, a flat grey 2 x 3 grid, the Game
    Boy Pocket palette and four clusters. *)
Lemma C4_Dither_quantizers_witness :
  OpenCV_spec refCv /\ Mat_ok grey_grid = true /\ Mat_empty grey_grid = false
  /\ GameBoyPocket <> Custom
  /\ Dithered (GetPaletteColors GameBoyPocket) grey_grid
       (QuantizeWithFixedPaletteDither grey_grid GameBoyPocket)
  /\ exists q g' labels centers,
       run_kmeans refCv (KMeansSamples (cvtColor refCv grey_grid COLOR_BGR2Lab)) 4 0
       = (Ok (labels, centers), g')
       /\ QuantizeWithKMeansLabDither refCv grey_grid 4 0 = (Ok q, g')
       /\ Z.of_nat (length (CentersPalette refCv centers 4)) = 4
       /\ Dithered (CentersPalette refCv centers 4) grey_grid q.
Proof.
  split; [exact refCv_spec|]. split; [reflexivity|]. split; [reflexivity|].
  split; [discriminate|].
  apply (C4_Dither_quantizers refCv grey_grid GameBoyPocket 4 0 refCv_spec);
    [reflexivity|reflexivity|discriminate].
Defined.

(** ** The grid of one cell *)

(** A matrix with one row of one entry per column has no column 1 or 2. *)
Lemma Mat32F_column (centers : Mat32F) (i j : Z) :
  Forall (fun row => length row = 1%nat) centers ->
  Mat32F_in centers i j = bool_decide (0 <= i < Z.of_nat (length centers) /\ j = 0).
Proof.
  intros Hd. unfold Mat32F_in, Mat32F_get.
  destruct (Z.leb_spec 0 i) as [Hi|Hi]; simpl;
    [|by rewrite bool_decide_eq_false_2 by lia].
  destruct (Z.leb_spec 0 j) as [Hj|Hj]; simpl;
    [|by rewrite bool_decide_eq_false_2 by lia].
  destruct (centers !! Z.to_nat i) as [row|] eqn:E.
  - pose proof (lookup_lt_Some _ _ _ E) as Hlt.
    rewrite Forall_lookup in Hd. specialize (Hd _ _ E).
    destruct row as [|v [|? ?]]; [done| |done].
    destruct (decide (j = 0)) as [->|Hj0].
    + simpl. by rewrite bool_decide_eq_true_2 by lia.
    + replace (Z.to_nat j) with (S (Z.to_nat (j - 1))) by lia. simpl.
      by rewrite bool_decide_eq_false_2 by lia.
  - apply lookup_ge_None in E. by rewrite bool_decide_eq_false_2 by lia.
Qed.

(** For a grid of one cell the sample matrix is [1 x 3].  Two clusters are
    asked for (line 125); [cv::kmeans] finds three points of dimension 1 in
    the matrix, labels them, and returns a [2 x 1] centre matrix.  The label
    of the cell is read at [(0, 0)]; of the three reads of lines 161-163
    (again 532-534) the first finds a centre and the other two lie outside
    the centre matrix. *)
Lemma single_cell_kmeans (cv : OpenCV) (smallBgr : Mat) (g : RNG) :
  OpenCV_spec cv -> Mat_ok smallBgr = true -> rows smallBgr = 1 -> cols smallBgr = 1 ->
  let smallLab := cvtColor cv smallBgr COLOR_BGR2Lab in
  rows smallLab = 1 /\ cols smallLab = 1
  /\ exists labels centers g' v,
       run_kmeans cv (KMeansSamples smallLab) 2 g = (Ok (labels, centers), g')
       /\ length labels = 3%nat /\ length centers = 2%nat
       /\ 0 <= Labels_at cv labels 0 < 2
       /\ (forall label, 0 <= label < 2 ->
             Mat32F_in centers label 0 = true
             /\ Mat32F_in centers label 1 = false
             /\ Mat32F_in centers label 2 = false)
       /\ CenterRow cv centers (Labels_at cv labels 0)
          = mkVec3f v (stray_float cv centers (Labels_at cv labels 0) 1)
                      (stray_float cv centers (Labels_at cv labels 0) 2).
Proof.
  intros Hcv Hok Hr Hc. cbv zeta.
  destruct (cvtColor_shape cv Hcv smallBgr COLOR_BGR2Lab Hok) as (Hlok & Hlr & Hlc).
  set (smallLab := cvtColor cv smallBgr COLOR_BGR2Lab) in *.
  rewrite Hr in Hlr. rewrite Hc in Hlc. split; [done|]. split; [done|].
  assert (Hs : exists s, KMeansSamples smallLab = [s]).
  { unfold KMeansSamples. rewrite Hlr, Hlc. simpl. by eexists. }
  destruct Hs as [s Hs].
  destruct (run_kmeans_ok cv Hcv smallLab 2 g) as (labels & centers & g' & Hrun & Hl & Hcn & Hd & Hlab).
  { rewrite Hs. simpl. lia. }
  rewrite Hs in Hl, Hd. simpl in Hl, Hd.
  assert (Hin : forall label, 0 <= label < 2 ->
            Mat32F_in centers label 0 = true
            /\ Mat32F_in centers label 1 = false /\ Mat32F_in centers label 2 = false).
  { intros label Hlabel. rewrite !(Mat32F_column centers) by done.
    rewrite bool_decide_eq_true_2 by lia. by rewrite !bool_decide_eq_false_2 by lia. }
  assert (Hl0 : 0 <= Labels_at cv labels 0 < 2).
  { unfold Labels_at. simpl. destruct labels as [|l0 labels]; [done|]. simpl.
    by apply Forall_cons_1 in Hlab as [? _]. }
  destruct (Hin _ Hl0) as (H0 & H1 & H2).
  unfold Mat32F_in in H0, H1, H2.
  destruct (Mat32F_get centers (Labels_at cv labels 0) 0) as [v|] eqn:E0; [|done].
  destruct (Mat32F_get centers (Labels_at cv labels 0) 1) eqn:E1; [done|].
  destruct (Mat32F_get centers (Labels_at cv labels 0) 2) eqn:E2; [done|].
  exists labels, centers, g', v.
  split; [done|]. split; [done|]. split; [lia|]. split; [done|]. split; [done|].
  unfold CenterRow, Mat32F_at. by rewrite E0, E1, E2.
Qed.

(** C8, at the input where it fails.  The claim is that the cluster count is
    clamped down to the number of samples.  For a grid of one cell the count
    is 2 whatever [paletteSize] is, above the one sample there is.
    [cv::kmeans] takes the [1 x 3] sample matrix for three points of
    dimension 1 and returns two centres of one float each, and the cell is
    built from [centers.at<float>(label, 0)] and from the two reads
    [(label, 1)] and [(label, 2)] that lie outside the centre matrix: the
    first channel of the Lab cell is a centre, the other two are whatever
    those reads find.  [ClusterCount_range] and [QuantizeWithKMeansLab_ok]
    cover the grids of two cells or more, where the count is at most the
    number of samples. *)
Theorem C8_ClusterCount_single_sample (paletteSize : Z) (c : Vec3b) (g : RNG) :
  ClusterCount paletteSize 1 = 2
  /\ forall cv : OpenCV, OpenCV_spec cv -> Vec3b_ok c = true ->
       let smallBgr := mkMat CV_8UC3 [[c]] in
       let smallLab := cvtColor cv smallBgr COLOR_BGR2Lab in
       exists labels centers g' label v,
         run_kmeans cv (KMeansSamples smallLab) (ClusterCount paletteSize 1) g
         = (Ok (labels, centers), g')
         /\ length centers = 2%nat
         /\ label = Labels_at cv labels 0
         /\ Mat32F_get centers label 0 = Some v
         /\ Mat32F_in centers label 1 = false
         /\ Mat32F_in centers label 2 = false
         /\ QuantizeWithKMeansLab cv smallBgr paletteSize g
            = (Ok (cvtColor cv
                     (mkMat CV_8UC3
                        [[CenterToLab (mkVec3f v (stray_float cv centers label 1)
                                                 (stray_float cv centers label 2))]])
                     COLOR_Lab2BGR), g').
Proof.
  assert (E : ClusterCount paletteSize 1 = 2) by (unfold ClusterCount; lia).
  split; [done|]. intros cv Hcv Hc. cbv zeta. rewrite E.
  assert (Hok : Mat_ok (mkMat CV_8UC3 [[c]]) = true).
  { unfold Mat_ok. simpl. by rewrite Hc. }
  destruct (single_cell_kmeans cv (mkMat CV_8UC3 [[c]]) g Hcv Hok eq_refl eq_refl)
    as (Hlr & Hlc & labels & centers & g' & v & Hrun & Hl & Hcn & Hl0 & Hin & Hrow).
  cbv zeta in Hlr, Hlc, Hrun, Hrow.
  destruct (Hin _ Hl0) as (H0 & H1 & H2).
  exists labels, centers, g', (Labels_at cv labels 0), v.
  split; [done|]. split; [done|]. split; [done|].
  split.
  { unfold CenterRow, Mat32F_at in Hrow. unfold Mat32F_in in H0.
    destruct (Mat32F_get centers (Labels_at cv labels 0) 0) as [v'|]; [|done].
    by injection Hrow as ->. }
  split; [done|]. split; [done|].
  unfold QuantizeWithKMeansLab.
  change (Mat_empty (mkMat CV_8UC3 [[c]])) with false.
  change (rows (mkMat CV_8UC3 [[c]]) * cols (mkMat CV_8UC3 [[c]])) with 1.
  simpl. rewrite E. unfold bind. rewrite Hrun. simpl. unfold ret.
  rewrite Hlr, Hlc. unfold Mat_tabulate. simpl.
  change ((Z.of_nat 0 + 0) * 1 + (Z.of_nat 0 + 0)) with 0. by rewrite Hrow.
Qed.

(** ** Size of the result, for every input *)



(** ** One tile, one colour *)




(** ** Which palette entry the scan returns *)

(** After the scan the index is that of the first entry at the least distance. *)
Lemma NearestScan_first color palette :
  palette <> [] -> Vec3b_ok color = true ->
  (forall c, c ∈ palette -> Vec3b_ok c = true) ->
  let i := (NearestScan color palette).2 in
  (i < length palette)%nat
  /\ (forall j, (j < length palette)%nat ->
        ColorDistanceSquared color (palette !!! i) <= ColorDistanceSquared color (palette !!! j))
  /\ (forall j, (j < i)%nat ->
        ColorDistanceSquared color (palette !!! i) < ColorDistanceSquared color (palette !!! j)).
Proof.
  intros Hne Hc Hpal i. subst i. rewrite NearestScan_prefix.
  destruct (scan_prefix_inv color palette (length palette)) as [[_ Hall]|(Hlt & Hd & Hmin & Hfirst)].
  - exfalso. destruct palette as [|c0 palette]; [done|].
    specialize (Hall 0%nat ltac:(simpl; lia)). simpl in Hall.
    pose proof (ColorDistanceSquared_bound color c0 Hc (Hpal c0 ltac:(left))). lia.
  - rewrite <- Hd. auto.
Qed.

(** X1.  For a non-empty palette of 8-bit colours, [FindNearestPaletteColor] returns
    the palette entry at the least squared distance from the colour, and among
    entries at that distance the one with the smallest index: the comparison
    [dist < minDist] is strict, so a later tie never replaces an earlier one. *)
Theorem X1_FindNearestPaletteColor_first_nearest color palette :
  palette <> [] -> Vec3b_ok color = true ->
  (forall c, c ∈ palette -> Vec3b_ok c = true) ->
  let n := FindNearestPaletteColor color palette in
  exists i,
    palette !! i = Some n
    /\ (forall j c, palette !! j = Some c ->
          ColorDistanceSquared color n <= ColorDistanceSquared color c)
    /\ (forall j c, (j < i)%nat -> palette !! j = Some c ->
          ColorDistanceSquared color n < ColorDistanceSquared color c).
Proof.
  intros Hne Hc Hpal n.
  destruct (NearestScan_first color palette Hne Hc Hpal) as (Hlt & Hmin & Hfirst).
  assert (En : n = palette !!! (NearestScan color palette).2).
  { subst n. unfold FindNearestPaletteColor. by destruct palette. }
  exists (NearestScan color palette).2. rewrite En.
  split; [by apply list_lookup_lookup_total_lt|].
  split.
  - intros j c Hj. rewrite <- (list_lookup_total_correct _ _ _ Hj).
    apply Hmin. by eapply lookup_lt_Some.
  - intros j c Hji Hj. rewrite <- (list_lookup_total_correct _ _ _ Hj).
    by apply Hfirst.
Qed.

(** The theorem at the NES palette, whose entries 13 and 14 are both black, and
    the colour (1, 1, 1). *)
Lemma X1_FindNearestPaletteColor_first_nearest_witness :
  let palette := GetPaletteColors NES in
  let color := mkVec3b 1 1 1 in
  palette <> [] /\ Vec3b_ok color = true
  /\ exists i, palette !! i = Some (FindNearestPaletteColor color palette)
       /\ forall j c, (j < i)%nat -> palette !! j = Some c ->
            ColorDistanceSquared color (FindNearestPaletteColor color palette)
            < ColorDistanceSquared color c.
Proof.
  cbv zeta. split; [discriminate|]. split; [reflexivity|].
  destruct (X1_FindNearestPaletteColor_first_nearest (mkVec3b 1 1 1) (GetPaletteColors NES))
    as (i & Hi & _ & Hfirst); [discriminate|reflexivity|apply palette_ok|].
  exists i. split; [exact Hi|exact Hfirst].
Defined.

(** X2.  [FindNearestPaletteColor] returns the colour it was given exactly when the
    palette is empty (line 400) or holds that colour. *)
Theorem X2_FindNearestPaletteColor_fixed_iff color palette :
  FindNearestPaletteColor color palette = color <-> palette = [] \/ color ∈ palette.
Proof.
  destruct (decide (palette = [])) as [->|Hne]; [by split; [left|]|].
  split.
  - intros E. right. rewrite <- E. by apply FindNearestPaletteColor_elem.
  - intros [?|Hin]; [done|].
    unfold FindNearestPaletteColor. destruct palette; [done|].
    by apply NearestScan_fixed.
Qed.

(** X3.  For a non-empty [CV_8UC3] grid and a fixed preset, [QuantizeWithFixedPalette]
    returns a grid of the same size whose every cell is what
    [FindNearestPaletteColor] returns for the cell of the input: a palette entry
    at the least squared distance from it.  The loop written out at lines
    381-390 and the helper of lines 399-414 agree. *)
Theorem X3_QuantizeWithFixedPalette_nearest smallBgr preset :
  Mat_empty smallBgr = false -> Mat_ok smallBgr = true -> preset <> Custom ->
  let q := QuantizeWithFixedPalette smallBgr preset in
  shaped (rows smallBgr) (cols smallBgr) q
  /\ forall y x, 0 <= y < rows smallBgr -> 0 <= x < cols smallBgr ->
       Mat_at q y x = FindNearestPaletteColor (Mat_at smallBgr y x) (GetPaletteColors preset)
       /\ is_nearest (GetPaletteColors preset) (Mat_at smallBgr y x) (Mat_at q y x).
Proof.
  intros He Hok Hp q. subst q.
  destruct (Mat_nonempty_dims _ He) as [Hr Hc].
  rewrite QuantizeWithFixedPalette_unfold by (try apply Mat_ok_type; done).
  split.
  - split; [apply Mat_tabulate_rectangular; lia|].
    rewrite Mat_tabulate_rows, Mat_tabulate_cols by lia. done.
  - intros y x Hy Hx. rewrite Mat_tabulate_at by done. cbv zeta.
    assert (Hne : GetPaletteColors preset <> []) by (by destruct preset).
    split.
    + unfold FindNearestPaletteColor. by destruct (GetPaletteColors preset).
    + apply NearestScan_nearest; [done|by apply Mat_ok_at|apply palette_ok].
Qed.

(** The theorem at a white and a black pixel and the CGA preset. *)
Lemma X3_QuantizeWithFixedPalette_nearest_witness :
  Mat_empty white_black = false /\ Mat_ok white_black = true /\ CGA <> Custom
  /\ forall y x, 0 <= y < rows white_black -> 0 <= x < cols white_black ->
       Mat_at (QuantizeWithFixedPalette white_black CGA) y x
       = FindNearestPaletteColor (Mat_at white_black y x) (GetPaletteColors CGA).
Proof.
  split; [reflexivity|]. split; [reflexivity|]. split; [discriminate|].
  intros y x Hy Hx.
  destruct (X3_QuantizeWithFixedPalette_nearest white_black CGA) as [_ H];
    [reflexivity|reflexivity|discriminate|].
  by apply H.
Defined.

Lemma ColorDistanceSquared_sym a b : ColorDistanceSquared a b = ColorDistanceSquared b a.
Proof. unfold ColorDistanceSquared. lia. Qed.

(** X4.  [ColorDistanceSquared] is never negative, is symmetric, and is zero exactly
    for equal colours.  For 8-bit colours it is at most 3 * 255 * 255, which is
    below 2^24: every value the [float] computation of lines 14-17 meets is an
    integer a [float] holds exactly, and it never reaches the initial
    [minDist]. *)
Theorem X4_ColorDistanceSquared_metric a b :
  0 <= ColorDistanceSquared a b
  /\ ColorDistanceSquared a b = ColorDistanceSquared b a
  /\ (ColorDistanceSquared a b = 0 <-> a = b)
  /\ (Vec3b_ok a = true -> Vec3b_ok b = true ->
      ColorDistanceSquared a b <= 3 * 255 * 255 /\ 3 * 255 * 255 < 2 ^ 24 < FLT_MAX).
Proof.
  split; [apply ColorDistanceSquared_nonneg|]. split; [apply ColorDistanceSquared_sym|].
  split; [apply ColorDistanceSquared_zero|].
  intros Ha%Vec3b_ok_spec Hb%Vec3b_ok_spec. split; [|by vm_compute].
  unfold ColorDistanceSquared. destruct a as [a0 a1 a2], b as [b0 b1 b2]. simpl in *.
  assert (Hsq : forall u, -255 <= u <= 255 -> u * u <= 255 * 255) by (intros u Hu; nia).
  pose proof (Hsq (a2 - b2) ltac:(lia)). pose proof (Hsq (a1 - b1) ltac:(lia)).
  pose proof (Hsq (a0 - b0) ltac:(lia)). lia.
Qed.

(** The theorem at black and white, the two colours farthest apart. *)
Lemma X4_ColorDistanceSquared_metric_witness :
  Vec3b_ok (mkVec3b 0 0 0) = true /\ Vec3b_ok (mkVec3b 255 255 255) = true
  /\ ColorDistanceSquared (mkVec3b 0 0 0) (mkVec3b 255 255 255) <= 3 * 255 * 255.
Proof.
  split; [reflexivity|]. split; [reflexivity|].
  destruct (X4_ColorDistanceSquared_metric (mkVec3b 0 0 0) (mkVec3b 255 255 255))
    as (_ & _ & _ & H).
  destruct H as [H _]; [reflexivity|reflexivity|exact H].
Defined.

(** ** Dithering a grid that is already quantized *)

(** Writing back the value a cell holds changes nothing. *)
Lemma Mat_set_same m y x : Mat_set m y x (Mat_at m y x) = m.
Proof.
  destruct m as [t d]. unfold Mat_set, Mat_at. simpl. f_equal.
  apply list_eq. intros i. rewrite list_lookup_alter.
  destruct (decide (Z.to_nat y = i)) as [<-|Hi]; [|done].
  destruct (d !! Z.to_nat y) as [row|] eqn:E; [|done]. simpl. f_equal.
  rewrite (list_lookup_total_correct _ _ _ E).
  destruct (row !! Z.to_nat x) as [v|] eqn:Ex.
  - rewrite (list_lookup_total_correct _ _ _ Ex). by apply list_insert_id.
  - apply list_insert_ge. by apply lookup_ge_None.
Qed.

(** An error of zero leaves an 8-bit channel as it is. *)
Lemma diffuse_zero v w : 0 <= v <= 255 -> diffuse v 0 w = v.
Proof.
  intros Hv. unfold diffuse.
  replace (16 * v + 0 * w) with (v * 16) by lia.
  rewrite Z.quot_mul by lia. rewrite ClampInt_id by lia. by apply uchar_of_int_id.
Qed.

Lemma diffuse3_zero p w : Vec3b_ok p = true -> diffuse3 p 0 0 0 w = p.
Proof.
  intros H%Vec3b_ok_spec. destruct p as [a b c]. simpl in H. unfold diffuse3. simpl.
  by rewrite !diffuse_zero by lia.
Qed.

(** A visit of a cell that holds a palette colour changes nothing: the error is
    zero. *)
Lemma DitherCell_palette_cell palette work y x :
  Mat_ok work = true -> 0 <= y < rows work -> 0 <= x < cols work ->
  Mat_at work y x ∈ palette ->
  DitherCell palette work y x = work.
Proof.
  intros Hok Hy Hx Hin.
  pose proof (Mat_ok_at work y x Hok Hy Hx) as Hc.
  pose proof Hc as Hc'. apply Vec3b_ok_spec in Hc'.
  unfold DitherCell.
  assert (E : mkVec3b (uchar_of_int (ClampInt (ch0 (Mat_at work y x)) 0 255))
                (uchar_of_int (ClampInt (ch1 (Mat_at work y x)) 0 255))
                (uchar_of_int (ClampInt (ch2 (Mat_at work y x)) 0 255)) = Mat_at work y x).
  { destruct (Mat_at work y x) as [a b c]. simpl in *.
    by rewrite !ClampInt_id, !uchar_of_int_id by lia. }
  rewrite E.
  assert (F : FindNearestPaletteColor (Mat_at work y x) palette = Mat_at work y x).
  { unfold FindNearestPaletteColor. destruct palette; [done|]. by apply NearestScan_fixed. }
  rewrite F, !Z.sub_diag, Mat_set_same.
  assert (R : (if x + 1 <? cols work
               then Mat_set work y (x + 1) (diffuse3 (Mat_at work y (x + 1)) 0 0 0 7)
               else work) = work).
  { destruct (x + 1 <? cols work) eqn:E1; [|done]. apply Z.ltb_lt in E1.
    rewrite diffuse3_zero, Mat_set_same; [done|].
    apply Mat_ok_at; [done|lia|lia]. }
  rewrite R.
  destruct (y + 1 <? rows work) eqn:Ey; [|done]. apply Z.ltb_lt in Ey.
  assert (L : (if 0 <=? x - 1
               then Mat_set work (y + 1) (x - 1) (diffuse3 (Mat_at work (y + 1) (x - 1)) 0 0 0 3)
               else work) = work).
  { destruct (0 <=? x - 1) eqn:E1; [|done]. apply Z.leb_le in E1.
    rewrite diffuse3_zero, Mat_set_same; [done|].
    apply Mat_ok_at; [done|lia|lia]. }
  rewrite L.
  rewrite (diffuse3_zero (Mat_at work (y + 1) x)), Mat_set_same
    by (apply Mat_ok_at; [done|lia|lia]).
  destruct (x + 1 <? cols work) eqn:E1; [|done]. apply Z.ltb_lt in E1.
  rewrite diffuse3_zero, Mat_set_same; [done|].
  apply Mat_ok_at; [done|lia|lia].
Qed.

Lemma fold_left_fixed {A B} (f : A -> B -> A) (l : list B) (a : A) :
  (forall b, b ∈ l -> f a b = a) -> fold_left f l a = a.
Proof.
  induction l as [|b l IH]; intros H; simpl; [done|].
  rewrite (H b) by left. apply IH. intros b' Hb'. apply H. by right.
Qed.

Lemma FloydSteinberg_stable palette work :
  Mat_ok work = true ->
  (forall y x, 0 <= y < rows work -> 0 <= x < cols work -> Mat_at work y x ∈ palette) ->
  FloydSteinberg palette work = work.
Proof.
  intros Hok Hin. unfold FloydSteinberg.
  apply fold_left_fixed. intros y Hy%elem_of_seqZ.
  apply fold_left_fixed. intros x Hx%elem_of_seqZ.
  apply DitherCell_palette_cell; [done|lia|lia|]. apply Hin; lia.
Qed.

(** X5.  The dithering loop of both quantizers returns a [CV_8UC3] grid unchanged
    when every cell of the grid is an entry of the palette: each cell is its own
    nearest colour, so the error that is diffused is zero everywhere. *)
Theorem X5_FloydSteinberg_fixed_point palette work :
  Mat_ok work = true ->
  (forall y x, 0 <= y < rows work -> 0 <= x < cols work -> Mat_at work y x ∈ palette) ->
  FloydSteinberg palette work = work.
Proof. apply FloydSteinberg_stable. Qed.

(** The theorem at a 2 x 2 grid of Game Boy Pocket colours. *)
Lemma X5_FloydSteinberg_fixed_point_witness :
  let work := mkMat CV_8UC3 [[mkVec3b 255 255 255; mkVec3b 15 15 15];
                             [mkVec3b 79 79 79; mkVec3b 255 255 255]] in
  Mat_ok work = true /\ FloydSteinberg (GetPaletteColors GameBoyPocket) work = work.
Proof.
  cbv zeta. split; [reflexivity|].
  apply X5_FloydSteinberg_fixed_point; [reflexivity|].
  intros y x Hy Hx. unfold rows, cols in Hy, Hx. simpl in Hy, Hx.
  assert (Ey : y = 0 \/ y = 1) by lia. assert (Ex : x = 0 \/ x = 1) by lia.
  destruct Ey as [-> | ->], Ex as [-> | ->]; compute_done.
Defined.

(** X6.  [QuantizeWithFixedPaletteDither] applied to its own result, or to the
    result of [QuantizeWithFixedPalette] for the same preset, returns that
    result unchanged; this includes the null matrix returned for an empty grid
    or for the Custom preset. *)
Theorem X6_QuantizeWithFixedPaletteDither_idempotent smallBgr preset :
  Mat_ok smallBgr = true ->
  QuantizeWithFixedPaletteDither (QuantizeWithFixedPaletteDither smallBgr preset) preset
  = QuantizeWithFixedPaletteDither smallBgr preset
  /\ QuantizeWithFixedPaletteDither (QuantizeWithFixedPalette smallBgr preset) preset
     = QuantizeWithFixedPalette smallBgr preset.
Proof.
  intros Hok.
  assert (Hnull : QuantizeWithFixedPaletteDither Mat_null preset = Mat_null) by done.
  assert (Hcase : Mat_empty smallBgr = true \/ preset = Custom ->
            QuantizeWithFixedPaletteDither smallBgr preset = Mat_null
            /\ QuantizeWithFixedPalette smallBgr preset = Mat_null).
  { intros Hc. split.
    - unfold QuantizeWithFixedPaletteDither.
      destruct Hc as [-> | ->]; [done|]. by destruct (_ || _).
    - apply QuantizeWithFixedPalette_null. tauto. }
  destruct (Mat_empty smallBgr) eqn:He.
  { destruct Hcase as [-> ->]; [by left|done]. }
  destruct (decide (preset = Custom)) as [Hp|Hp].
  { destruct Hcase as [-> ->]; [by right|done]. }
  destruct (Mat_nonempty_dims _ He) as [Hr Hc].
  assert (Hne : GetPaletteColors preset <> []) by (by destruct preset).
  assert (Hgen : forall q, Mat_ok q = true -> rows q = rows smallBgr -> cols q = cols smallBgr ->
            (forall y x, 0 <= y < rows q -> 0 <= x < cols q ->
               Mat_at q y x ∈ GetPaletteColors preset) ->
            QuantizeWithFixedPaletteDither q preset = q).
  { intros q Hq Hqr Hqc Hin.
    assert (Heq : Mat_empty q = false).
    { unfold Mat_empty. rewrite Hqr, Hqc. apply Z.eqb_neq. nia. }
    unfold QuantizeWithFixedPaletteDither. rewrite Heq, (Mat_ok_type _ Hq). simpl.
    rewrite FloydSteinberg_stable by done. by destruct (GetPaletteColors preset). }
  split.
  - set (q := QuantizeWithFixedPaletteDither smallBgr preset).
    assert (Eq : q = FloydSteinberg (GetPaletteColors preset) smallBgr).
    { subst q. unfold QuantizeWithFixedPaletteDither.
      rewrite He, (Mat_ok_type _ Hok). simpl. by destruct (GetPaletteColors preset). }
    destruct (FloydSteinberg_shape (GetPaletteColors preset) smallBgr) as (Hqr & Hqc & _).
    apply Hgen; rewrite Eq.
    + apply FloydSteinberg_ok; [done|apply palette_ok|done].
    + done.
    + done.
    + intros y x Hy Hx. rewrite Hqr in Hy. rewrite Hqc in Hx.
      apply FloydSteinberg_palette; [done|by apply Mat_ok_rectangular|done..].
  - destruct (QuantizeWithFixedPalette_shape smallBgr preset He (Mat_ok_type _ Hok) Hp)
      as (Hqr & Hqc & Hqt & _ & Hin).
    apply Hgen; [|done|done|].
    + rewrite QuantizeWithFixedPalette_unfold by (try apply Mat_ok_type; done).
      apply Mat_tabulate_ok; [lia|]. intros y x Hy Hx. cbv zeta.
      apply palette_ok with preset. by apply NearestScan_elem.
    + intros y x Hy Hx. apply Hin; [by rewrite <- Hqr|by rewrite <- Hqc].
Qed.

(** The theorem at a flat grey grid and the Pico-8 preset. *)
Lemma X6_QuantizeWithFixedPaletteDither_idempotent_witness :
  Mat_ok grey_grid = true
  /\ QuantizeWithFixedPaletteDither (QuantizeWithFixedPaletteDither grey_grid Pico8) Pico8
     = QuantizeWithFixedPaletteDither grey_grid Pico8.
Proof.
  split; [reflexivity|].
  apply (X6_QuantizeWithFixedPaletteDither_idempotent grey_grid Pico8). reflexivity.
Defined.

(** Visits of later cells leave an earlier cell as it is. *)
Lemma fold_left_later_visits palette l y' x' :
  0 <= y' -> 0 <= x' ->
  Forall (fun p : Z * Z => 0 <= p.1 /\ 0 <= p.2 /\ (y' < p.1 \/ (y' = p.1 /\ x' < p.2))) l ->
  forall st, Mat_at (fold_left (DitherVisit palette) l st) y' x' = Mat_at st y' x'.
Proof.
  intros Hy' Hx'. induction l as [|p l IH]; intros Hall st; simpl; [done|].
  apply Forall_cons_1 in Hall as [(Hp1 & Hp2 & Hlater) Hall].
  rewrite IH by done. unfold DitherVisit. by apply DitherCell_at_earlier.
Qed.

Lemma FloydSteinberg_at_origin palette work :
  rectangular work -> 0 < rows work -> 0 < cols work ->
  Mat_at (FloydSteinberg palette work) 0 0
  = FindNearestPaletteColor (ClampPixel (Mat_at work 0 0)) palette.
Proof.
  intros Hrect Hr Hc. rewrite FloydSteinberg_row_major. unfold row_major.
  rewrite seqZ_cons by nia. rewrite fmap_cons. simpl fold_left.
  rewrite fold_left_later_visits; [|lia|lia|].
  - rewrite Z.div_0_l, Z.mod_0_l by lia. unfold DitherVisit. simpl.
    by apply DitherCell_at_self.
  - apply Forall_forall. intros p Hp%list_elem_of_In%list_elem_of_fmap.
    destruct Hp as (i & -> & Hi%elem_of_seqZ). simpl.
    pose proof (Z.div_pos i (cols work) ltac:(lia) Hc).
    pose proof (Z.mod_pos_bound i (cols work) Hc).
    split; [done|]. split; [lia|].
    destruct (decide (0 < i / cols work)) as [?|Hz]; [by left|right].
    split; [lia|]. rewrite Z.mod_small; [lia|].
    assert (i / cols work = 0) as Hq by lia. apply Z.div_small_iff in Hq; lia.
Qed.

(** X7.  The first cell the dithering loop visits receives no error: after the loop
    the top-left cell is the palette colour nearest to the top-left cell of the
    input.  So the top-left cells of [QuantizeWithFixedPaletteDither] and of
    [QuantizeWithFixedPalette] are equal. *)
Theorem X7_Dither_first_cell palette work smallBgr preset :
  (rectangular work -> 0 < rows work -> 0 < cols work ->
   Mat_at (FloydSteinberg palette work) 0 0
   = FindNearestPaletteColor (ClampPixel (Mat_at work 0 0)) palette)
  /\ (Mat_empty smallBgr = false -> Mat_ok smallBgr = true -> preset <> Custom ->
      Mat_at (QuantizeWithFixedPaletteDither smallBgr preset) 0 0
      = Mat_at (QuantizeWithFixedPalette smallBgr preset) 0 0).
Proof.
  split; [apply FloydSteinberg_at_origin|].
  intros He Hok Hp. destruct (Mat_nonempty_dims _ He) as [Hr Hc].
  destruct (QuantizeWithFixedPaletteDither_palette smallBgr preset 0 0 He Hok Hp) as [-> _];
    [lia..|].
  rewrite FloydSteinberg_at_origin by (try apply Mat_ok_rectangular; done).
  rewrite QuantizeWithFixedPalette_unfold by (try apply Mat_ok_type; done).
  rewrite Mat_tabulate_at by lia. cbv zeta.
  pose proof (Mat_ok_at smallBgr 0 0 Hok ltac:(lia) ltac:(lia)) as Hc0.
  apply Vec3b_ok_spec in Hc0.
  assert (E : ClampPixel (Mat_at smallBgr 0 0) = Mat_at smallBgr 0 0).
  { unfold ClampPixel. destruct (Mat_at smallBgr 0 0) as [a b c]. simpl in *.
    by rewrite !ClampInt_id by lia. }
  rewrite E. unfold FindNearestPaletteColor.
  destruct (GetPaletteColors preset) eqn:Ep; [by destruct preset|done].
Qed.

(** The theorem at a 3 x 4 grid of twelve colours and the Pico-8 preset. *)
Lemma X7_Dither_first_cell_witness :
  Mat_empty gradient_image = false /\ Mat_ok gradient_image = true /\ Pico8 <> Custom
  /\ Mat_at (QuantizeWithFixedPaletteDither gradient_image Pico8) 0 0
     = Mat_at (QuantizeWithFixedPalette gradient_image Pico8) 0 0.
Proof.
  split; [reflexivity|]. split; [reflexivity|]. split; [discriminate|].
  destruct (X7_Dither_first_cell [] gradient_image gradient_image Pico8) as [_ H].
  apply H; [reflexivity|reflexivity|discriminate].
Defined.

(** ** Clustering a grid of two cells or more *)

(** X8.  For a [CV_8UC3] grid of at least two cells, [QuantizeWithKMeansLabDither]
    raises nothing and returns a grid of the same size whose every cell is one
    of the colours of a palette of [max(2, min(paletteSize, cells))] entries:
    at least 2, at most [max(2, paletteSize)]. *)
Theorem X8_QuantizeWithKMeansLabDither_colours (cv : OpenCV) smallBgr paletteSize g :
  OpenCV_spec cv -> Mat_ok smallBgr = true -> 2 <= rows smallBgr * cols smallBgr ->
  exists q g' palette,
    QuantizeWithKMeansLabDither cv smallBgr paletteSize g = (Ok q, g')
    /\ rows q = rows smallBgr /\ cols q = cols smallBgr
    /\ Z.of_nat (length palette) = ClusterCount paletteSize (rows smallBgr * cols smallBgr)
    /\ 2 <= Z.of_nat (length palette) <= Z.max 2 paletteSize
    /\ forall y x, 0 <= y < rows smallBgr -> 0 <= x < cols smallBgr -> Mat_at q y x ∈ palette.
Proof.
  intros Hcv Hok Hn.
  assert (He : Mat_empty smallBgr = false) by (unfold Mat_empty; apply Z.eqb_neq; lia).
  destruct (QuantizeWithKMeansLabDither_ok cv Hcv smallBgr paletteSize g Hok He)
    as (q & g' & _ & _ & _ & HQ & _ & _ & _ & _ & Hqr & Hqc).
  destruct (QuantizeWithKMeansLabDither_loop cv smallBgr paletteSize g q g' He
              (Mat_ok_type _ Hok) HQ) as (palette & Hlen & Eq).
  exists q, g', palette. split; [done|]. split; [done|]. split; [done|]. split; [done|].
  split; [rewrite Hlen; unfold ClusterCount; lia|].
  intros y x Hy Hx. rewrite Eq.
  apply FloydSteinberg_palette; [|by apply Mat_ok_rectangular|done..].
  intros ->. simpl in Hlen. unfold ClusterCount in Hlen. lia.
Qed.

(** The theorem at the reference instance, a grid of twelve colours and three
    clusters. *)
Lemma X8_QuantizeWithKMeansLabDither_colours_witness :
  OpenCV_spec refCv /\ Mat_ok gradient_image = true
  /\ exists q g' palette,
       QuantizeWithKMeansLabDither refCv gradient_image 3 0 = (Ok q, g')
       /\ Z.of_nat (length palette) = 3
       /\ forall y x, 0 <= y < rows gradient_image -> 0 <= x < cols gradient_image ->
            Mat_at q y x ∈ palette.
Proof.
  split; [exact refCv_spec|]. split; [reflexivity|].
  destruct (X8_QuantizeWithKMeansLabDither_colours refCv gradient_image 3 0)
    as (q & g' & palette & HQ & _ & _ & Hlen & _ & Hin);
    [exact refCv_spec|reflexivity|by vm_compute|].
  exists q, g', palette. split; [exact HQ|]. split; [exact Hlen|exact Hin].
Defined.

(** X9.  For a [CV_8UC3] grid of at least two cells, the cluster count that
    [QuantizeWithKMeansLab] asks of [cv::kmeans] lies between 2 and the number
    of cells, the call raises nothing, and the result is a [CV_8UC3] grid of
    the size of the input. *)
Theorem X9_QuantizeWithKMeansLab_two_cells (cv : OpenCV) smallBgr paletteSize g :
  OpenCV_spec cv -> Mat_ok smallBgr = true -> 2 <= rows smallBgr * cols smallBgr ->
  2 <= ClusterCount paletteSize (rows smallBgr * cols smallBgr) <= rows smallBgr * cols smallBgr
  /\ exists q g',
       QuantizeWithKMeansLab cv smallBgr paletteSize g = (Ok q, g')
       /\ Mat_ok q = true /\ rows q = rows smallBgr /\ cols q = cols smallBgr.
Proof.
  intros Hcv Hok Hn. split; [by apply ClusterCount_range|].
  apply QuantizeWithKMeansLab_ok; [done..|].
  unfold Mat_empty. apply Z.eqb_neq. lia.
Qed.

(** The theorem at the reference instance and a grid of two cells. *)
Lemma X9_QuantizeWithKMeansLab_two_cells_witness :
  OpenCV_spec refCv /\ Mat_ok white_black = true
  /\ exists q g',
       QuantizeWithKMeansLab refCv white_black 16 0 = (Ok q, g')
       /\ Mat_ok q = true /\ rows q = rows white_black /\ cols q = cols white_black.
Proof.
  split; [exact refCv_spec|]. split; [reflexivity|].
  destruct (X9_QuantizeWithKMeansLab_two_cells refCv white_black 16 0) as [_ H];
    [exact refCv_spec|reflexivity|by vm_compute|exact H].
Defined.

(** ** Tiles of the expanded image *)

(** X10.  For a non-empty [CV_8UC3] grid, [ExpandBlocksBGR] returns a [CV_8UC3] image
    of the requested size.  With [b = max(1, blockSize)], pixel [(y, x)] is the
    grid cell [(y / b, x / b)] where the grid has such a cell, and black
    elsewhere: a grid too small for the requested size leaves the rest of the
    image black, and a block size below 1 counts as 1. *)
Theorem X10_ExpandBlocksBGR_tiles smallBgr outSize blockSize :
  Mat_empty smallBgr = false -> mtype smallBgr = CV_8UC3 ->
  0 < height outSize -> 0 < width outSize ->
  let b := Z.max 1 blockSize in
  let out := ExpandBlocksBGR smallBgr outSize blockSize in
  shaped (height outSize) (width outSize) out
  /\ forall y x, 0 <= y < height outSize -> 0 <= x < width outSize ->
       Mat_at out y x
       = if bool_decide (y / b < rows smallBgr /\ x / b < cols smallBgr)
         then Mat_at smallBgr (y / b) (x / b)
         else mkVec3b 0 0 0.
Proof.
  intros He Ht Hh Hw b out.
  assert (E : out = ExpandBlocksBGR smallBgr outSize b).
  { subst out b. unfold ExpandBlocksBGR. by rewrite Z.max_assoc, Z.max_id. }
  rewrite E. assert (Hb : 0 < b) by (subst b; lia).
  split.
  - by destruct (ExpandBlocksBGR_at smallBgr outSize b 0 0 He Ht Hb) as [? _]; [lia..|].
  - intros y x Hy Hx.
    by destruct (ExpandBlocksBGR_at smallBgr outSize b y x He Ht Hb Hy Hx) as [_ ?].
Qed.

(** The theorem at a grid of one white and one black cell, expanded by 2 into a
    3 x 5 image: column 4 lies outside the grid. *)
Lemma X10_ExpandBlocksBGR_tiles_witness :
  Mat_empty white_black = false /\ mtype white_black = CV_8UC3
  /\ shaped 3 5 (ExpandBlocksBGR white_black (mkSize 5 3) 2)
  /\ Mat_at (ExpandBlocksBGR white_black (mkSize 5 3) 2) 2 4 = mkVec3b 0 0 0
  /\ Mat_at (ExpandBlocksBGR white_black (mkSize 5 3) 2) 1 1 = mkVec3b 255 255 255.
Proof.
  split; [reflexivity|]. split; [reflexivity|].
  destruct (X10_ExpandBlocksBGR_tiles white_black (mkSize 5 3) 2) as [Hs Hat];
    [reflexivity|reflexivity|simpl; lia|simpl; lia|].
  split; [exact Hs|]. split.
  - rewrite (Hat 2 4) by (simpl; lia). reflexivity.
  - rewrite (Hat 1 1) by (simpl; lia). reflexivity.
Defined.

(** Two matrices of the same type and size whose cells are equal are equal. *)
Lemma Mat_ext m1 m2 :
  mtype m1 = mtype m2 -> rectangular m1 -> rectangular m2 ->
  rows m1 = rows m2 -> cols m1 = cols m2 ->
  (forall y x, 0 <= y < rows m1 -> 0 <= x < cols m1 -> Mat_at m1 y x = Mat_at m2 y x) ->
  m1 = m2.
Proof.
  intros Ht Hr1 Hr2 Hrows Hcols Hat.
  destruct m1 as [t1 d1], m2 as [t2 d2]. simpl in Ht. subst t2. f_equal.
  assert (Hlen : length d1 = length d2) by (unfold rows in Hrows; simpl in Hrows; lia).
  apply (list_eq_same_length d1 d2 (length d1)); [done..|].
  intros i r1 r2 Hi E1 E2.
  pose proof (Hr1 r1 ltac:(by eapply list_elem_of_lookup_2)) as L1.
  pose proof (Hr2 r2 ltac:(by eapply list_elem_of_lookup_2)) as L2.
  apply (list_eq_same_length r1 r2 (length r1)); [lia..|].
  intros j a b Hj Ea Eb.
  assert (Hy : 0 <= Z.of_nat i < rows (mkMat t1 d1)) by (unfold rows; simpl; lia).
  assert (Hx : 0 <= Z.of_nat j < cols (mkMat t1 d1)) by lia.
  specialize (Hat _ _ Hy Hx). unfold Mat_at in Hat. simpl in Hat.
  rewrite !Nat2Z.id in Hat.
  rewrite (list_lookup_total_correct _ _ _ E1), (list_lookup_total_correct _ _ _ E2) in Hat.
  by rewrite (list_lookup_total_correct _ _ _ Ea), (list_lookup_total_correct _ _ _ Eb) in Hat.
Qed.

Lemma ceil_div_1 n : ceil_div n 1 = n.
Proof. unfold ceil_div. rewrite Z.div_1_r. lia. Qed.

(** [static_cast<uchar>] of a [double] that holds a byte is that byte. *)
Lemma uchar_of_double_byte q v : q == inject_Z v -> 0 <= v <= 255 -> uchar_of_double q = v.
Proof.
  intros E Hv. unfold uchar_of_double. rewrite (Qtrunc_comp _ _ E).
  unfold Qtrunc. replace (Qle_bool 0 (inject_Z v)) with true.
  - rewrite Qfloor_Z. apply uchar_of_int_id. lia.
  - symmetry. apply Qle_bool_iff. change (inject_Z 0 <= inject_Z v)%Q.
    rewrite <- Zle_Qle. lia.
Qed.

(** With block size 1 every block is one pixel, and the mean of one pixel is
    the pixel. *)
Lemma BuildBlock_one (cv : OpenCV) img :
  mean_one_pixel cv -> Mat_ok img = true -> 0 < rows img -> 0 < cols img ->
  BuildBlockColorImageBGR cv img 1 = img.
Proof.
  intros Hmean Hok Hr Hc.
  destruct (BuildBlockColorImageBGR_shape cv img 1) as (Hsok & Hsr & Hsc & Hse); [lia..|].
  cbv zeta in Hsok, Hsr, Hsc, Hse. rewrite ceil_div_1 in Hsr, Hsc.
  apply Mat_ext; [by rewrite (Mat_ok_type _ Hsok), (Mat_ok_type _ Hok)
                 |by apply Mat_ok_rectangular..|done|done|].
  intros y x Hy Hx. rewrite Hsr in Hy. rewrite Hsc in Hx.
  destruct (BuildBlockColorImageBGR_cell cv img 1 y x Hok)
    as (Hn & Hbok & Hbr & Hbc & Hcount & Hsum & _ & (_ & _ & Hat) & ->);
    [lia|by rewrite ceil_div_1..|].
  cbv zeta in Hn, Hbok, Hbr, Hbc, Hcount, Hsum, Hat.
  set (block := Mat_roi img (TileRect img 1 y x)) in *.
  assert (Hb1r : rows block = 1) by (rewrite Hbr; unfold TileRect; simpl; lia).
  assert (Hb1c : cols block = 1) by (rewrite Hbc; unfold TileRect; simpl; lia).
  destruct (Hmean block Hbok Hb1r Hb1c) as (E0 & E1 & E2).
  rewrite Hat, !Z.mul_1_r in E0, E1, E2.
  pose proof (Mat_ok_at img y x Hok Hy Hx) as Hpix. apply Vec3b_ok_spec in Hpix.
  rewrite (uchar_of_double_byte _ _ E0), (uchar_of_double_byte _ _ E1),
    (uchar_of_double_byte _ _ E2) by lia.
  by destruct (Mat_at img y x).
Qed.

Lemma Expand_one q :
  Mat_empty q = false -> Mat_ok q = true -> ExpandBlocksBGR q (Mat_size q) 1 = q.
Proof.
  intros He Hok. destruct (Mat_nonempty_dims _ He) as [Hr Hc].
  destruct (ExpandBlocksBGR_ok q (Mat_size q) 1 He Hok) as ((Hrect & Hor & Hoc & Hot) & _ & _);
    [lia|done|done|]. simpl in Hor, Hoc.
  apply Mat_ext; [by rewrite (Mat_ok_type _ Hok)|done|by apply Mat_ok_rectangular|done|done|].
  intros y x Hy Hx. rewrite Hor in Hy. rewrite Hoc in Hx.
  destruct (ExpandBlocksBGR_at q (Mat_size q) 1 y x He (Mat_ok_type _ Hok)) as [_ ->];
    [lia|done|done|].
  rewrite !Z.div_1_r. by rewrite bool_decide_eq_true_2 by lia.
Qed.

(** X11.  With a block size of 1 or less every tile is one pixel: the block reducer
    returns the image itself ([cv::mean] of one pixel being that pixel), and
    the block expander, asked for the size of the grid, returns the grid
    itself. *)
Theorem X11_Block_size_one_identity (cv : OpenCV) img blockSize :
  mean_one_pixel cv -> valid_input img = true -> blockSize <= 1 ->
  BuildBlockColorImageBGR cv img blockSize = img
  /\ ExpandBlocksBGR img (Mat_size img) blockSize = img.
Proof.
  intros Hcv Hvalid Hb.
  destruct (valid_input_spec _ Hvalid) as (Hok & Hr & Hc & _).
  destruct (valid_input_nonempty _ Hvalid) as [He _].
  split.
  - rewrite <- (BuildBlock_one cv img Hcv Hok Hr Hc) at 2.
    unfold BuildBlockColorImageBGR. by rewrite !(Z.max_l 1 blockSize), !(Z.max_l 1 1) by lia.
  - rewrite <- (Expand_one img He Hok) at 3.
    unfold ExpandBlocksBGR. by rewrite !(Z.max_l 1 blockSize), !(Z.max_l 1 1) by lia.
Qed.

(** The theorem at the reference instance, a 3 x 4 image and block size 0. *)
Lemma X11_Block_size_one_identity_witness :
  mean_one_pixel refCv /\ valid_input gradient_image = true /\ 0 <= 1
  /\ BuildBlockColorImageBGR refCv gradient_image 0 = gradient_image
  /\ ExpandBlocksBGR gradient_image (Mat_size gradient_image) 0 = gradient_image.
Proof.
  split; [exact refCv_mean_one_pixel|]. split; [reflexivity|]. split; [lia|].
  apply X11_Block_size_one_identity; [exact refCv_mean_one_pixel|reflexivity|lia].
Defined.

Lemma QuantizeWithFixedPalette_ok smallBgr preset :
  Mat_empty smallBgr = false -> mtype smallBgr = CV_8UC3 -> preset <> Custom ->
  Mat_ok (QuantizeWithFixedPalette smallBgr preset) = true.
Proof.
  intros He Ht Hp. destruct (Mat_nonempty_dims _ He) as [Hr Hc].
  rewrite QuantizeWithFixedPalette_unfold by done.
  apply Mat_tabulate_ok; [lia|]. intros y x Hy Hx. cbv zeta.
  apply palette_ok with preset. apply NearestScan_elem. by destruct preset.
Qed.

(** With every option off and a fixed preset, [Process] is the block reducer,
    the palette quantizer and the block expander in sequence. *)
Lemma Process_fixed_direct_eq (cv : OpenCV) (img : Mat) (p : Params) (g : RNG) :
  valid_input img = true ->
  preBlur p = false -> dither p = false -> palettePreset p <> Custom ->
  edgeEnhance p = false -> outline p = false ->
  let bs := ClampInt (blockSize p) 1 256 in
  let q := QuantizeWithFixedPalette (BuildBlockColorImageBGR cv img bs) (palettePreset p) in
  Process cv img p g = (Ok (ExpandBlocksBGR q (Mat_size img) bs), g)
  /\ Mat_empty q = false /\ Mat_ok q = true
  /\ rows q = ceil_div (rows img) bs /\ cols q = ceil_div (cols img) bs
  /\ forall y x, 0 <= y < rows q -> 0 <= x < cols q ->
       Mat_at q y x ∈ GetPaletteColors (palettePreset p).
Proof.
  intros Hvalid Hb Hd Hp He Ho bs q.
  destruct (valid_input_nonempty _ Hvalid) as [Hne Hty].
  destruct (valid_input_spec _ Hvalid) as (Hok & Hr & Hc & _).
  assert (Hbs : 0 < bs) by (unfold bs, ClampInt; lia).
  destruct (BuildBlockColorImageBGR_shape cv img bs) as (Hsok & Hsr & Hsc & Hse); [lia..|].
  cbv zeta in Hsok, Hsr, Hsc, Hse.
  destruct (QuantizeWithFixedPalette_shape _ (palettePreset p) Hse (Mat_ok_type _ Hsok) Hp)
    as (Hqr & Hqc & Hqt & Hqe & Hqp).
  cbv zeta in Hqr, Hqc, Hqt, Hqe, Hqp. fold bs in Hqr, Hqc, Hqt, Hqe, Hqp. fold q in Hqr, Hqc, Hqt, Hqe, Hqp.
  split.
  { unfold Process. rewrite Hne, Hty, Hb, Hd, He, Ho. simpl. fold bs.
    rewrite Hse. rewrite decide_False by done. unfold bind, ret. fold q. by rewrite Hqe. }
  split; [done|].
  split; [subst q; apply QuantizeWithFixedPalette_ok; [done|by apply Mat_ok_type|done]|].
  split; [lia|]. split; [lia|].
  intros y x Hy Hx. apply Hqp; lia.
Qed.

(** X12.  With a block size of 1 or less, a fixed preset and every option off,
    [Process] maps each pixel of the image to its nearest palette colour: the
    result is [QuantizeWithFixedPalette] of the image itself. *)
Theorem X12_Process_block_one (cv : OpenCV) (img : Mat) (p : Params) (g : RNG) :
  mean_one_pixel cv -> valid_input img = true -> blockSize p <= 1 ->
  preBlur p = false -> dither p = false -> palettePreset p <> Custom ->
  edgeEnhance p = false -> outline p = false ->
  Process cv img p g = (Ok (QuantizeWithFixedPalette img (palettePreset p)), g).
Proof.
  intros Hcv Hvalid Hbs Hb Hd Hp He Ho.
  destruct (Process_fixed_direct_eq cv img p g Hvalid Hb Hd Hp He Ho)
    as (-> & Hqe & Hqok & Hqr & Hqc & _).
  destruct (valid_input_spec _ Hvalid) as (Hok & Hr & Hc & _).
  assert (E : ClampInt (blockSize p) 1 256 = 1) by (unfold ClampInt; lia).
  rewrite E in *. rewrite ceil_div_1 in Hqr, Hqc.
  rewrite BuildBlock_one in * by done.
  assert (Es : Mat_size img = Mat_size (QuantizeWithFixedPalette img (palettePreset p))).
  { unfold Mat_size. by rewrite Hqr, Hqc. }
  rewrite Es. by rewrite Expand_one.
Qed.

(** The theorem at the reference instance, a white and a black pixel, the CGA
    preset. *)
Lemma X12_Process_block_one_witness :
  mean_one_pixel refCv /\ valid_input white_black = true /\ blockSize CGA_direct <= 1
  /\ Process refCv white_black CGA_direct 0
     = (Ok (QuantizeWithFixedPalette white_black (palettePreset CGA_direct)), 0).
Proof.
  split; [exact refCv_mean_one_pixel|]. split; [reflexivity|]. split; [simpl; lia|].
  apply X12_Process_block_one;
    [exact refCv_mean_one_pixel|reflexivity|simpl; lia|reflexivity|reflexivity|discriminate
    |reflexivity|reflexivity].
Defined.

(** ** The whole pipeline *)

(** X13.  For every valid image and every setting of the options, [Process] with a
    fixed preset, or with the Custom preset on a grid of two tiles or more,
    raises nothing and returns a non-empty [CV_8UC3] image with the rows and
    columns of the input. *)
Theorem X13_Process_keeps_size (cv : OpenCV) (img : Mat) (p : Params) (g : RNG) :
  OpenCV_spec cv -> valid_input img = true ->
  palettePreset p <> Custom
  \/ 2 <= ceil_div (rows img) (ClampInt (blockSize p) 1 256)
          * ceil_div (cols img) (ClampInt (blockSize p) 1 256) ->
  exists out g',
    Process cv img p g = (Ok out, g')
    /\ rows out = rows img /\ cols out = cols img /\ mtype out = CV_8UC3
    /\ Mat_empty out = false.
Proof.
  intros Hcv Hvalid Hcase.
  destruct (Process_preserves_size cv Hcv img p g Hvalid) as (out & g' & HP & Hs).
  destruct Hs as (_ & Hr & Hc & Ht).
  destruct (valid_input_spec _ Hvalid) as (_ & Hr0 & Hc0 & _).
  exists out, g'. repeat split; [done..|].
  unfold Mat_empty. rewrite Hr, Hc. apply Z.eqb_neq. nia.
Qed.

(** The theorem at the reference instance and a 3 x 4 image, with clustering,
    smoothing, dithering, edge enhancement and outline all on. *)
Lemma X13_Process_keeps_size_witness :
  OpenCV_spec refCv /\ valid_input gradient_image = true
  /\ exists out g',
       Process refCv gradient_image (mkParams 2 3 true true true true 2 Custom) 0 = (Ok out, g')
       /\ rows out = rows gradient_image /\ cols out = cols gradient_image
       /\ mtype out = CV_8UC3 /\ Mat_empty out = false.
Proof.
  split; [exact refCv_spec|]. split; [reflexivity|].
  apply X13_Process_keeps_size; [exact refCv_spec|reflexivity|].
  right. by vm_compute.
Defined.

Lemma Process_fixed_dithered (cv : OpenCV) (img : Mat) (p : Params) (g : RNG) :
  OpenCV_spec cv -> valid_input img = true ->
  dither p = true -> palettePreset p <> Custom ->
  edgeEnhance p = false -> outline p = false ->
  exists out,
    Process cv img p g = (Ok out, g)
    /\ rows out = rows img /\ cols out = cols img
    /\ forall y x, 0 <= y < rows img -> 0 <= x < cols img ->
         Mat_at out y x ∈ GetPaletteColors (palettePreset p).
Proof.
  intros Hcv Hvalid Hd Hp He Ho.
  destruct (valid_input_nonempty _ Hvalid) as [Hne Hty].
  destruct (valid_input_spec _ Hvalid) as (Hok & Hr & Hc & _).
  unfold Process. rewrite Hne, Hty, Hd, He, Ho. simpl.
  destruct (work_shape cv Hcv img p Hok) as (Hwok & Hwr & Hwc). cbv zeta in Hwok, Hwr, Hwc.
  set (bs := ClampInt (blockSize p) 1 256) in *.
  assert (Hbs : 0 < bs) by (unfold bs, ClampInt; lia).
  set (work := if preBlur p then _ else img) in *.
  destruct (BuildBlockColorImageBGR_shape cv work bs) as (Hsok & Hsr & Hsc & Hse); [lia..|].
  cbv zeta in Hsok, Hsr, Hsc, Hse. rewrite Hwr in Hsr. rewrite Hwc in Hsc.
  set (small := BuildBlockColorImageBGR cv work bs) in *.
  rewrite Hse. rewrite decide_False by done.
  destruct (Mat_nonempty_dims _ Hse) as [Hsr0 Hsc0].
  destruct (QuantizeWithFixedPaletteDither_palette small (palettePreset p) 0 0 Hse Hsok Hp)
    as [Eq _]; [lia..|].
  destruct (FloydSteinberg_shape (GetPaletteColors (palettePreset p)) small) as (Hqr & Hqc & Hqt).
  rewrite <- Eq in Hqr, Hqc, Hqt. rewrite (Mat_ok_type _ Hsok) in Hqt.
  assert (Hqp : forall y x, 0 <= y < rows small -> 0 <= x < cols small ->
            Mat_at (QuantizeWithFixedPaletteDither small (palettePreset p)) y x
            ∈ GetPaletteColors (palettePreset p)).
  { intros y x Hy Hx.
    by destruct (QuantizeWithFixedPaletteDither_palette small (palettePreset p) y x Hse Hsok Hp). }
  set (q := QuantizeWithFixedPaletteDither small (palettePreset p)) in *.
  assert (Hqe : Mat_empty q = false).
  { unfold Mat_empty. rewrite Hqr, Hqc. apply Z.eqb_neq. nia. }
  unfold bind, ret. rewrite Hqe.
  eexists. split; [reflexivity|].
  destruct (ExpandBlocksBGR_at q (Mat_size img) bs 0 0 Hqe Hqt Hbs)
    as [(_ & Hor & Hoc & _) _]; [simpl; lia..|].
  split; [done|]. split; [done|].
  intros y x Hy Hx.
  destruct (ExpandBlocksBGR_at q (Mat_size img) bs y x Hqe Hqt Hbs) as [_ ->]; [done..|].
  pose proof (tile_index_lt y (rows img) bs Hbs Hy).
  pose proof (tile_index_lt x (cols img) bs Hbs Hx).
  rewrite bool_decide_eq_true_2 by lia.
  apply Hqp; lia.
Qed.

(** X14.  With dithering on, a fixed preset, and edge enhancement and outline off,
    [Process] leaves the generator alone and returns an image of the size of
    the input whose every pixel is an entry of the preset's palette. *)
Theorem X14_Process_fixed_dither (cv : OpenCV) (img : Mat) (p : Params) (g : RNG) :
  OpenCV_spec cv -> valid_input img = true ->
  dither p = true -> palettePreset p <> Custom ->
  edgeEnhance p = false -> outline p = false ->
  exists out,
    Process cv img p g = (Ok out, g)
    /\ rows out = rows img /\ cols out = cols img
    /\ forall y x, 0 <= y < rows img -> 0 <= x < cols img ->
         Mat_at out y x ∈ GetPaletteColors (palettePreset p).
Proof. apply Process_fixed_dithered. Qed.

(** The theorem at the reference instance, a 3 x 4 image and the Game Boy
    preset. *)
Lemma X14_Process_fixed_dither_witness :
  OpenCV_spec refCv /\ valid_input gradient_image = true
  /\ exists out,
       Process refCv gradient_image (mkParams 2 16 true false true false 1 GameBoy) 0 = (Ok out, 0)
       /\ rows out = rows gradient_image /\ cols out = cols gradient_image
       /\ forall y x, 0 <= y < rows gradient_image -> 0 <= x < cols gradient_image ->
            Mat_at out y x ∈ GetPaletteColors GameBoy.
Proof.
  split; [exact refCv_spec|]. split; [reflexivity|].
  apply (X14_Process_fixed_dither refCv gradient_image (mkParams 2 16 true false true false 1 GameBoy) 0);
    [exact refCv_spec|reflexivity|reflexivity|discriminate|reflexivity|reflexivity].
Defined.

Lemma generator_free_ret {A} (a : A) : generator_free (ret a).
Proof. by intros g. Qed.

Lemma generator_free_throw {A} : generator_free (@throw A).
Proof. by intros g. Qed.

Lemma generator_free_bind {A B} (c : CV A) (k : A -> CV B) :
  generator_free c -> (forall a, generator_free (k a)) -> generator_free (bind c k).
Proof.
  intros Hc Hk g. unfold bind. destruct (Hc g) as [E1 E2].
  split.
  - destruct (c g) as [[a|] g'] eqn:E; simpl in E1; subst g'; [apply Hk|done].
  - intros g2. specialize (E2 g2).
    destruct (c g) as [[a|] g'], (c g2) as [[a2|] g2'] eqn:E'; simpl in *; try done.
    + inversion E2; subst a2.
      destruct (Hc g2) as [E3 _]. rewrite E' in E3. simpl in E3. subst g2'.
      simpl in E1. subst g'. apply Hk.
Qed.

Lemma ApplyEdgeEnhancementInPlace_generator_free (cv : OpenCV) bgr strength :
  generator_free (ApplyEdgeEnhancementInPlace cv bgr strength).
Proof.
  unfold ApplyEdgeEnhancementInPlace.
  destruct (Mat_empty bgr || _); [apply generator_free_ret|].
  destruct (_ && _); [apply generator_free_ret|apply generator_free_throw].
Qed.

(** Only the clustering quantizers call [cv::kmeans]. *)
Lemma Process_generator_free (cv : OpenCV) (img : Mat) (p : Params) :
  palettePreset p <> Custom -> generator_free (Process cv img p).
Proof.
  intros Hp. unfold Process.
  destruct (Mat_empty img); [apply generator_free_ret|].
  destruct (negb _); [apply generator_free_ret|].
  destruct (Mat_empty (BuildBlockColorImageBGR _ _ _)); [apply generator_free_ret|].
  rewrite !decide_False by done.
  apply generator_free_bind; [destruct (dither p); apply generator_free_ret|].
  intros q. destruct (Mat_empty q); [apply generator_free_ret|].
  apply generator_free_bind; [|intros out; apply generator_free_ret].
  destruct (_ && _); [apply ApplyEdgeEnhancementInPlace_generator_free|apply generator_free_ret].
Qed.

(** X15.  With a fixed preset [Process] neither advances nor reads the random
    generator: the state after the call is the state before, and the outcome is
    the same from any two states.  Only the Custom preset reaches
    [cv::kmeans]. *)
Theorem X15_Process_fixed_preset_generator (cv : OpenCV) (img : Mat) (p : Params) (g1 g2 : RNG) :
  palettePreset p <> Custom ->
  (Process cv img p g1).2 = g1
  /\ (Process cv img p g2).1 = (Process cv img p g1).1.
Proof.
  intros Hp. destruct (Process_generator_free cv img p Hp g1) as [E1 E2]. by split.
Qed.

(** The theorem at the reference instance, the CGA preset with outline, and
    the states 5 and 9. *)
Lemma X15_Process_fixed_preset_generator_witness :
  palettePreset CGA_outline <> Custom
  /\ (Process refCv white_black CGA_outline 5).2 = 5
  /\ (Process refCv white_black CGA_outline 9).1 = (Process refCv white_black CGA_outline 5).1.
Proof.
  split; [discriminate|].
  apply (X15_Process_fixed_preset_generator refCv white_black CGA_outline 5 9). discriminate.
Defined.

(** ** The outline stage *)

Lemma Mask_tabulate_at h w f y x :
  0 <= y < h -> 0 <= x < w -> Mask_at (Mask_tabulate h w f) y x = f y x.
Proof.
  intros Hy Hx. unfold Mask_at, Mask_tabulate, Mask.
  rewrite !lookup_total_fmap_seqZ by lia. f_equal; lia.
Qed.

Lemma Mask_tabulate_shaped h w f : 0 <= h -> 0 <= w -> Mask_shaped h w (Mask_tabulate h w f).
Proof.
  intros Hh Hw. unfold Mask_shaped, Mask_tabulate. split.
  - rewrite tabulate_row_length. lia.
  - intros row (y & -> & _)%list_elem_of_fmap. rewrite tabulate_row_length. lia.
Qed.

Lemma Mask_shaped_dims h w e : 0 < h -> Mask_shaped h w e -> Mask_rows e = h /\ Mask_cols e = w.
Proof.
  intros Hh [Hr Hc]. unfold Mask_rows, Mask_cols. split; [done|].
  destruct e as [|r e]; [simpl in Hr; lia|]. apply Hc. left.
Qed.

(** A minimum or maximum over neighbours sets no entry of a clear mask. *)
Lemma morph_clear op offsets e h w :
  op 0 0 = 0 -> Mask_shaped h w e -> Mask_clear h w e ->
  Mask_shaped h w (morph op offsets e) /\ Mask_clear h w (morph op offsets e).
Proof.
  intros Hop Hs Hz.
  destruct (decide (0 < h)) as [Hh|Hh].
  - destruct (Mask_shaped_dims h w e Hh Hs) as [Hr Hc].
    assert (0 <= w) by (rewrite <- Hc; unfold Mask_cols; destruct e; lia).
    unfold morph. rewrite Hr, Hc. split; [apply Mask_tabulate_shaped; lia|].
    intros y x Hy Hx. rewrite Mask_tabulate_at by done.
    rewrite Hz by done.
    induction offsets as [|d offsets IH]; simpl; [done|].
    destruct (_ && _) eqn:E; [|done].
    rewrite !andb_true_iff in E. destruct E as [[[E1 E2] E3] E4].
    rewrite Hz by lia. by rewrite Hop.
  - split; [|intros y x Hy; lia].
    destruct Hs as [Hr Hc]. destruct e; [|simpl in Hr; lia].
    unfold morph. simpl. split; [simpl; lia|]. intros row Hrow. inversion Hrow.
Qed.

Lemma refCv_morphology : Morphology_spec refCv.
Proof.
  split.
  - intros e h w Hs Hz. simpl.
    destruct (morph_clear Z.min cross3 e h w eq_refl Hs Hz) as [Hs' Hz'].
    by destruct (morph_clear Z.max cross3 _ h w eq_refl Hs' Hz').
  - intros e k h w Hs Hz. simpl.
    by destruct (morph_clear Z.max (rect_offsets k) e h w eq_refl Hs Hz).
Qed.

Lemma SignificantlyDifferent_refl (cv : OpenCV) c : SignificantlyDifferent cv c c = false.
Proof.
  unfold SignificantlyDifferent. rewrite Z.sub_diag. simpl.
  rewrite (proj2 (ColorDistanceSquared_zero c c) eq_refl). reflexivity.
Qed.

Lemma SignificantlyDifferent_sym (cv : OpenCV) a b :
  SignificantlyDifferent cv a b = SignificantlyDifferent cv b a.
Proof.
  unfold SignificantlyDifferent.
  rewrite (ColorDistanceSquared_sym a b). f_equal. f_equal. lia.
Qed.

(** Darkening lowers each channel by 40, 70 or 90 and stops at zero, so the
    conversion back to [uchar] never wraps. *)
Lemma DarkenPixel_bounds p :
  Vec3b_ok p = true ->
  Vec3b_ok (DarkenPixel p) = true
  /\ ch0 p - 90 <= ch0 (DarkenPixel p) <= ch0 p
  /\ ch1 p - 90 <= ch1 (DarkenPixel p) <= ch1 p
  /\ ch2 p - 90 <= ch2 (DarkenPixel p) <= ch2 p.
Proof.
  intros H%Vec3b_ok_spec. destruct p as [a b c]. simpl in H.
  unfold DarkenPixel. simpl.
  set (d := if _ <? 64 then 40 else if 192 <? _ then 90 else 70).
  assert (Hd : 40 <= d <= 90) by (subst d; repeat case_match; lia).
  rewrite Vec3b_ok_spec. simpl.
  rewrite !uchar_of_int_id by lia. lia.
Qed.

Lemma ApplyPixelArtOutline_at (cv : OpenCV) bgr thickness y x :
  Mat_empty bgr = false -> mtype bgr = CV_8UC3 ->
  0 <= y < rows bgr -> 0 <= x < cols bgr ->
  Mat_at (ApplyPixelArtOutline cv bgr thickness) y x = Mat_at bgr y x
  \/ Mat_at (ApplyPixelArtOutline cv bgr thickness) y x = DarkenPixel (Mat_at bgr y x).
Proof.
  intros He Ht Hy Hx. unfold ApplyPixelArtOutline. rewrite He, Ht. simpl.
  rewrite Mat_tabulate_at by done. cbv zeta. case_match; [by right|by left].
Qed.

(** X16.  [ApplyPixelArtOutline] keeps the size and type of a non-empty [CV_8UC3]
    image, and each pixel of the result is the pixel of the input or that pixel
    darkened: no channel is raised, none is lowered by more than 90, none
    leaves [0, 255].  This holds whatever the morphology calls return. *)
Theorem X16_ApplyPixelArtOutline_darkens (cv : OpenCV) bgr thickness :
  Mat_ok bgr = true -> 0 < rows bgr -> 0 < cols bgr ->
  let out := ApplyPixelArtOutline cv bgr thickness in
  shaped (rows bgr) (cols bgr) out
  /\ forall y x, 0 <= y < rows bgr -> 0 <= x < cols bgr ->
       (Mat_at out y x = Mat_at bgr y x \/ Mat_at out y x = DarkenPixel (Mat_at bgr y x))
       /\ Z.max 0 (ch0 (Mat_at bgr y x) - 90) <= ch0 (Mat_at out y x) <= ch0 (Mat_at bgr y x)
       /\ Z.max 0 (ch1 (Mat_at bgr y x) - 90) <= ch1 (Mat_at out y x) <= ch1 (Mat_at bgr y x)
       /\ Z.max 0 (ch2 (Mat_at bgr y x) - 90) <= ch2 (Mat_at out y x) <= ch2 (Mat_at bgr y x).
Proof.
  intros Hok Hr Hc out.
  assert (He : Mat_empty bgr = false) by (unfold Mat_empty; apply Z.eqb_neq; nia).
  split.
  - apply ApplyPixelArtOutline_shape; [done..|].
    split; [by apply Mat_ok_rectangular|]. split; [done|]. split; [done|by apply Mat_ok_type].
  - intros y x Hy Hx.
    pose proof (Mat_ok_at bgr y x Hok Hy Hx) as Hp.
    destruct (DarkenPixel_bounds _ Hp) as (Hd & H0 & H1 & H2).
    apply Vec3b_ok_spec in Hp, Hd.
    destruct (ApplyPixelArtOutline_at cv bgr thickness y x He (Mat_ok_type _ Hok) Hy Hx) as [E|E].
    + split; [by left|]. subst out. rewrite E. lia.
    + split; [by right|]. subst out. rewrite E. lia.
Qed.

(** The theorem at the reference instance, a white and a black pixel, thickness
    2. *)
Lemma X16_ApplyPixelArtOutline_darkens_witness :
  Mat_ok white_black = true /\ 0 < rows white_black /\ 0 < cols white_black
  /\ shaped (rows white_black) (cols white_black) (ApplyPixelArtOutline refCv white_black 2)
  /\ ch0 (Mat_at (ApplyPixelArtOutline refCv white_black 2) 0 0) <= ch0 (Mat_at white_black 0 0).
Proof.
  split; [reflexivity|]. split; [reflexivity|]. split; [reflexivity|].
  destruct (X16_ApplyPixelArtOutline_darkens refCv white_black 2) as [Hs Hat];
    [reflexivity|reflexivity|reflexivity|].
  split; [exact Hs|].
  destruct (Hat 0 0) as (_ & [_ H] & _); [by vm_compute|by vm_compute|exact H].
Defined.

Lemma EdgeMask_clear (cv : OpenCV) bgr :
  (forall y x y' x',
     0 <= y < rows bgr -> 0 <= x < cols bgr -> 0 <= y' < rows bgr -> 0 <= x' < cols bgr ->
     Z.abs (y - y') + Z.abs (x - x') = 1 ->
     SignificantlyDifferent cv (Mat_at bgr y x) (Mat_at bgr y' x') = false) ->
  Mask_clear (rows bgr) (cols bgr) (EdgeMask cv bgr).
Proof.
  intros Hs y x Hy Hx. unfold EdgeMask. rewrite Mask_tabulate_at by done.
  assert (E1 : (x + 1 <? cols bgr)
               && SignificantlyDifferent cv (Mat_at bgr y x) (Mat_at bgr y (x + 1)) = false).
  { destruct (x + 1 <? cols bgr) eqn:E; [|done]. apply Z.ltb_lt in E. simpl.
    apply Hs; lia. }
  assert (E2 : (y + 1 <? rows bgr)
               && SignificantlyDifferent cv (Mat_at bgr y x) (Mat_at bgr (y + 1) x) = false).
  { destruct (y + 1 <? rows bgr) eqn:E; [|done]. apply Z.ltb_lt in E. simpl.
    apply Hs; lia. }
  assert (E3 : (0 <? x)
               && SignificantlyDifferent cv (Mat_at bgr y x) (Mat_at bgr y (x - 1)) = false).
  { destruct (0 <? x) eqn:E; [|done]. apply Z.ltb_lt in E. simpl.
    apply Hs; lia. }
  assert (E4 : (0 <? y)
               && SignificantlyDifferent cv (Mat_at bgr y x) (Mat_at bgr (y - 1) x) = false).
  { destruct (0 <? y) eqn:E; [|done]. apply Z.ltb_lt in E. simpl.
    apply Hs; lia. }
  cbv zeta. by rewrite E1, E2, E3, E4.
Qed.

(** X17.  [ApplyPixelArtOutline] returns unchanged an image in which no pixel differs
    significantly (luminance by 35 or more, or colour distance 40 or more) from
    a horizontal or vertical neighbour, for every thickness: the edge mask is
    clear and morphology keeps it clear. *)
Theorem X17_ApplyPixelArtOutline_smooth (cv : OpenCV) bgr thickness :
  Morphology_spec cv -> Mat_ok bgr = true ->
  (forall y x y' x',
     0 <= y < rows bgr -> 0 <= x < cols bgr -> 0 <= y' < rows bgr -> 0 <= x' < cols bgr ->
     Z.abs (y - y') + Z.abs (x - x') = 1 ->
     SignificantlyDifferent cv (Mat_at bgr y x) (Mat_at bgr y' x') = false) ->
  ApplyPixelArtOutline cv bgr thickness = bgr.
Proof.
  intros Hm Hok Hs. unfold ApplyPixelArtOutline.
  destruct (Mat_empty bgr) eqn:He; [done|]. rewrite (Mat_ok_type _ Hok). simpl.
  destruct (Mat_nonempty_dims _ He) as [Hr Hc].
  pose proof (EdgeMask_clear cv bgr Hs) as Hz.
  assert (Hsh : Mask_shaped (rows bgr) (cols bgr) (EdgeMask cv bgr))
    by (apply Mask_tabulate_shaped; lia).
  set (edges := if _ =? 1 then _ else _).
  assert (Hz' : Mask_clear (rows bgr) (cols bgr) edges).
  { subst edges. case_match; [by apply (open_clear cv Hm)|by apply (dilate_clear cv Hm)]. }
  apply Mat_ext; [by rewrite (Mat_ok_type _ Hok)
                 |apply Mat_tabulate_rectangular; lia|by apply Mat_ok_rectangular
                 |apply Mat_tabulate_rows; lia|apply Mat_tabulate_cols; lia|].
  intros y x Hy Hx. rewrite Mat_tabulate_rows in Hy by lia. rewrite Mat_tabulate_cols in Hx by lia.
  rewrite Mat_tabulate_at by done. cbv zeta. by rewrite Hz'.
Qed.

(** The theorem at the reference instance and an 8 x 8 image of one colour,
    thickness 3. *)
Lemma X17_ApplyPixelArtOutline_smooth_witness :
  Morphology_spec refCv /\ Mat_ok small_image = true
  /\ ApplyPixelArtOutline refCv small_image 3 = small_image.
Proof.
  split; [exact refCv_morphology|]. split; [reflexivity|].
  apply X17_ApplyPixelArtOutline_smooth; [exact refCv_morphology|reflexivity|].
  intros y x y' x' Hy Hx Hy' Hx' _.
  unfold small_image. rewrite !Mat_create_at by assumption.
  apply SignificantlyDifferent_refl.
Defined.

(** X18.  The significance test is symmetric, so where two neighbouring pixels differ
    significantly the edge mask built at lines 621-697 is 255 at both of them:
    before morphology an edge is two pixels wide. *)
Theorem X18_EdgeMask_marks_both_sides (cv : OpenCV) bgr y x y' x' :
  0 <= y < rows bgr -> 0 <= x < cols bgr -> 0 <= y' < rows bgr -> 0 <= x' < cols bgr ->
  Z.abs (y - y') + Z.abs (x - x') = 1 ->
  SignificantlyDifferent cv (Mat_at bgr y x) (Mat_at bgr y' x') = true ->
  Mask_at (EdgeMask cv bgr) y x = 255 /\ Mask_at (EdgeMask cv bgr) y' x' = 255.
Proof.
  assert (Hone : forall y x y' x',
    0 <= y < rows bgr -> 0 <= x < cols bgr -> 0 <= y' < rows bgr -> 0 <= x' < cols bgr ->
    Z.abs (y - y') + Z.abs (x - x') = 1 ->
    SignificantlyDifferent cv (Mat_at bgr y x) (Mat_at bgr y' x') = true ->
    Mask_at (EdgeMask cv bgr) y x = 255).
  { clear. intros y x y' x' Hy Hx Hy' Hx' Hadj Hd.
    unfold EdgeMask. rewrite Mask_tabulate_at by done. cbv zeta.
    assert (Hcase : (y' = y /\ x' = x + 1) \/ (y' = y + 1 /\ x' = x)
                    \/ (y' = y /\ x' = x - 1) \/ (y' = y - 1 /\ x' = x)) by lia.
    destruct Hcase as [[-> ->]|[[-> ->]|[[-> ->]|[-> ->]]]]; rewrite Hd.
    - rewrite (proj2 (Z.ltb_lt _ _)) by lia. reflexivity.
    - rewrite (proj2 (Z.ltb_lt (y + 1) _)) by lia. simpl. by rewrite orb_true_r.
    - rewrite (proj2 (Z.ltb_lt 0 x)) by lia. simpl. by rewrite orb_true_r.
    - rewrite (proj2 (Z.ltb_lt 0 y)) by lia. simpl. by rewrite orb_true_r. }
  intros Hy Hx Hy' Hx' Hadj Hd. split; [by eapply Hone|].
  apply (Hone y' x' y x); [done..|lia|]. by rewrite SignificantlyDifferent_sym.
Qed.

(** The theorem at the reference instance and a white pixel next to a black
    one. *)
Lemma X18_EdgeMask_marks_both_sides_witness :
  SignificantlyDifferent refCv (Mat_at white_black 0 0) (Mat_at white_black 0 1) = true
  /\ Mask_at (EdgeMask refCv white_black) 0 0 = 255
  /\ Mask_at (EdgeMask refCv white_black) 0 1 = 255.
Proof.
  split; [reflexivity|].
  apply (X18_EdgeMask_marks_both_sides refCv white_black 0 0 0 1);
    [by vm_compute|by vm_compute|by vm_compute|by vm_compute|reflexivity|reflexivity].
Defined.

Lemma ApplyPixelArtOutline_empty (cv : OpenCV) m t :
  Mat_empty m = true -> ApplyPixelArtOutline cv m t = m.
Proof. intros He. unfold ApplyPixelArtOutline. by rewrite He. Qed.

Lemma Process_outline_factor (cv : OpenCV) img bs ps pb ee d t pr g out g' :
  Process cv img (mkParams bs ps pb ee d false t pr) g = (Ok out, g') ->
  Process cv img (mkParams bs ps pb ee d true t pr) g
  = (Ok (ApplyPixelArtOutline cv out (ClampInt t 1 5)), g').
Proof.
  unfold Process. simpl.
  destruct (Mat_empty img); [by intros [= <- <-]|].
  destruct (negb _); [by intros [= <- <-]|].
  destruct (Mat_empty (BuildBlockColorImageBGR _ _ _)); [by intros [= <- <-]|].
  match goal with
  | |- bind ?c _ g = _ -> _ => unfold bind at 1 3; destruct (c g) as [[q|] g1]; [|done]
  end.
  destruct (Mat_empty q); [by intros [= <- <-]|].
  match goal with
  | |- bind ?c _ g1 = _ -> _ => unfold bind; destruct (c g1) as [[o|] g2]; [|done]
  end.
  unfold ret. intros [= <- <-]. destruct (Mat_empty o) eqn:E; simpl; [|done].
  by rewrite ApplyPixelArtOutline_empty.
Qed.

(** X19.  The outline is a last stage on top of the rest: when [Process] with
    [outline] off returns an image, [Process] with [outline] on and all other
    parameters equal returns [ApplyPixelArtOutline] of that image, with the
    thickness clamped to [1, 5], and leaves the generator in the same state. *)
Theorem X19_Process_outline_post (cv : OpenCV) img bs ps pb ee d t pr g out g' :
  Process cv img (mkParams bs ps pb ee d false t pr) g = (Ok out, g') ->
  Process cv img (mkParams bs ps pb ee d true t pr) g
  = (Ok (ApplyPixelArtOutline cv out (ClampInt t 1 5)), g').
Proof. apply Process_outline_factor. Qed.

(** The theorem at the reference instance, a white and a black pixel, the CGA
    preset. *)
Lemma X19_Process_outline_post_witness :
  Process refCv white_black CGA_direct 0 = (Ok white_black, 0)
  /\ Process refCv white_black (mkParams 1 16 false false false true 1 CGA) 0
     = (Ok (ApplyPixelArtOutline refCv white_black (ClampInt 1 1 5)), 0).
Proof.
  split; [by vm_compute|].
  apply (X19_Process_outline_post refCv white_black 1 16 false false false 1 CGA 0 white_black 0).
  by vm_compute.
Defined.

(** X20.  With a fixed preset, edge enhancement off and the outline on, dithered or
    not, [Process] returns an image of the size of the input whose every pixel
    is an entry of the preset's palette or such an entry darkened by
    [DarkenPixel]. *)
Theorem X20_Process_outline_palette (cv : OpenCV) img bs ps pb d t pr g :
  OpenCV_spec cv -> valid_input img = true -> pr <> Custom ->
  exists out,
    Process cv img (mkParams bs ps pb false d true t pr) g = (Ok out, g)
    /\ rows out = rows img /\ cols out = cols img
    /\ forall y x, 0 <= y < rows img -> 0 <= x < cols img ->
         exists c, c ∈ GetPaletteColors pr
                   /\ (Mat_at out y x = c \/ Mat_at out y x = DarkenPixel c).
Proof.
  intros Hcv Hvalid Hp.
  set (p0 := mkParams bs ps pb false d false t pr).
  destruct (valid_input_spec _ Hvalid) as (_ & Hr & Hc & _).
  assert (H0 : exists out0,
            Process cv img p0 g = (Ok out0, g)
            /\ rows out0 = rows img /\ cols out0 = cols img
            /\ forall y x, 0 <= y < rows img -> 0 <= x < cols img ->
                 Mat_at out0 y x ∈ GetPaletteColors pr).
  { destruct d.
    - by apply (Process_fixed_dithered cv img p0 g).
    - destruct (Process_fixed_direct cv img p0 g) as (out0 & q & HP & Hor & Hoc & _ & _ & Hat);
        [done..|].
      exists out0. split; [done|]. split; [done|]. split; [done|].
      intros y x Hy Hx. by destruct (Hat y x Hy Hx). }
  destruct H0 as (out0 & HP & Hor & Hoc & Hin).
  destruct (Process_preserves_size cv Hcv img p0 g Hvalid) as (out1 & g1 & HP1 & Hs).
  rewrite HP in HP1. injection HP1 as <- <-.
  destruct Hs as (Hrect & _ & _ & Ht).
  assert (He : Mat_empty out0 = false).
  { unfold Mat_empty. rewrite Hor, Hoc. apply Z.eqb_neq. nia. }
  exists (ApplyPixelArtOutline cv out0 (ClampInt t 1 5)).
  split; [by apply Process_outline_factor|].
  destruct (ApplyPixelArtOutline_shape cv (rows img) (cols img) out0 (ClampInt t 1 5))
    as (_ & Hr' & Hc' & _); [done|done|done|].
  split; [done|]. split; [done|].
  intros y x Hy Hx. exists (Mat_at out0 y x). split; [by apply Hin|].
  apply ApplyPixelArtOutline_at; [done|done|lia|lia].
Qed.

(** The theorem at the reference instance, a white and a black pixel, the CGA
    preset with an outline of thickness 2. *)
Lemma X20_Process_outline_palette_witness :
  OpenCV_spec refCv /\ valid_input white_black = true
  /\ exists out,
       Process refCv white_black CGA_outline 0 = (Ok out, 0)
       /\ forall y x, 0 <= y < rows white_black -> 0 <= x < cols white_black ->
            exists c, c ∈ GetPaletteColors CGA
                      /\ (Mat_at out y x = c \/ Mat_at out y x = DarkenPixel c).
Proof.
  split; [exact refCv_spec|]. split; [reflexivity|].
  destruct (X20_Process_outline_palette refCv white_black 1 16 false false 2 CGA 0)
    as (out & HP & _ & _ & Hat); [exact refCv_spec|reflexivity|discriminate|].
  exists out. split; [exact HP|exact Hat].
Defined.

(** ** Edge enhancement *)

(** X21.  On a non-empty [CV_8UC3] image [ApplyEdgeEnhancementInPlace] raises nothing
    (the smoothed copy has the size of the image, so the subtraction of line 218
    is defined) and leaves a [CV_8UC3] image of the same size, whose every
    channel is the unsharp mask of the channel and its smoothed value with the
    strength clamped to [0, 2]. *)
Theorem X21_ApplyEdgeEnhancementInPlace_keeps_shape (cv : OpenCV) bgr strength g :
  OpenCV_spec cv -> Mat_ok bgr = true -> 0 < rows bgr -> 0 < cols bgr ->
  exists out,
    ApplyEdgeEnhancementInPlace cv bgr strength g = (Ok out, g)
    /\ shaped (rows bgr) (cols bgr) out
    /\ forall y x, 0 <= y < rows bgr -> 0 <= x < cols bgr ->
         let s := Qmax 0 (Qmin strength 2) in
         let a := Mat_at bgr y x in
         let b := Mat_at (GaussianBlur cv bgr 3) y x in
         Mat_at out y x
         = mkVec3b (unsharp cv s (ch0 a) (ch0 b)) (unsharp cv s (ch1 a) (ch1 b))
                   (unsharp cv s (ch2 a) (ch2 b)).
Proof.
  intros Hcv Hok Hr Hc.
  assert (Hs : shaped (rows bgr) (cols bgr) bgr).
  { split; [by apply Mat_ok_rectangular|]. split; [done|]. split; [done|by apply Mat_ok_type]. }
  destruct (ApplyEdgeEnhancementInPlace_shape cv Hcv (rows bgr) (cols bgr) bgr strength g Hok Hs)
    as (out & HE & Hshape).
  exists out. split; [done|]. split; [by apply Hshape|].
  intros y x Hy Hx. revert HE. unfold ApplyEdgeEnhancementInPlace.
  assert (He : Mat_empty bgr = false) by (unfold Mat_empty; apply Z.eqb_neq; nia).
  rewrite He, (Mat_ok_type _ Hok). simpl.
  destruct (_ && _); [|done]. unfold ret. intros [= <-].
  by rewrite Mat_tabulate_at.
Qed.

(** The theorem at the reference instance, a white and a black pixel, strength
    0.7. *)
Lemma X21_ApplyEdgeEnhancementInPlace_keeps_shape_witness :
  OpenCV_spec refCv /\ Mat_ok white_black = true
  /\ exists out,
       ApplyEdgeEnhancementInPlace refCv white_black (7 # 10) 0 = (Ok out, 0)
       /\ shaped (rows white_black) (cols white_black) out.
Proof.
  split; [exact refCv_spec|]. split; [reflexivity|].
  destruct (X21_ApplyEdgeEnhancementInPlace_keeps_shape refCv white_black (7 # 10) 0)
    as (out & HE & Hs & _); [exact refCv_spec|reflexivity|reflexivity|reflexivity|].
  exists out. split; [exact HE|exact Hs].
Defined.

(** ** The control panel and the pipeline *)

Lemma ref_random_spec : StdRandom_spec ref_random.
Proof.
  split. intros a b gen Hab. simpl.
  pose proof (Z.mod_pos_bound gen (b - a + 1)). lia.
Qed.

Lemma PalettePreset_of_int_range n :
  0 <= n <= 7 -> exists preset, PalettePreset_of_int n = Some preset /\ int_of_PalettePreset preset = n.
Proof.
  intros Hn. unfold PalettePreset_of_int.
  assert (n = 0 \/ n = 1 \/ n = 2 \/ n = 3 \/ n = 4 \/ n = 5 \/ n = 6 \/ n = 7) as H by lia.
  destruct H as [->|[->|[->|[->|[->|[->|[->| ->]]]]]]]; simpl; by eexists.
Qed.

(** X22.  For a fixed preset, the number of colours the control panel announces
    ([src/App.cpp], lines 239-251) is the number of entries of the preset's
    palette table exactly when the preset is not NES. *)
Theorem X22_paletteColorCount_matches_table preset :
  preset <> Custom ->
  paletteColorCount preset = Z.of_nat (length (GetPaletteColors preset)) <-> preset <> NES.
Proof. intros Hp. destruct preset; simpl; split; intros; try done; try lia. Qed.

(** The theorem at Pico-8, where the numbers agree, and at NES, where they do
    not. *)
Lemma X22_paletteColorCount_matches_table_witness :
  paletteColorCount Pico8 = Z.of_nat (length (GetPaletteColors Pico8))
  /\ paletteColorCount NES <> Z.of_nat (length (GetPaletteColors NES)).
Proof.
  split.
  - apply (X22_paletteColorCount_matches_table Pico8); discriminate.
  - intros E. apply (X22_paletteColorCount_matches_table NES) in E; [by apply E|discriminate].
Defined.

(** X23.  [App::RandomizeParams] always produces a parameter record: the preset is
    one of the eight enumerators, the block size lies in [4, 32], the palette
    size in [2, 64], the outline thickness in [1, 3] and is 1 when the outline
    is off.  These are the ranges of the sliders, and the clamps of [Process]
    leave all three values as they are. *)
Theorem X23_RandomizeParams_in_range (R : StdRandom) (gen : Engine R) :
  StdRandom_spec R ->
  exists p,
    (RandomizeParams R gen).1 = Some p
    /\ 4 <= blockSize p <= 32 /\ 2 <= paletteSize p <= 64
    /\ 1 <= outlineThickness p <= 3
    /\ (outline p = false -> outlineThickness p = 1)
    /\ ClampInt (blockSize p) 1 256 = blockSize p
    /\ ClampInt (paletteSize p) 2 256 = paletteSize p
    /\ ClampInt (outlineThickness p) 1 5 = outlineThickness p.
Proof.
  intros HR. unfold RandomizeParams.
  pose proof (uniform_int_range R HR 4 32 gen ltac:(lia)) as H1.
  destruct (uniform_int_distribution R 4 32 gen) as [bs g1]. simpl in H1.
  pose proof (uniform_int_range R HR 0 (int_of_PalettePreset Commodore64) g1 ltac:(simpl; lia)) as H2.
  destruct (uniform_int_distribution R 0 _ g1) as [pr g2]. simpl in H2.
  pose proof (uniform_int_range R HR 2 64 g2 ltac:(lia)) as H3.
  destruct (uniform_int_distribution R 2 64 g2) as [ps g3]. simpl in H3.
  destruct (uniform_int_distribution R 0 1 g3) as [b1 g4].
  destruct (uniform_int_distribution R 0 1 g4) as [b2 g5].
  destruct (uniform_int_distribution R 0 1 g5) as [b3 g6].
  destruct (uniform_int_distribution R 0 1 g6) as [b4 g7].
  destruct (PalettePreset_of_int_range pr H2) as (preset & -> & _).
  destruct (b4 =? 1) eqn:Eo.
  - pose proof (uniform_int_range R HR 1 3 g7 ltac:(lia)) as H4.
    destruct (uniform_int_distribution R 1 3 g7) as [t g8]. simpl in H4.
    eexists. split; [reflexivity|]. simpl. unfold ClampInt. repeat split; try lia; done.
  - eexists. split; [reflexivity|]. simpl. unfold ClampInt. repeat split; try lia; done.
Qed.

(** The theorem at the reference sampler and the state 2026. *)
Lemma X23_RandomizeParams_in_range_witness :
  StdRandom_spec ref_random
  /\ exists p, (RandomizeParams ref_random 2026).1 = Some p
       /\ 4 <= blockSize p <= 32 /\ 2 <= paletteSize p <= 64.
Proof.
  split; [exact ref_random_spec|].
  destruct (X23_RandomizeParams_in_range ref_random 2026 ref_random_spec)
    as (p & Hp & Hb & Hs & _).
  exists p. split; [exact Hp|]. split; [exact Hb|exact Hs].
Defined.
